(** * include_parse: a shallow embedding of [include_parse.cpp]

    The program flattens a tree of text files joined by [#include]
    directives.  This development embeds its functions
    ([strip_pragma_once], [strip_comments], [runtime_path_from_include_path],
    [slurp], [do_preprocess], [main]) and states its properties.

    Conventions of the embedding:
    - a [std::string] is a [list ascii] (one [ascii] per [char]);
    - a [std::filesystem::path] is its pathname, and [generic_string()]
      is the pathname rebuilt from its elements the way libstdc++ does it
      for POSIX pathnames: the elements joined by single slashes, so that
      a run of slashes becomes one slash;
    - a [std::unordered_set<std::string>] is a [gset (list ascii)];
    - a [std::regex] is a term of [regex], interpreted by a backtracking
      matcher that follows the ECMAScript grammar [std::regex] uses by
      default: no [multiline] flag, so [^] and [$] match only at the two
      ends of the target sequence;
    - an exception is an outcome that carries the session as the throw
      left it, since the session is passed by reference. *)

From Stdlib Require Import Ascii String List NArith Arith Bool Lia DecimalString.
From stdpp Require Import base decidable countable gmap strings list.

#[local] Set Warnings "-clear-no-such-hyp".

Import ListNotations.
Local Open Scope list_scope.
Local Open Scope nat_scope.

(** ** Strings *)

Abbreviation str := (list ascii).

(** A string literal of the source. *)
Definition lit (s : string) : str := list_ascii_of_string s.

Definition NUL : ascii := ascii_of_nat 0.
Definition LF : ascii := ascii_of_nat 10.
Definition CR : ascii := ascii_of_nat 13.
Definition DQUOTE : ascii := ascii_of_nat 34.

(** The characters of a C string: up to the first NUL, exclusive.  This is
    what a [const char*] argument denotes ([std::regex_search] on
    [source.data() + pos], the [std::filesystem::path] constructor on
    [&stripped_path[first_pos]]). *)
Fixpoint c_str (s : str) : str :=
  match s with
  | [] => []
  | c :: t => if Ascii.eqb c NUL then [] else c :: c_str t
  end.

(** [std::string::substr(pos, n)]; the program only calls it with
    [pos <= size()]. *)
Definition substr (s : str) (pos n : nat) : str := firstn n (skipn pos s).

(** [std::string::replace(pos, len, r)] for [pos <= size()]. *)
Definition replace (s : str) (pos len : nat) (r : str) : str :=
  firstn pos s ++ r ++ skipn (pos + len) s.

(** [std::to_string] on an unsigned value: its decimal digits. *)
Definition to_string (n : N) : str :=
  lit (NilEmpty.string_of_uint (N.to_uint n)).

(** ** Character classes of the regular expressions *)

Definition code (c : ascii) : nat := nat_of_ascii c.

Definition in_range (lo hi : string) (c : ascii) : bool :=
  match lit lo, lit hi with
  | [l], [h] => (code l <=? code c) && (code c <=? code h)
  | _, _ => false
  end.

(** [\s]: [isspace] in the classic locale. *)
Definition is_space (c : ascii) : bool :=
  (code c =? 32) || ((9 <=? code c) && (code c <=? 13)).

(** [\w], which decides [\b]. *)
Definition is_word (c : ascii) : bool :=
  in_range "a" "z" c || in_range "A" "Z" c || in_range "0" "9" c
  || Ascii.eqb c "_"%char.

(** [.]: any character but a line terminator. *)
Definition is_dot (c : ascii) : bool :=
  negb (Ascii.eqb c LF || Ascii.eqb c CR).

(** [[^]]: any character at all. *)
Definition is_any (c : ascii) : bool := true.

Definition is_char (d : ascii) (c : ascii) : bool := Ascii.eqb c d.
Definition is_not_char (d : ascii) (c : ascii) : bool := negb (Ascii.eqb c d).

(** [[a-zA-Z0-9]] and its complement. *)
Definition is_alnum (c : ascii) : bool :=
  in_range "a" "z" c || in_range "A" "Z" c || in_range "0" "9" c.
Definition is_non_identifier (c : ascii) : bool := negb (is_alnum c).

(** ** Regular expressions and the backtracking matcher *)

Inductive regex : Type :=
| Eps
| Chars (p : ascii -> bool)
| Seq (a b : regex)
| Alt (a b : regex)
| Star (greedy : bool) (a : regex)
| AssertBegin
| AssertEnd
| WordBoundary
| Group (a : regex).

Definition Plus (greedy : bool) (a : regex) : regex := Seq a (Star greedy a).

Fixpoint Lit_chars (w : str) : regex :=
  match w with
  | [] => Eps
  | c :: t => Seq (Chars (is_char c)) (Lit_chars t)
  end.
Definition Lit (w : string) : regex := Lit_chars (lit w).

(** A position in the target sequence: the characters behind it, nearest
    first, and the characters ahead of it. *)
Record cursor : Type := Cursor { behind : str; ahead : str }.

Definition advance (c : ascii) (t : str) (x : cursor) : cursor :=
  {| behind := c :: behind x; ahead := t |}.

(** The text between two positions [x] and [y], [y] further on. *)
Definition between (x y : cursor) : str :=
  rev (firstn (length (behind y) - length (behind x)) (behind y)).

Definition is_word_opt (o : option ascii) : bool :=
  match o with Some c => is_word c | None => false end.

Definition at_word_boundary (x : cursor) : bool :=
  xorb (is_word_opt (head (behind x))) (is_word_opt (head (ahead x))).

(** What a match hands on: the position reached and the text of group 1. *)
Definition mstate : Type := cursor * option str.
Definition cont : Type := cursor -> option str -> option mstate.

(** The iterations of a starred sub-expression whose one iteration is
    [body].  A greedy star tries one more iteration before it tries what
    follows; a lazy star does the reverse.  An iteration that consumes
    nothing is rejected, so at most [n] iterations are tried, where [n] is
    the number of characters ahead. *)
Fixpoint star_loop (body : cont -> cont) (greedy : bool) (k : cont)
  (n : nat) (x : cursor) (g : option str) {struct n} : option mstate :=
  if greedy then
    match
      match n with
      | 0 => None
      | S n' =>
          body (fun y g' =>
                  if length (ahead y) <? length (ahead x)
                  then star_loop body greedy k n' y g' else None) x g
      end
    with
    | Some m => Some m
    | None => k x g
    end
  else
    match k x g with
    | Some m => Some m
    | None =>
        match n with
        | 0 => None
        | S n' =>
            body (fun y g' =>
                    if length (ahead y) <? length (ahead x)
                    then star_loop body greedy k n' y g' else None) x g
        end
    end.

(** [exec r k x g] matches [r] at [x] and hands the position reached to the
    continuation [k]; when [k] fails the matcher backtracks into [r]. *)
Fixpoint exec (r : regex) (k : cont) (x : cursor) (g : option str)
  : option mstate :=
  match r with
  | Eps => k x g
  | Chars p =>
      match ahead x with
      | c :: t => if p c then k (advance c t x) g else None
      | [] => None
      end
  | Seq a b => exec a (exec b k) x g
  | Alt a b =>
      match exec a k x g with
      | Some m => Some m
      | None => exec b k x g
      end
  | Star greedy a => star_loop (exec a) greedy k (length (ahead x)) x g
  | AssertBegin => match behind x with [] => k x g | _ :: _ => None end
  | AssertEnd => match ahead x with [] => k x g | _ :: _ => None end
  | WordBoundary => if at_word_boundary x then k x g else None
  | Group a => exec a (fun y _ => k y (Some (between x y))) x g
  end.

(** [std::match_results], as far as the program reads it. *)
Record match_results : Type := Match {
  m_prefix : str;      (* from where the search started to the match *)
  m_str0 : str;        (* match.str(0) *)
  m_str1 : str;        (* match.str(1), empty when group 1 took no part *)
  m_end : cursor       (* match[0].second *)
}.

Definition m_position (m : match_results) : nat := length (m_prefix m).
Definition m_length (m : match_results) : nat := length (m_str0 m).

(** One attempt, anchored at [x]. *)
Definition match_here (re : regex) (x : cursor) : option match_results :=
  match exec re (fun y g => Some (y, g)) x None with
  | Some (y, g) =>
      Some {| m_prefix := []; m_str0 := between x y;
              m_str1 := match g with Some w => w | None => [] end;
              m_end := y |}
  | None => None
  end.

Definition shift_prefix (c : ascii) (m : match_results) : match_results :=
  {| m_prefix := c :: m_prefix m; m_str0 := m_str0 m;
     m_str1 := m_str1 m; m_end := m_end m |}.

(** [std::regex_search]: the leftmost position at which an attempt succeeds. *)
Fixpoint search_at (re : regex) (bh : str) (ah : str) : option match_results :=
  match match_here re {| behind := bh; ahead := ah |} with
  | Some m => Some m
  | None =>
      match ah with
      | [] => None
      | c :: t => option_map (shift_prefix c) (search_at re (c :: bh) t)
      end
  end.

Definition regex_search (re : regex) (s : str) : option match_results :=
  search_at re [] s.

(** [std::regex_replace(s, re, fmt)] with the default flags: every match,
    found left to right, each search resuming where the last match ended
    (with what lies behind still in view), is replaced by [fmt]; the text
    between matches is copied.  After an empty match one character is
    copied before the search resumes; no pattern of this program matches
    the empty string. *)
Fixpoint replace_at (n : nat) (re : regex) (fmt : str) (bh ah : str) : str :=
  match n with
  | 0 => ah
  | S n' =>
      match search_at re bh ah with
      | None => ah
      | Some m =>
          m_prefix m ++ fmt ++
          match m_str0 m with
          | _ :: _ => replace_at n' re fmt (behind (m_end m)) (ahead (m_end m))
          | [] =>
              match ahead (m_end m) with
              | c :: t => c :: replace_at n' re fmt (c :: behind (m_end m)) t
              | [] => []
              end
          end
      end
  end.

Definition regex_replace (s : str) (re : regex) (fmt : str) : str :=
  replace_at (S (length s)) re fmt [] s.

(** ** The regular expressions of the program *)

(** [^\s*#pragma\s+once\b] *)
Definition pragma_once_directive_re : regex :=
  Seq AssertBegin
    (Seq (Star true (Chars is_space))
       (Seq (Lit "#pragma")
          (Seq (Plus true (Chars is_space))
             (Seq (Lit "once") WordBoundary)))).

(** [/\*[^]*?\*/] *)
Definition block_comment_re : regex :=
  Seq (Lit "/*") (Seq (Star false (Chars is_any)) (Lit "*/")).

(** [//.*] *)
Definition line_comment_re : regex :=
  Seq (Lit "//") (Star true (Chars is_dot)).

(** [#include\s*(Q[^Q]+Q|<[^>]*>)], where Q stands for the double quote *)
Definition include_directive_re : regex :=
  Seq (Lit "#include")
    (Seq (Star true (Chars is_space))
       (Group
          (Alt
             (Seq (Chars (is_char DQUOTE))
                (Seq (Plus true (Chars (is_not_char DQUOTE)))
                   (Chars (is_char DQUOTE))))
             (Seq (Chars (is_char "<"%char))
                (Seq (Star true (Chars (is_not_char ">"%char)))
                   (Chars (is_char ">"%char))))))).

(** [[^a-zA-Z0-9]+] *)
Definition non_identifier_re : regex := Plus true (Chars is_non_identifier).

(** [^_+|_+$] *)
Definition underscore_at_ends_re : regex :=
  Alt (Seq AssertBegin (Plus true (Chars (is_char "_"%char))))
      (Seq (Plus true (Chars (is_char "_"%char))) AssertEnd).

(** ** The program state *)

(** [struct Session]. *)
Record Session : Type := {
  visiting : gset str;
  should_skip : gset str
}.

(** [struct Preprocess_Result]. *)
Record Preprocess_Result : Type := {
  content : str;
  has_pragma_once : bool
}.

(** What a run does besides computing its result, kept as a log with the
    latest entry first: each call of [slurp], with the [visiting] set at
    the time of the call, and each directive replaced by the loop of
    [do_preprocess]. *)
Inductive event : Type :=
| Slurped (path : str) (open_files : gset str)
| Spliced (identity : str) (seen_before : bool) (child : Preprocess_Result)
          (replacement : str).

Record World : Type := {
  session : Session;
  trace : list event
}.

Definition log (e : event) (w : World) : World :=
  {| session := session w; trace := e :: trace w |}.

Definition visiting_emplace (f : str) (w : World) : World :=
  {| session := {| visiting := {[ f ]} ∪ visiting (session w);
                   should_skip := should_skip (session w) |};
     trace := trace w |}.

Definition visiting_erase (f : str) (w : World) : World :=
  {| session := {| visiting := visiting (session w) ∖ {[ f ]};
                   should_skip := should_skip (session w) |};
     trace := trace w |}.

Definition should_skip_emplace (f : str) (w : World) : World :=
  {| session := {| visiting := visiting (session w);
                   should_skip := {[ f ]} ∪ should_skip (session w) |};
     trace := trace w |}.

(** [std::runtime_error], with its message. *)
Inductive exception : Type :=
| runtime_error (what : str).

(** How a call ends: it returns, it throws, or it aborts the process (a
    failed [assert], [pop] on an empty [std::stack]). *)
Inductive outcome (A : Type) : Type :=
| Returned (a : A)
| Thrown (e : exception)
| Aborted.
Arguments Returned {A} a.
Arguments Thrown {A} e.
Arguments Aborted {A}.

(** A call that may run out of fuel ([None]). *)
Definition run (A : Type) : Type := option (outcome A * World).

(** ** Paths *)

(** [std::filesystem::path::generic_string]: the root directory and the
    file names of the path, joined by single slashes.  A slash that is
    followed by a slash is dropped. *)
Fixpoint generic_string (p : str) : str :=
  match p with
  | [] => []
  | c :: t =>
      if Ascii.eqb c "/"%char then
        match t with
        | d :: _ => if Ascii.eqb d "/"%char then generic_string t
                    else c :: generic_string t
        | [] => [c]
        end
      else c :: generic_string t
  end.

(** [runtime_path_from_include_path]; [None] is the failed assertion. *)
Definition runtime_path_from_include_path (path : str) : option str :=
  if length path <? 2 then None
  else
    let stripped_path := substr path 0 (length path - 1) in
    let stripped_path := <[0 := "/"%char]> stripped_path in
    let first_pos := if bool_decide (head path = Some "<"%char) then 0 else 1 in
    Some (c_str (skipn first_pos stripped_path)).

(** ** The text transforms *)

(** [strip_pragma_once]: the result and the flag it sets. *)
Definition strip_pragma_once (source : str) : str * bool :=
  let result := regex_replace source pragma_once_directive_re [] in
  (result, negb (length result =? length source)).

Definition strip_block_comments (source : str) : str :=
  regex_replace source block_comment_re [].

Definition strip_line_comments (source : str) : str :=
  regex_replace source line_comment_re [].

Definition strip_comments (source : str) : str :=
  strip_line_comments (strip_block_comments source).

(** ** [class Working_Directory_File_Guard] *)

(** An object of the class owns its stack: [working_directories] is a
    non-static member, empty when the constructor starts. *)
Record Working_Directory_File_Guard : Type := {
  working_directories : list str
}.

(** ** Reading the log *)



(** The replaced directives of a log, as tuples. *)
Definition splices (t : list event)
  : list (str * bool * Preprocess_Result * str) :=
  flat_map (fun e => match e with
                     | Spliced c seen_before child rep =>
                         [(c, seen_before, child, rep)]
                     | Slurped _ _ => []
                     end) t.

(** The files read by a log, latest first. *)
Definition slurps (t : list event) : list str :=
  flat_map (fun e => match e with
                     | Slurped p _ => [p]
                     | Spliced _ _ _ _ => []
                     end) t.

(** What a run shows: its outcome, the two sets of the session as lists,
    the files read and the directives replaced. *)
Definition observe {A : Type} (r : option (outcome A * World))
  : option (outcome A * list str * list str * list str
            * list (str * bool * Preprocess_Result * str)) :=
  match r with
  | Some (o, w) =>
      Some (o, elements (visiting (session w)),
            elements (should_skip (session w)),
            slurps (trace w), splices (trace w))
  | None => None
  end.

Section Program.

(** The files [slurp] can read, [std::hash<std::string>] and
    [std::filesystem::path::parent_path] come from outside the program. *)
Variable files : str -> option str.
Variable path_hash : str -> N.
Variable parent_path : str -> str.

Definition wdfg_construct (file : str) : Working_Directory_File_Guard :=
  let p := parent_path file in
  {| working_directories := generic_string p :: [] |}.

(** The destructor pops; on an empty stack that is undefined ([None]). *)
Definition wdfg_destroy (g : Working_Directory_File_Guard)
  : option Working_Directory_File_Guard :=
  match working_directories g with
  | [] => None
  | _ :: below => Some {| working_directories := below |}
  end.

(** The scope of a guard object: the destructor runs however the scope is
    left. *)
Definition with_guard {A : Type} (g : Working_Directory_File_Guard)
  (body : run A) : run A :=
  match body with
  | None => None
  | Some (o, w) =>
      match wdfg_destroy g with
      | Some _ => Some (o, w)
      | None => Some (Aborted, w)
      end
  end.

(** [slurp]. *)
Definition slurp (path : str) : outcome str :=
  match files path with
  | Some bytes => Returned bytes
  | None => Thrown (runtime_error (lit "Cannot load file: " ++ path))
  end.

(** The name of the include guard of a file (lines 140-147). *)
Definition guard_macro (filename : str) : str :=
  let path := generic_string filename in
  let path_safe := regex_replace path non_identifier_re (lit "_") in
  let path_safe := substr path_safe 0 128 in
  let path_safe := regex_replace path_safe underscore_at_ends_re [] in
  lit "NAMA_INCLUDE_GUARD_" ++ path_safe ++ lit "_" ++ to_string (path_hash path).

(** The guarded text (lines 149-161). *)
Definition add_include_guard (filename : str) (old_source : str) : str :=
  let source :=
    lit "#ifndef " ++ guard_macro filename ++ [LF] ++
    lit "#define " ++ guard_macro filename ++ [LF] ++ old_source in
  let source :=
    if Ascii.eqb (List.last source NUL) LF then source else source ++ [LF] in
  source ++ lit "#endif // " ++ guard_macro filename ++ [LF].

(** The statements of [do_preprocess] after the guard object is built,
    given the [while] loop. *)
Definition do_preprocess_steps
  (loop : World -> str -> nat -> run str)
  (w : World) (filename : str) (source : str) : run Preprocess_Result :=
  let '(source, has_pragma_once) := strip_pragma_once source in
  if bool_decide (generic_string filename ∈ visiting (session w)) then
    if has_pragma_once
    then Some (Returned {| content := []; has_pragma_once := has_pragma_once |}, w)
    else Some (Thrown (runtime_error
                 (lit "Cyclic inclusion: " ++ generic_string filename)), w)
  else
    let w := visiting_emplace (generic_string filename) w in
    let source := strip_comments source in
    match loop w source 0 with
    | None => None
    | Some (Thrown e, w) => Some (Thrown e, w)
    | Some (Aborted, w) => Some (Aborted, w)
    | Some (Returned source, w) =>
        let w := visiting_erase (generic_string filename) w in
        let source :=
          if has_pragma_once then add_include_guard filename source
          else source in
        Some (Returned {| content := source;
                          has_pragma_once := has_pragma_once |}, w)
    end.

(** The body of [do_preprocess]: the guard object [wdfg] lives from the
    first statement to the end of the function. *)
Definition do_preprocess_body
  (loop : World -> str -> nat -> run str)
  (w : World) (filename : str) (source : str) : run Preprocess_Result :=
  let wdfg := wdfg_construct filename in
  with_guard wdfg (do_preprocess_steps loop w filename source).

(** The [while] loop of [do_preprocess] (lines 111-130), from the state
    [source], [pos].  One unit of fuel is spent per directive. *)
Fixpoint scan (fuel : nat) (w : World) (source : str) (pos : nat) : run str :=
  match regex_search include_directive_re (c_str (skipn pos source)) with
  | None => Some (Returned source, w)
  | Some m =>
      match fuel with
      | 0 => None
      | S fuel' =>
          let include_path := m_str1 m in
          match runtime_path_from_include_path include_path with
          | None => Some (Aborted, w)
          | Some runtime_path =>
              let w := log (Slurped (generic_string runtime_path)
                                    (visiting (session w))) w in
              match slurp (generic_string runtime_path) with
              | Aborted => Some (Aborted, w)
              | Thrown e => Some (Thrown e, w)
              | Returned included_source =>
                  let skip :=
                    bool_decide (generic_string runtime_path
                                   ∈ should_skip (session w)) in
                  let w :=
                    if skip then w
                    else should_skip_emplace (generic_string runtime_path) w in
                  match do_preprocess_body (scan fuel') w runtime_path
                          included_source with
                  | None => None
                  | Some (Aborted, w) => Some (Aborted, w)
                  | Some (Thrown e, w) => Some (Thrown e, w)
                  | Some (Returned included_result, w) =>
                      let replacement :=
                        if has_pragma_once included_result && skip
                        then []
                        else content included_result in
                      let match_pos := pos + m_position m in
                      let match_len := m_length m in
                      let source := replace source match_pos match_len replacement in
                      let w := log (Spliced (generic_string runtime_path) skip
                                      included_result replacement) w in
                      scan fuel' w source (match_pos + length replacement)
                  end
              end
          end
      end
  end.

(** [do_preprocess]. *)
Definition do_preprocess (fuel : nat) (w : World) (filename : str)
  (source : str) : run Preprocess_Result :=
  do_preprocess_body (scan fuel) w filename source.

(** The same loop and function with the guard object left out: the
    algorithm [expand] of the specification. *)
Fixpoint scan_unguarded (fuel : nat) (w : World) (source : str) (pos : nat)
  : run str :=
  match regex_search include_directive_re (c_str (skipn pos source)) with
  | None => Some (Returned source, w)
  | Some m =>
      match fuel with
      | 0 => None
      | S fuel' =>
          let include_path := m_str1 m in
          match runtime_path_from_include_path include_path with
          | None => Some (Aborted, w)
          | Some runtime_path =>
              let w := log (Slurped (generic_string runtime_path)
                                    (visiting (session w))) w in
              match slurp (generic_string runtime_path) with
              | Aborted => Some (Aborted, w)
              | Thrown e => Some (Thrown e, w)
              | Returned included_source =>
                  let skip :=
                    bool_decide (generic_string runtime_path
                                   ∈ should_skip (session w)) in
                  let w :=
                    if skip then w
                    else should_skip_emplace (generic_string runtime_path) w in
                  match do_preprocess_steps (scan_unguarded fuel') w runtime_path
                          included_source with
                  | None => None
                  | Some (Aborted, w) => Some (Aborted, w)
                  | Some (Thrown e, w) => Some (Thrown e, w)
                  | Some (Returned included_result, w) =>
                      let replacement :=
                        if has_pragma_once included_result && skip
                        then []
                        else content included_result in
                      let match_pos := pos + m_position m in
                      let match_len := m_length m in
                      let source := replace source match_pos match_len replacement in
                      let w := log (Spliced (generic_string runtime_path) skip
                                      included_result replacement) w in
                      scan_unguarded fuel' w source (match_pos + length replacement)
                  end
              end
          end
      end
  end.

Definition expand (fuel : nat) (w : World) (identity : str)
  (raw_content : str) : run Preprocess_Result :=
  do_preprocess_steps (scan_unguarded fuel) w identity raw_content.

Definition new_world : World :=
  {| session := {| visiting := ∅; should_skip := ∅ |}; trace := [] |}.

(** [main]: what it writes to the standard output. *)
Definition main (fuel : nat) : run str :=
  let w := log (Slurped (lit "a.glsl") ∅) new_world in
  match slurp (lit "a.glsl") with
  | Aborted => Some (Aborted, w)
  | Thrown e => Some (Thrown e, w)
  | Returned source =>
      match do_preprocess fuel w (lit "a.glsl") source with
      | None => None
      | Some (Aborted, w) => Some (Aborted, w)
      | Some (Thrown e, w) => Some (Thrown e, w)
      | Some (Returned result, w) =>
          Some (Returned (content result ++ [LF] ++ lit "Hello World!" ++ [LF]), w)
      end
  end.

(** *** The runs of the program as a relation

    [Do w f src o w'] : [do_preprocess] called in [w] on a file whose
    [generic_string()] is [f], with the text [src], ends with [o] and
    leaves [w'].  [Scan] is the same for the loop.  The relation has one rule per path through the code; it
    holds of every run that has enough fuel. *)

Definition failed {A : Type} (o : outcome A) : Prop :=
  match o with Returned _ => False | _ => True end.

Definition recast {A B : Type} (o : outcome A) : outcome B :=
  match o with Thrown e => Thrown e | _ => Aborted end.

Definition seen (p : str) (w : World) : bool :=
  bool_decide (p ∈ should_skip (session w)).

Definition register (p : str) (w : World) : World :=
  if seen p w then w else should_skip_emplace p w.

Definition replacement_of (child : Preprocess_Result) (skip : bool) : str :=
  if has_pragma_once child && skip then [] else content child.

Inductive Do : World -> str -> str -> outcome Preprocess_Result -> World -> Prop :=
| Do_again_once w f src :
    f ∈ visiting (session w) ->
    snd (strip_pragma_once src) = true ->
    Do w f src (Returned {| content := []; has_pragma_once := true |}) w
| Do_again_cycle w f src :
    f ∈ visiting (session w) ->
    snd (strip_pragma_once src) = false ->
    Do w f src (Thrown (runtime_error (lit "Cyclic inclusion: " ++ f))) w
| Do_expand w f src s w1 :
    f ∉ visiting (session w) ->
    Scan (visiting_emplace f w)
         (strip_comments (fst (strip_pragma_once src))) 0 (Returned s) w1 ->
    Do w f src
       (Returned {| content := if snd (strip_pragma_once src)
                               then add_include_guard f s else s;
                    has_pragma_once := snd (strip_pragma_once src) |})
       (visiting_erase f w1)
| Do_fail w f src o w1 :
    f ∉ visiting (session w) ->
    Scan (visiting_emplace f w)
         (strip_comments (fst (strip_pragma_once src))) 0 o w1 ->
    failed o ->
    Do w f src (recast o) w1
with Scan : World -> str -> nat -> outcome str -> World -> Prop :=
| Scan_done w s pos :
    regex_search include_directive_re (c_str (skipn pos s)) = None ->
    Scan w s pos (Returned s) w
| Scan_assert w s pos m :
    regex_search include_directive_re (c_str (skipn pos s)) = Some m ->
    runtime_path_from_include_path (m_str1 m) = None ->
    Scan w s pos Aborted w
| Scan_missing w s pos m p :
    regex_search include_directive_re (c_str (skipn pos s)) = Some m ->
    option_map generic_string (runtime_path_from_include_path (m_str1 m))
      = Some p ->
    files p = None ->
    Scan w s pos (Thrown (runtime_error (lit "Cannot load file: " ++ p)))
         (log (Slurped p (visiting (session w))) w)
| Scan_child_failed w s pos m p raw o w3 :
    regex_search include_directive_re (c_str (skipn pos s)) = Some m ->
    option_map generic_string (runtime_path_from_include_path (m_str1 m))
      = Some p ->
    files p = Some raw ->
    Do (register p (log (Slurped p (visiting (session w))) w)) p raw o w3 ->
    failed o ->
    Scan w s pos (recast o) w3
| Scan_splice w s pos m p raw child w3 o w4 :
    regex_search include_directive_re (c_str (skipn pos s)) = Some m ->
    option_map generic_string (runtime_path_from_include_path (m_str1 m))
      = Some p ->
    files p = Some raw ->
    Do (register p (log (Slurped p (visiting (session w))) w)) p raw
       (Returned child) w3 ->
    Scan (log (Spliced p (seen p w) child (replacement_of child (seen p w))) w3)
         (replace s (pos + m_position m) (m_length m)
                  (replacement_of child (seen p w)))
         (pos + m_position m + length (replacement_of child (seen p w)))
         o w4 ->
    Scan w s pos o w4.



End Program.

(** ** What the patterns match, computed directly

    Each function reads the text ahead and returns what the pattern of the
    same name matches at that position, with the text that follows.  The
    matcher is proved to agree with them. *)

Fixpoint strip_prefix (w s : str) : option str :=
  match w, s with
  | [], _ => Some s
  | c :: w', d :: s' => if Ascii.eqb d c then strip_prefix w' s' else None
  | _ :: _, [] => None
  end.

Fixpoint take_while (p : ascii -> bool) (s : str) : str :=
  match s with
  | c :: t => if p c then c :: take_while p t else []
  | [] => []
  end.

Fixpoint drop_while (p : ascii -> bool) (s : str) : str :=
  match s with
  | c :: t => if p c then drop_while p t else s
  | [] => []
  end.

(** A greedy star over one character class, followed by [k]. *)
Fixpoint munch (p : ascii -> bool) (k : cont) (bh ah : str) (g : option str)
  : option mstate :=
  match ah with
  | c :: t =>
      if p c then
        match munch p k (c :: bh) t g with
        | Some m => Some m
        | None => k {| behind := bh; ahead := ah |} g
        end
      else k {| behind := bh; ahead := ah |} g
  | [] => k {| behind := bh; ahead := ah |} g
  end.

(** A lazy star over one character class, followed by [k]. *)
Fixpoint creep (p : ascii -> bool) (k : cont) (bh ah : str) (g : option str)
  : option mstate :=
  match k {| behind := bh; ahead := ah |} g with
  | Some m => Some m
  | None =>
      match ah with
      | c :: t => if p c then creep p k (c :: bh) t g else None
      | [] => None
      end
  end.

(** The match of [pragma_once_directive_re] at the start of the target
    sequence [s]: the whole match and the rest. *)
Definition pragma_here (s : str) : option (str * str) :=
  let ws1 := take_while is_space s in
  match strip_prefix (lit "#pragma") (drop_while is_space s) with
  | None => None
  | Some t2 =>
      match t2 with
      | c :: t3 =>
          if is_space c then
            let ws2 := c :: take_while is_space t3 in
            match strip_prefix (lit "once") (drop_while is_space t3) with
            | None => None
            | Some t4 =>
                if is_word_opt (head t4) then None
                else Some (ws1 ++ lit "#pragma" ++ ws2 ++ lit "once", t4)
            end
          else None
      | [] => None
      end
  end.

(** The leftmost match of a pattern whose match at the start of a text is
    computed by [here]: the text before the match, the whole match, group
    1 and the rest. *)
Fixpoint dsearch (here : str -> option (str * str * str)) (s : str)
  : option (str * str * str * str) :=
  match here s with
  | Some (whole, g1, rest) => Some ([], whole, g1, rest)
  | None =>
      match s with
      | [] => None
      | c :: t =>
          match dsearch here t with
          | Some (pre, whole, g1, rest) => Some (c :: pre, whole, g1, rest)
          | None => None
          end
      end
  end.

(** Replacing every match by [fmt], for such a pattern. *)
Fixpoint dreplace (here : str -> option (str * str * str)) (n : nat)
  (fmt s : str) : str :=
  match n with
  | 0 => s
  | S n' =>
      match dsearch here s with
      | None => s
      | Some (pre, whole, _, rest) =>
          pre ++ fmt ++
          match whole with
          | _ :: _ => dreplace here n' fmt rest
          | [] =>
              match rest with
              | c :: t => c :: dreplace here n' fmt t
              | [] => []
              end
          end
      end
  end.

(** Where the first [*/] of [s] is: the text before it and the text
    after it. *)
Fixpoint find_close (s : str) : option (str * str) :=
  match strip_prefix (lit "*/") s with
  | Some rest => Some ([], rest)
  | None =>
      match s with
      | [] => None
      | c :: t =>
          match find_close t with
          | Some (body, rest) => Some (c :: body, rest)
          | None => None
          end
      end
  end.

(** The match of [block_comment_re] at the start of [s]. *)
Definition block_here (s : str) : option (str * str * str) :=
  match strip_prefix (lit "/*") s with
  | None => None
  | Some t =>
      match find_close t with
      | Some (body, rest) => Some (lit "/*" ++ body ++ lit "*/", [], rest)
      | None => None
      end
  end.

(** The match of [line_comment_re] at the start of [s]. *)
Definition line_here (s : str) : option (str * str * str) :=
  match strip_prefix (lit "//") s with
  | None => None
  | Some t => Some (lit "//" ++ take_while is_dot t, [], drop_while is_dot t)
  end.

(** The match of [non_identifier_re] at the start of [s]. *)
Definition non_identifier_here (s : str) : option (str * str * str) :=
  match s with
  | c :: t =>
      if is_non_identifier c
      then Some (c :: take_while is_non_identifier t, [],
                 drop_while is_non_identifier t)
      else None
  | [] => None
  end.

(** The match of [underscore_at_ends_re] at [s], at the beginning of the
    target sequence or further on: the whole match and the rest. *)
Definition underscore_here (at_begin : bool) (s : str) : option (str * str) :=
  match s with
  | c :: t =>
      if is_char "_"%char c then
        if at_begin
        then Some (c :: take_while (is_char "_"%char) t,
                   drop_while (is_char "_"%char) t)
        else
          match drop_while (is_char "_"%char) t with
          | [] => Some (c :: take_while (is_char "_"%char) t, [])
          | _ :: _ => None
          end
      else None
  | [] => None
  end.

(** [s] without the underscores it ends with. *)
Fixpoint drop_trailing (s : str) : str :=
  match s with
  | [] => []
  | c :: t =>
      if forallb (is_char "_"%char) (c :: t) then [] else c :: drop_trailing t
  end.

(** [s] contains [w]. *)
Definition occurs (w s : str) : Prop := exists a b, s = a ++ w ++ b.

(** Text with no slash and no hash: no comment and no directive starts
    in it. *)
Definition plain (t : str) : Prop := ("/"%char ∉ t) /\ ("#"%char ∉ t).

(** The match of [include_directive_re] at the start of [s]: the whole
    match, group 1, and the rest. *)
Definition include_here (s : str) : option (str * str * str) :=
  match strip_prefix (lit "#include") s with
  | None => None
  | Some t =>
      let ws := take_while is_space t in
      match drop_while is_space t with
      | d :: u =>
          if Ascii.eqb d DQUOTE then
            let body := take_while (is_not_char DQUOTE) u in
            match body, drop_while (is_not_char DQUOTE) u with
            | _ :: _, e :: rest =>
                Some (lit "#include" ++ ws ++ d :: body ++ [e],
                      d :: body ++ [e], rest)
            | _, _ => None
            end
          else if Ascii.eqb d "<"%char then
            let body := take_while (is_not_char ">"%char) u in
            match drop_while (is_not_char ">"%char) u with
            | e :: rest =>
                Some (lit "#include" ++ ws ++ d :: body ++ [e],
                      d :: body ++ [e], rest)
            | [] => None
            end
          else None
      | [] => None
      end
  end.

(** The result of an attempt that matched [whole] and left [rest]. *)
Definition matched (bh : str) (whole g1 rest : str) : match_results :=
  {| m_prefix := []; m_str0 := whole; m_str1 := g1;
     m_end := {| behind := rev whole ++ bh; ahead := rest |} |}.

(** ** The guard name in the words of the specification (4.5) *)

(** Every run of non-alphanumeric characters becomes one underscore;
    [in_run] tells that the character before was part of such a run. *)
Fixpoint collapse_runs (in_run : bool) (s : str) : str :=
  match s with
  | [] => []
  | c :: t =>
      if is_alnum c then c :: collapse_runs false t
      else if in_run then collapse_runs true t
      else "_"%char :: collapse_runs true t
  end.

(** Leading and trailing underscores are trimmed. *)
Definition trim_underscores (s : str) : str :=
  rev (drop_while (is_char "_"%char) (rev (drop_while (is_char "_"%char) s))).

(** The sanitized identity: runs collapsed, truncated to 128 characters,
    underscores trimmed at both ends. *)
Definition sanitized_identity (identity : str) : str :=
  trim_underscores (firstn 128 (collapse_runs false identity)).

(** The guard name: the sanitized identity, then the hash of the whole
    identity. *)
Definition guard_name (hash : str -> N) (identity : str) : str :=
  lit "NAMA_INCLUDE_GUARD_" ++ sanitized_identity identity ++ lit "_"
  ++ to_string (hash identity).

(** ** Small file systems for the examples *)

(** A file system given by the list of its files. *)
Definition files_of (l : list (str * str)) (path : str) : option str :=
  match List.find (fun e => bool_decide (fst e = path)) l with
  | Some e => Some (snd e)
  | None => None
  end.

Definition quoted (p : string) : str := [DQUOTE] ++ lit p ++ [DQUOTE].

Definition hash_zero (_ : str) : N := 0%N.
Definition parent_same (p : str) : str := p.

(** [a.glsl] includes [/b], which includes the missing file [/c]. *)
Definition files_missing : str -> option str :=
  files_of [ (lit "a.glsl", lit "#include <b>");
             (lit "/b", lit "#include <c>") ].

(** [a.glsl] has the once-marker and includes itself. *)
Definition files_self : str -> option str :=
  files_of [ (lit "a.glsl",
              lit "#pragma once" ++ [LF] ++
              lit "#include " ++ quoted "a.glsl" ++ [LF]) ].

(** [a.glsl] includes [b] twice; [b] has the once-marker. *)
Definition files_twice : str -> option str :=
  files_of [ (lit "a.glsl",
              lit "#include " ++ quoted "b" ++ [LF] ++
              lit "#include " ++ quoted "b" ++ [LF]);
             (lit "b", lit "#pragma once" ++ [LF] ++ lit "X") ].

(** [a.glsl] is one line that starts with two slashes; [/b] holds [B]. *)
Definition files_toggle : str -> option str :=
  files_of [ (lit "a.glsl", lit "//* x */ #include <b>");
             (lit "/b", lit "B") ].

Scheme Do_mut := Minimality for Do Sort Prop
  with Scan_mut := Minimality for Scan Sort Prop.
Combined Scheme Do_Scan_ind from Do_mut, Scan_mut.

(** * Properties *)

Arguments strip_pragma_once : simpl never.
Arguments strip_comments : simpl never.
Arguments add_include_guard : simpl never.
Arguments regex_search : simpl never.
Arguments runtime_path_from_include_path : simpl never.
Arguments replace : simpl never.

Ltac conjs :=
  repeat match goal with |- _ /\ _ => refine (conj _ _) end.

(** ** Generic pathnames *)

Lemma generic_string_nil : generic_string [] = [].
Proof. reflexivity. Qed.

Lemma generic_string_other c t :
  c <> "/"%char -> generic_string (c :: t) = c :: generic_string t.
Proof.
  intros Hc. cbn [generic_string].
  now rewrite (proj2 (Ascii.eqb_neq c "/"%char)).
Qed.

Lemma generic_string_slash_slash t :
  generic_string ("/"%char :: "/"%char :: t) = generic_string ("/"%char :: t).
Proof. reflexivity. Qed.

Lemma generic_string_slash_other d t :
  d <> "/"%char ->
  generic_string ("/"%char :: d :: t) = "/"%char :: generic_string (d :: t).
Proof.
  intros Hd. cbn [generic_string]. cbn [Ascii.eqb Bool.eqb].
  now rewrite (proj2 (Ascii.eqb_neq d "/"%char)).
Qed.

Lemma generic_string_slash_end : generic_string ["/"%char] = ["/"%char].
Proof. reflexivity. Qed.

Arguments generic_string : simpl never.

(** The generic form of a generic form is itself, and it begins as the
    pathname does. *)
Lemma generic_string_idem_head p :
  generic_string (generic_string p) = generic_string p
  /\ head (generic_string p) = head p.
Proof.
  induction p as [|c t [IH1 IH2]]; [now split|].
  destruct (Ascii.eqb_spec c "/"%char) as [->|Hc].
  - destruct t as [|d t']; [now split|].
    destruct (Ascii.eqb_spec d "/"%char) as [->|Hd].
    + rewrite generic_string_slash_slash. now split.
    + rewrite generic_string_slash_other by exact Hd. split; [|reflexivity].
      destruct (generic_string (d :: t')) as [|e x] eqn:He; [discriminate IH2|].
      injection IH2 as ->.
      rewrite generic_string_slash_other by exact Hd. now rewrite IH1.
  - rewrite !generic_string_other by exact Hc. split; [|reflexivity].
    now rewrite IH1.
Qed.

Lemma generic_string_idem p :
  generic_string (generic_string p) = generic_string p.
Proof. apply generic_string_idem_head. Qed.

Lemma generic_string_head p : head (generic_string p) = head p.
Proof. apply generic_string_idem_head. Qed.

(** A pathname without two slashes in a row is in generic form. *)
Lemma generic_string_id p :
  ~ (exists a b, p = a ++ "/"%char :: "/"%char :: b) -> generic_string p = p.
Proof.
  induction p as [|c t IH]; intros H; [reflexivity|].
  assert (Ht : generic_string t = t).
  { apply IH. intros (a & b & ->). apply H. now exists (c :: a), b. }
  destruct (Ascii.eqb_spec c "/"%char) as [->|Hc].
  - destruct t as [|d t']; [reflexivity|].
    destruct (Ascii.eqb_spec d "/"%char) as [->|Hd].
    + exfalso. apply H. now exists [], t'.
    + rewrite generic_string_slash_other by exact Hd. now rewrite Ht.
  - rewrite generic_string_other by exact Hc. now rewrite Ht.
Qed.

Lemma generic_string_elem x p : x ∈ generic_string p -> x ∈ p.
Proof.
  induction p as [|c t IH]; [trivial|].
  destruct (Ascii.eqb_spec c "/"%char) as [->|Hc].
  - destruct t as [|d t']; [trivial|].
    destruct (Ascii.eqb_spec d "/"%char) as [->|Hd].
    + rewrite generic_string_slash_slash. intros H. right. now apply IH.
    + rewrite generic_string_slash_other by exact Hd.
      rewrite !(elem_of_cons _ x "/"%char). intros [H|H]; [now left|right; auto].
  - rewrite generic_string_other by exact Hc.
    rewrite !(elem_of_cons _ x c). intros [H|H]; [now left|right; auto].
Qed.

Lemma generic_string_length p : length (generic_string p) <= length p.
Proof.
  induction p as [|c t IH]; [reflexivity|].
  destruct (Ascii.eqb_spec c "/"%char) as [->|Hc].
  - destruct t as [|d t']; [reflexivity|].
    destruct (Ascii.eqb_spec d "/"%char) as [->|Hd].
    + rewrite generic_string_slash_slash. simpl in *. lia.
    + rewrite generic_string_slash_other by exact Hd. simpl in *. lia.
  - rewrite generic_string_other by exact Hc. simpl. lia.
Qed.

(** ** The matcher *)

Arguments Lit_chars : simpl never.
Arguments lit : simpl never.

Lemma take_drop_while p s : take_while p s ++ drop_while p s = s.
Proof.
  induction s as [|c t IH]; simpl; [reflexivity|].
  destruct (p c); simpl; [now rewrite IH | reflexivity].
Qed.

Lemma strip_prefix_Some w s t : strip_prefix w s = Some t -> s = w ++ t.
Proof.
  revert s. induction w as [|c w IH]; intros [|d s]; simpl; try congruence.
  destruct (Ascii.eqb_spec d c) as [->|]; [|discriminate].
  intros H. now rewrite (IH _ H).
Qed.

Lemma strip_prefix_app w t : strip_prefix w (w ++ t) = Some t.
Proof.
  induction w as [|c w IH]; simpl; [reflexivity|].
  now rewrite Ascii.eqb_refl.
Qed.

Lemma between_app bh a w a' :
  between {| behind := bh; ahead := a |}
          {| behind := rev w ++ bh; ahead := a' |} = w.
Proof.
  unfold between. simpl. rewrite length_app, length_rev.
  replace (length w + length bh - length bh) with (length (rev w))
    by (rewrite length_rev; lia).
  rewrite firstn_app, Nat.sub_diag, firstn_all. simpl.
  now rewrite app_nil_r, rev_involutive.
Qed.

Lemma between_eq bh a w by_ a' :
  by_ = rev w ++ bh ->
  between {| behind := bh; ahead := a |} {| behind := by_; ahead := a' |} = w.
Proof. intros ->. apply between_app. Qed.

Lemma exec_Lit_chars w : forall k bh ah g,
  exec (Lit_chars w) k {| behind := bh; ahead := ah |} g =
  match strip_prefix w ah with
  | Some t => k {| behind := rev w ++ bh; ahead := t |} g
  | None => None
  end.
Proof.
  induction w as [|c w IH]; intros k bh ah g.
  - reflexivity.
  - cbn [Lit_chars exec]. destruct ah as [|d t]; simpl; [reflexivity|].
    unfold is_char. destruct (Ascii.eqb_spec d c) as [->|]; [|reflexivity].
    unfold advance. simpl. rewrite IH. now rewrite <- app_assoc.
Qed.

Lemma exec_Lit w k bh ah g :
  exec (Lit w) k {| behind := bh; ahead := ah |} g =
  match strip_prefix (lit w) ah with
  | Some t => k {| behind := rev (lit w) ++ bh; ahead := t |} g
  | None => None
  end.
Proof. apply exec_Lit_chars. Qed.

Lemma star_loop_greedy_Chars p k : forall ah n bh g,
  length ah <= n ->
  star_loop (exec (Chars p)) true k n {| behind := bh; ahead := ah |} g =
  munch p k bh ah g.
Proof.
  induction ah as [|c t IH]; intros n bh g Hn.
  - destruct n; reflexivity.
  - destruct n as [|n]; [simpl in Hn; lia|].
    cbn [star_loop munch exec ahead]. destruct (p c); [|reflexivity].
    unfold advance. cbn [ahead behind length].
    rewrite (proj2 (Nat.ltb_lt _ _)) by lia.
    rewrite IH by (simpl in Hn; lia). reflexivity.
Qed.

Lemma exec_Star_greedy_Chars p k bh ah g :
  exec (Star true (Chars p)) k {| behind := bh; ahead := ah |} g =
  munch p k bh ah g.
Proof. cbn [exec ahead]. now apply star_loop_greedy_Chars. Qed.

Lemma star_loop_lazy_Chars p k : forall ah n bh g,
  length ah <= n ->
  star_loop (exec (Chars p)) false k n {| behind := bh; ahead := ah |} g =
  creep p k bh ah g.
Proof.
  induction ah as [|c t IH]; intros n bh g Hn.
  - destruct n; cbn [star_loop creep exec ahead];
      now destruct (k _ _).
  - destruct n as [|n]; [simpl in Hn; lia|].
    cbn [star_loop creep exec ahead]. destruct (k _ _); [reflexivity|].
    destruct (p c); [|reflexivity].
    unfold advance. cbn [ahead behind length].
    rewrite (proj2 (Nat.ltb_lt _ _)) by lia.
    rewrite IH by (simpl in Hn; lia). reflexivity.
Qed.

Lemma exec_Star_lazy_Chars p k bh ah g :
  exec (Star false (Chars p)) k {| behind := bh; ahead := ah |} g =
  creep p k bh ah g.
Proof. cbn [exec ahead]. now apply star_loop_lazy_Chars. Qed.

(** When what follows a greedy star rejects every character of the class,
    the star takes all it can. *)
Lemma munch_reject p k : forall ah bh g,
  (forall bh' c t g', p c = true ->
      k {| behind := bh'; ahead := c :: t |} g' = None) ->
  munch p k bh ah g =
  k {| behind := rev (take_while p ah) ++ bh; ahead := drop_while p ah |} g.
Proof.
  induction ah as [|c t IH]; intros bh g Hk; simpl; [reflexivity|].
  destruct (p c) eqn:Hc; simpl; [|reflexivity].
  rewrite IH by exact Hk. rewrite <- app_assoc. simpl.
  destruct (k _ _) eqn:Hres; [reflexivity|].
  now apply Hk.
Qed.

Lemma drop_while_head p s e rest : drop_while p s = e :: rest -> p e = false.
Proof.
  induction s as [|c t IH]; simpl; [discriminate|].
  destruct (p c) eqn:Hc; [exact IH|]. now intros [= <- _].
Qed.

Lemma space_not_delimiter c :
  is_space c = true ->
  Ascii.eqb c DQUOTE = false /\ Ascii.eqb c "<"%char = false
  /\ Ascii.eqb c "#"%char = false /\ Ascii.eqb c "/"%char = false
  /\ is_word c = false.
Proof.
  destruct c as [[] [] [] [] [] [] [] []]; vm_compute; intros H;
    try discriminate H; repeat split.
Qed.

(** The position reached after [whole], and the results handed back. *)
Lemma match_results_eq bh ah bx ax by_ whole g1 rest :
  by_ = rev whole ++ bh ->
  by_ = rev g1 ++ bx ->
  Some {| m_prefix := [];
          m_str0 := between {| behind := bh; ahead := ah |}
                            {| behind := by_; ahead := rest |};
          m_str1 := between {| behind := bx; ahead := ax |}
                            {| behind := by_; ahead := rest |};
          m_end := {| behind := by_; ahead := rest |} |}
  = Some (matched bh whole g1 rest).
Proof.
  intros H1 H2. unfold matched. f_equal. f_equal.
  - rewrite H1. apply between_app.
  - rewrite H2. apply between_app.
  - now rewrite H1.
Qed.

(* Equations between texts, up to the computation of the literals. *)
Ltac str_eq :=
  unfold lit; cbn [list_ascii_of_string app];
  repeat (rewrite <- ?app_assoc; cbn [app]); try reflexivity.

Ltac list_norm :=
  repeat (rewrite ?rev_app_distr, <- ?app_assoc; cbn [rev app]).

Lemma exec_Seq a b k x g : exec (Seq a b) k x g = exec a (exec b k) x g.
Proof. reflexivity. Qed.

Lemma exec_Alt a b k x g :
  exec (Alt a b) k x g =
  match exec a k x g with Some m => Some m | None => exec b k x g end.
Proof. reflexivity. Qed.

Lemma exec_Plus gr a k x g :
  exec (Plus gr a) k x g = exec a (exec (Star gr a) k) x g.
Proof. reflexivity. Qed.

Lemma exec_Group a k x g :
  exec (Group a) k x g = exec a (fun y _ => k y (Some (between x y))) x g.
Proof. reflexivity. Qed.

Lemma exec_Chars_cons p k bh c t g :
  exec (Chars p) k {| behind := bh; ahead := c :: t |} g =
  if p c then k {| behind := c :: bh; ahead := t |} g else None.
Proof. reflexivity. Qed.

Lemma exec_Chars_nil p k bh g :
  exec (Chars p) k {| behind := bh; ahead := [] |} g = None.
Proof. reflexivity. Qed.

Lemma exec_AssertBegin k bh ah g :
  exec AssertBegin k {| behind := bh; ahead := ah |} g =
  match bh with [] => k {| behind := bh; ahead := ah |} g | _ :: _ => None end.
Proof. reflexivity. Qed.

Lemma exec_AssertEnd k bh ah g :
  exec AssertEnd k {| behind := bh; ahead := ah |} g =
  match ah with [] => k {| behind := bh; ahead := ah |} g | _ :: _ => None end.
Proof. reflexivity. Qed.

Lemma exec_WordBoundary k x g :
  exec WordBoundary k x g = if at_word_boundary x then k x g else None.
Proof. reflexivity. Qed.

Arguments exec : simpl never.

Lemma match_here_include bh ah :
  match_here include_directive_re {| behind := bh; ahead := ah |} =
  match include_here ah with
  | Some (whole, g1, rest) => Some (matched bh whole g1 rest)
  | None => None
  end.
Proof.
  unfold match_here, include_directive_re, include_here.
  rewrite exec_Seq, exec_Lit.
  destruct (strip_prefix (lit "#include") ah) as [t|]; [|reflexivity].
  rewrite exec_Seq, exec_Star_greedy_Chars, munch_reject.
  2:{ intros bh' c t' g' Hc. apply space_not_delimiter in Hc as (H1 & H2 & _).
      rewrite exec_Group, exec_Alt, !exec_Seq, !exec_Chars_cons.
      unfold is_char. now rewrite H1, H2. }
  cbv zeta.
  destruct (drop_while is_space t) as [|d u].
  { now rewrite exec_Group, exec_Alt, !exec_Seq, !exec_Chars_nil. }
  rewrite exec_Group, exec_Alt, !exec_Seq, !exec_Chars_cons. unfold is_char at 1 3.
  destruct (Ascii.eqb_spec d DQUOTE) as [->|Hd].
  - (* a quoted payload *)
    change (Ascii.eqb DQUOTE "<"%char) with false. cbv iota.
    rewrite exec_Seq, exec_Plus.
    destruct u as [|c1 u']; [now rewrite exec_Chars_nil|].
    rewrite exec_Chars_cons. cbn [take_while drop_while].
    destruct (is_not_char DQUOTE c1) eqn:Hc1; [|reflexivity].
    rewrite exec_Star_greedy_Chars, munch_reject.
    2:{ intros bh' c t' g' Hc. rewrite exec_Chars_cons. unfold is_not_char in Hc.
        unfold is_char. now destruct (Ascii.eqb c DQUOTE). }
    destruct (drop_while (is_not_char DQUOTE) u') as [|e rest] eqn:Hdrop;
      [now rewrite exec_Chars_nil|].
    rewrite exec_Chars_cons.
    apply drop_while_head in Hdrop. unfold is_not_char in Hdrop.
    unfold is_char. destruct (Ascii.eqb e DQUOTE); [|discriminate].
    apply match_results_eq; now list_norm.
  - (* an angle payload *)
    destruct (Ascii.eqb_spec d "<"%char) as [->|Hd']; [|reflexivity].
    rewrite exec_Seq, exec_Star_greedy_Chars, munch_reject.
    2:{ intros bh' c t' g' Hc. rewrite exec_Chars_cons. unfold is_not_char in Hc.
        unfold is_char. now destruct (Ascii.eqb c ">"%char). }
    destruct (drop_while (is_not_char ">"%char) u) as [|e rest] eqn:Hdrop;
      [now rewrite exec_Chars_nil|].
    rewrite exec_Chars_cons.
    apply drop_while_head in Hdrop. unfold is_not_char in Hdrop.
    unfold is_char. destruct (Ascii.eqb e ">"%char); [|discriminate].
    apply match_results_eq; now list_norm.
Qed.

(** *** Patterns that do not look behind *)

Section Direct.

Variable re : regex.
Variable here : str -> option (str * str * str).

Hypothesis here_ok : forall bh ah,
  match_here re {| behind := bh; ahead := ah |} =
  match here ah with
  | Some (whole, g1, rest) => Some (matched bh whole g1 rest)
  | None => None
  end.

Lemma search_at_direct : forall ah bh,
  search_at re bh ah =
  match dsearch here ah with
  | Some (pre, whole, g1, rest) =>
      Some {| m_prefix := pre; m_str0 := whole; m_str1 := g1;
              m_end := {| behind := rev (pre ++ whole) ++ bh; ahead := rest |} |}
  | None => None
  end.
Proof.
  induction ah as [|c t IH]; intros bh; simpl; rewrite here_ok.
  - destruct (here []) as [[[whole g1] rest]|]; reflexivity.
  - destruct (here (c :: t)) as [[[whole g1] rest]|]; [reflexivity|].
    rewrite IH. destruct (dsearch here t) as [[[[pre whole] g1] rest]|];
      [|reflexivity].
    simpl. unfold shift_prefix. simpl. now rewrite <- app_assoc.
Qed.

Lemma replace_at_direct fmt : forall n bh ah,
  replace_at n re fmt bh ah = dreplace here n fmt ah.
Proof.
  induction n as [|n IH]; intros bh ah; simpl; [reflexivity|].
  rewrite search_at_direct.
  destruct (dsearch here ah) as [[[[pre whole] g1] rest]|]; [|reflexivity].
  simpl. destruct whole as [|c w].
  - destruct rest as [|c t]; [reflexivity|]. now rewrite IH.
  - now rewrite IH.
Qed.

Lemma regex_search_direct s :
  regex_search re s =
  match dsearch here s with
  | Some (pre, whole, g1, rest) =>
      Some {| m_prefix := pre; m_str0 := whole; m_str1 := g1;
              m_end := {| behind := rev (pre ++ whole) ++ []; ahead := rest |} |}
  | None => None
  end.
Proof. apply search_at_direct. Qed.

Lemma regex_replace_direct s fmt :
  regex_replace s re fmt = dreplace here (S (length s)) fmt s.
Proof. apply replace_at_direct. Qed.

End Direct.

Lemma dsearch_here here s pre whole g1 rest :
  dsearch here s = Some (pre, whole, g1, rest) ->
  exists t, s = pre ++ t /\ here t = Some (whole, g1, rest).
Proof.
  revert pre. induction s as [|c t IH]; intros pre; simpl.
  - destruct (here []) as [[[w g] r]|] eqn:Hh; [|discriminate].
    intros [= <- <- <- <-]. now exists [].
  - destruct (here (c :: t)) as [[[w g] r]|] eqn:Hh.
    + intros [= <- <- <- <-]. now exists (c :: t).
    + destruct (dsearch here t) as [[[[pre' w] g] r]|]; [|discriminate].
      intros [= <- <- <- <-]. destruct (IH pre' eq_refl) as (t' & -> & Ht').
      now exists t'.
Qed.

(** *** Replacing every match *)

Section Replace.

Variable here : str -> option (str * str * str).

(** A match is a non-empty prefix of the text. *)
Hypothesis here_prefix : forall s whole g1 rest,
  here s = Some (whole, g1, rest) -> s = whole ++ rest /\ whole <> [].

Lemma dsearch_length s pre whole g1 rest :
  dsearch here s = Some (pre, whole, g1, rest) ->
  s = pre ++ whole ++ rest /\ whole <> [].
Proof.
  intros H. apply dsearch_here in H as (t & -> & Ht).
  apply here_prefix in Ht as [-> Hne]. now split.
Qed.

Lemma dreplace_fuel fmt : forall n m s,
  length s < n -> length s < m ->
  dreplace here n fmt s = dreplace here m fmt s.
Proof.
  induction n as [|n IH]; intros m s Hn Hm; [lia|].
  destruct m as [|m]; [lia|]. simpl.
  destruct (dsearch here s) as [[[[pre whole] g1] rest]|] eqn:Hd; [|reflexivity].
  apply dsearch_length in Hd as [-> Hne].
  destruct whole as [|c whole]; [contradiction|].
  rewrite !length_app in Hn, Hm. simpl in Hn, Hm.
  now rewrite (IH m rest) by lia.
Qed.

Lemma dreplace_S n fmt s :
  dreplace here (S n) fmt s =
  match dsearch here s with
  | None => s
  | Some (pre, whole, _, rest) =>
      pre ++ fmt ++
      match whole with
      | _ :: _ => dreplace here n fmt rest
      | [] =>
          match rest with
          | c :: t => c :: dreplace here n fmt t
          | [] => []
          end
      end
  end.
Proof. reflexivity. Qed.

Lemma dreplace_here fmt s whole g1 rest :
  here s = Some (whole, g1, rest) ->
  dreplace here (S (length s)) fmt s
  = fmt ++ dreplace here (S (length rest)) fmt rest.
Proof.
  intros Hh. rewrite (dreplace_S (length s)).
  assert (Hd : dsearch here s = Some ([], whole, g1, rest)).
  { destruct s; simpl; now rewrite Hh. }
  rewrite Hd. apply here_prefix in Hh as [-> Hne].
  destruct whole as [|c whole]; [contradiction|]. cbn [app]. f_equal.
  apply dreplace_fuel; simpl; rewrite ?length_app; simpl; lia.
Qed.

Lemma dreplace_skip fmt c t :
  here (c :: t) = None ->
  dreplace here (S (length (c :: t))) fmt (c :: t)
  = c :: dreplace here (S (length t)) fmt t.
Proof.
  intros Hh. rewrite (dreplace_S (length (c :: t))), (dreplace_S (length t)).
  cbn [dsearch]. rewrite Hh.
  destruct (dsearch here t) as [[[[pre whole] g1] rest]|] eqn:Hd; [|reflexivity].
  apply dsearch_length in Hd as [-> Hne].
  destruct whole as [|d whole]; [contradiction|]. cbn [app]. do 3 f_equal.
  apply dreplace_fuel; simpl; rewrite ?length_app; simpl;
    rewrite ?length_app; lia.
Qed.

Lemma dreplace_nil fmt : here [] = None -> dreplace here 1 fmt [] = [].
Proof. intros Hh. simpl. now rewrite Hh. Qed.

(** No match starts in a text without the character every match starts
    with. *)
Lemma dreplace_without fmt (ch : ascii) :
  (forall s whole g1 rest, here s = Some (whole, g1, rest) -> head s = Some ch) ->
  forall p u,
    ch ∉ p ->
    dreplace here (S (length (p ++ u))) fmt (p ++ u)
    = p ++ dreplace here (S (length u)) fmt u.
Proof.
  intros Hstart p u. induction p as [|c p IH]; intros Hp; [reflexivity|].
  apply not_elem_of_cons in Hp as [Hc Hp]. cbn [app].
  rewrite dreplace_skip.
  - now rewrite IH.
  - destruct (here (c :: p ++ u)) as [[[w g] r]|] eqn:Hh; [|reflexivity].
    apply Hstart in Hh. simpl in Hh. congruence.
Qed.

Lemma dsearch_without (ch : ascii) :
  (forall s whole g1 rest, here s = Some (whole, g1, rest) -> head s = Some ch) ->
  forall p, ch ∉ p -> dsearch here p = None.
Proof.
  intros Hstart p. induction p as [|c p IH]; intros Hp; simpl.
  - destruct (here []) as [[[w g] r]|] eqn:Hh; [|reflexivity].
    apply Hstart in Hh. discriminate.
  - apply not_elem_of_cons in Hp as [Hc Hp].
    destruct (here (c :: p)) as [[[w g] r]|] eqn:Hh.
    + apply Hstart in Hh. simpl in Hh. congruence.
    + now rewrite IH.
Qed.

(** Text appended after [c] in which no match can start or end is left
    alone. *)
Lemma dreplace_app_inert fmt u :
  (forall t w g r, here t = Some (w, g, r) -> here (t ++ u) = Some (w, g, r ++ u)) ->
  (forall t, here t = None -> here (t ++ u) = None) ->
  dreplace here (S (length u)) fmt u = u ->
  forall n c, length c <= n ->
    dreplace here (S (length (c ++ u))) fmt (c ++ u)
    = dreplace here (S (length c)) fmt c ++ u.
Proof.
  intros Hext Hnone Hu. induction n as [|n IH]; intros c Hn.
  - destruct c; [|simpl in Hn; lia]. cbn [app length].
    assert (H0 : here [] = None).
    { destruct (here []) as [[[w g] r]|] eqn:Hh; [|reflexivity].
      apply here_prefix in Hh as [Hs Hne]. symmetry in Hs.
      apply app_eq_nil in Hs as [-> _]. contradiction. }
    now rewrite (dreplace_nil _ H0), Hu.
  - destruct c as [|d c].
    { apply IH. simpl. lia. }
    destruct (here (d :: c)) as [[[w g] r]|] eqn:Hh.
    + rewrite (dreplace_here fmt _ _ _ _ (Hext _ _ _ _ Hh)).
      rewrite (dreplace_here fmt _ _ _ _ Hh).
      apply here_prefix in Hh as [Hs Hne].
      rewrite IH; [now rewrite app_assoc|].
      apply (f_equal (@length ascii)) in Hs. rewrite length_app in Hs.
      destruct w; [contradiction|]. simpl in Hs, Hn. lia.
    + change ((d :: c) ++ u) with (d :: c ++ u).
      rewrite dreplace_skip by (apply (Hnone (d :: c)), Hh).
      rewrite dreplace_skip by exact Hh.
      rewrite IH by (simpl in Hn; lia). reflexivity.
Qed.

(** Replacing matches by nothing leaves characters of the text. *)
Lemma dreplace_elem x : forall n s,
  x ∈ dreplace here n [] s -> x ∈ s.
Proof.
  induction n as [|n IH]; intros s; [trivial|]. rewrite dreplace_S.
  destruct (dsearch here s) as [[[[pre whole] g1] rest]|] eqn:Hd; [|trivial].
  apply dsearch_length in Hd as [-> Hne].
  destruct whole as [|c whole]; [contradiction|]. cbn [app].
  rewrite !elem_of_app. intros [H|H]; [now left|].
  apply IH in H. right. apply elem_of_cons. right. apply elem_of_app. now right.
Qed.

End Replace.

(** *** The comment patterns *)

Lemma munch_final p : forall ah bh g,
  munch p (fun y g' => Some (y, g')) bh ah g =
  Some ({| behind := rev (take_while p ah) ++ bh; ahead := drop_while p ah |}, g).
Proof.
  induction ah as [|c t IH]; intros bh g; simpl; [reflexivity|].
  destruct (p c); simpl; [|reflexivity].
  rewrite IH. now rewrite <- app_assoc.
Qed.

Lemma creep_close : forall t bh g,
  creep is_any (exec (Lit "*/") (fun y g' => Some (y, g'))) bh t g =
  match find_close t with
  | Some (body, rest) =>
      Some ({| behind := rev (lit "*/") ++ rev body ++ bh; ahead := rest |}, g)
  | None => None
  end.
Proof.
  induction t as [|c t IH]; intros bh g.
  - reflexivity.
  - cbn [creep find_close]. rewrite exec_Lit.
    destruct (strip_prefix (lit "*/") (c :: t)) as [rest|]; [reflexivity|].
    cbn [is_any]. rewrite IH.
    destruct (find_close t) as [[body rest]|]; [|reflexivity].
    now list_norm.
Qed.

Lemma match_here_block bh ah :
  match_here block_comment_re {| behind := bh; ahead := ah |} =
  match block_here ah with
  | Some (whole, g1, rest) => Some (matched bh whole g1 rest)
  | None => None
  end.
Proof.
  unfold match_here, block_comment_re, block_here.
  rewrite exec_Seq, exec_Lit.
  destruct (strip_prefix (lit "/*") ah) as [t|]; [|reflexivity].
  rewrite exec_Seq, exec_Star_lazy_Chars, creep_close.
  destruct (find_close t) as [[body rest]|]; [|reflexivity].
  unfold matched. do 2 f_equal.
  - apply between_eq. now list_norm.
  - now list_norm.
Qed.

Lemma match_here_line bh ah :
  match_here line_comment_re {| behind := bh; ahead := ah |} =
  match line_here ah with
  | Some (whole, g1, rest) => Some (matched bh whole g1 rest)
  | None => None
  end.
Proof.
  unfold match_here, line_comment_re, line_here.
  rewrite exec_Seq, exec_Lit.
  destruct (strip_prefix (lit "//") ah) as [t|]; [|reflexivity].
  rewrite exec_Star_greedy_Chars, munch_final.
  unfold matched. do 2 f_equal.
  - apply between_eq. now list_norm.
  - now list_norm.
Qed.

Lemma match_here_non_identifier bh ah :
  match_here non_identifier_re {| behind := bh; ahead := ah |} =
  match non_identifier_here ah with
  | Some (whole, g1, rest) => Some (matched bh whole g1 rest)
  | None => None
  end.
Proof.
  unfold match_here, non_identifier_re, non_identifier_here.
  rewrite exec_Plus. destruct ah as [|c t]; [now rewrite exec_Chars_nil|].
  rewrite exec_Chars_cons. destruct (is_non_identifier c); [|reflexivity].
  rewrite exec_Star_greedy_Chars, munch_final.
  unfold matched. do 2 f_equal.
  - apply between_eq. now list_norm.
  - now list_norm.
Qed.

Lemma find_close_Some t body rest :
  find_close t = Some (body, rest) -> t = body ++ lit "*/" ++ rest.
Proof.
  revert body. induction t as [|c t IH]; intros body; cbn [find_close].
  - destruct (strip_prefix _ []) as [r|] eqn:Hp; [|discriminate].
    apply strip_prefix_Some in Hp. intros [= <- <-]. exact Hp.
  - destruct (strip_prefix _ (c :: t)) as [r|] eqn:Hp.
    + apply strip_prefix_Some in Hp. intros [= <- <-]. exact Hp.
    + destruct (find_close t) as [[b r]|]; [|discriminate].
      intros [= <- <-]. now rewrite (IH b eq_refl).
Qed.

Lemma block_here_prefix s whole g1 rest :
  block_here s = Some (whole, g1, rest) -> s = whole ++ rest /\ whole <> [].
Proof.
  unfold block_here.
  destruct (strip_prefix _ s) as [t|] eqn:Hp; [|discriminate].
  destruct (find_close t) as [[body r]|] eqn:Hc; [|discriminate].
  intros [= <- <- <-]. apply strip_prefix_Some in Hp.
  apply find_close_Some in Hc. subst. split; [|discriminate].
  str_eq.
Qed.

Lemma line_here_prefix s whole g1 rest :
  line_here s = Some (whole, g1, rest) -> s = whole ++ rest /\ whole <> [].
Proof.
  unfold line_here.
  destruct (strip_prefix _ s) as [t|] eqn:Hp; [|discriminate].
  intros [= <- <- <-]. apply strip_prefix_Some in Hp. subst.
  split; [|discriminate].
  rewrite <- (take_drop_while is_dot t) at 1. str_eq.
Qed.

Lemma non_identifier_here_prefix s whole g1 rest :
  non_identifier_here s = Some (whole, g1, rest) ->
  s = whole ++ rest /\ whole <> [].
Proof.
  destruct s as [|c t]; simpl; [discriminate|].
  destruct (is_non_identifier c); [|discriminate].
  intros [= <- <- <-]. split; [|discriminate].
  simpl. now rewrite take_drop_while.
Qed.

Lemma strip_prefix_head w s t c :
  strip_prefix (c :: w) s = Some t -> head s = Some c.
Proof.
  destruct s as [|d s]; simpl; [discriminate|].
  destruct (Ascii.eqb_spec d c) as [->|]; [reflexivity|discriminate].
Qed.

Lemma block_here_start s whole g1 rest :
  block_here s = Some (whole, g1, rest) -> head s = Some "/"%char.
Proof.
  unfold block_here.
  destruct (strip_prefix _ s) as [t|] eqn:Hp; [|discriminate].
  intros _. now apply strip_prefix_head in Hp.
Qed.

Lemma line_here_start s whole g1 rest :
  line_here s = Some (whole, g1, rest) -> head s = Some "/"%char.
Proof.
  unfold line_here.
  destruct (strip_prefix _ s) as [t|] eqn:Hp; [|discriminate].
  intros _. now apply strip_prefix_head in Hp.
Qed.

Lemma strip_block_comments_direct s :
  strip_block_comments s = dreplace block_here (S (length s)) [] s.
Proof. apply regex_replace_direct, match_here_block. Qed.

Lemma strip_line_comments_direct s :
  strip_line_comments s = dreplace line_here (S (length s)) [] s.
Proof. apply regex_replace_direct, match_here_line. Qed.

(** *** Comments hide what is in them *)

Lemma occurs_cons w c t : occurs w t -> occurs w (c :: t).
Proof. intros (a & b & ->). now exists (c :: a), b. Qed.

Lemma find_close_elem t body rest :
  find_close t = Some (body, rest) -> "/"%char ∈ t.
Proof.
  intros H. apply find_close_Some in H as ->.
  apply elem_of_app. right. apply list_elem_of_further, list_elem_of_here.
Qed.

Lemma find_close_none t : ~ occurs (lit "*/") t -> find_close t = None.
Proof.
  intros Hno. destruct (find_close t) as [[body rest]|] eqn:Hc; [|reflexivity].
  exfalso. apply Hno. apply find_close_Some in Hc. now exists body, rest.
Qed.

(** The first [*/] after the text [c] that has none. *)
Lemma find_close_first c s :
  ~ occurs (lit "*/") c -> find_close (c ++ lit "*/" ++ s) = Some (c, s).
Proof.
  induction c as [|d c IH]; intros Hno.
  - reflexivity.
  - cbn [app find_close].
    assert (Hp : strip_prefix (lit "*/") (d :: c ++ lit "*/" ++ s) = None).
    { simpl. destruct (Ascii.eqb_spec d "*"%char) as [->|]; [|reflexivity].
      destruct c as [|e c]; [reflexivity|]. simpl.
      destruct (Ascii.eqb_spec e "/"%char) as [->|]; [|reflexivity].
      exfalso. apply Hno. now exists [], c. }
    rewrite Hp, IH; [reflexivity|].
    intros Hc. apply Hno. now apply occurs_cons.
Qed.

Lemma find_close_app t u body rest :
  find_close t = Some (body, rest) ->
  find_close (t ++ u) = Some (body, rest ++ u).
Proof.
  revert body. induction t as [|c t IH]; intros body; cbn [find_close app].
  - simpl. discriminate.
  - destruct (strip_prefix _ (c :: t)) as [r|] eqn:Hp.
    + intros [= <- <-]. apply strip_prefix_Some in Hp.
      change (c :: t ++ u) with ((c :: t) ++ u). rewrite Hp.
      change (strip_prefix (lit "*/") ((lit "*/" ++ r) ++ u))
        with (strip_prefix (lit "*/") (lit "*/" ++ r ++ u)).
      now rewrite strip_prefix_app.
    + destruct (find_close t) as [[b r]|] eqn:Hc; [|discriminate].
      intros [= <- <-]. rewrite (IH b eq_refl).
      assert (Hp' : strip_prefix (lit "*/") (c :: t ++ u) = None).
      { simpl in *. destruct (Ascii.eqb c "*"%char); [|reflexivity].
        destruct t as [|e t]; [simpl in Hc; discriminate|]. simpl.
        destruct (Ascii.eqb e "/"%char); [discriminate Hp|reflexivity]. }
      now rewrite Hp'.
Qed.

Lemma find_close_app_none t u :
  find_close t = None -> "/"%char ∉ u -> find_close (t ++ u) = None.
Proof.
  intros Ht Hu. induction t as [|c t IH]; cbn [app].
  - destruct (find_close u) as [[b r]|] eqn:Hc; [|reflexivity].
    apply find_close_elem in Hc. contradiction.
  - cbn [find_close] in *.
    destruct (strip_prefix _ (c :: t)) as [r|] eqn:Hp; [discriminate|].
    destruct (find_close t) as [[b r]|] eqn:Hc; [discriminate|].
    rewrite IH by reflexivity.
    assert (Hp' : strip_prefix (lit "*/") (c :: t ++ u) = None).
    { simpl in *. destruct (Ascii.eqb c "*"%char); [|reflexivity].
      destruct t as [|e t]; simpl.
      - destruct u as [|e u]; [reflexivity|].
        destruct (Ascii.eqb_spec e "/"%char) as [->|]; [|reflexivity].
        exfalso. apply Hu, list_elem_of_here.
      - destruct (Ascii.eqb e "/"%char); [discriminate Hp|reflexivity]. }
    now rewrite Hp'.
Qed.

Lemma block_here_app t u w g r :
  block_here t = Some (w, g, r) -> block_here (t ++ u) = Some (w, g, r ++ u).
Proof.
  unfold block_here.
  destruct (strip_prefix _ t) as [t1|] eqn:Hp; [|discriminate].
  destruct (find_close t1) as [[b r1]|] eqn:Hc; [|discriminate].
  intros [= <- <- <-]. apply strip_prefix_Some in Hp. subst t.
  rewrite <- app_assoc, strip_prefix_app.
  now rewrite (find_close_app _ _ _ _ Hc).
Qed.

(** No block comment reaches into text that starts with a line feed and
    has no slash. *)
Lemma block_here_app_none t u :
  block_here t = None -> "/"%char ∉ u ->
  block_here (t ++ LF :: u) = None.
Proof.
  intros Ht Hu. unfold block_here in *.
  assert (Hu' : "/"%char ∉ LF :: u).
  { apply not_elem_of_cons. split; [discriminate|exact Hu]. }
  destruct t as [|c t].
  { reflexivity. }
  destruct (Ascii.eqb_spec c "/"%char) as [->|Hc].
  2:{ simpl. now rewrite (proj2 (Ascii.eqb_neq _ _) Hc). }
  destruct t as [|d t].
  { reflexivity. }
  destruct (Ascii.eqb_spec d "*"%char) as [->|Hd].
  2:{ simpl. now rewrite (proj2 (Ascii.eqb_neq _ _) Hd). }
  change (strip_prefix (lit "/*") ("/"%char :: "*"%char :: t)) with (Some t) in Ht.
  change (strip_prefix (lit "/*") (("/"%char :: "*"%char :: t) ++ LF :: u))
    with (Some (t ++ LF :: u)).
  cbv iota beta in Ht |- *.
  destruct (find_close t) as [[b r]|] eqn:Hcl; [discriminate Ht|].
  now rewrite find_close_app_none.
Qed.

Lemma strip_block_comments_without_slash t :
  "/"%char ∉ t -> strip_block_comments t = t.
Proof.
  intros Ht. rewrite strip_block_comments_direct.
  rewrite <- (app_nil_r t) at 1 2.
  rewrite (dreplace_without _ block_here_prefix [] _ block_here_start) by exact Ht.
  now rewrite app_nil_r.
Qed.

Lemma strip_line_comments_without_slash t :
  "/"%char ∉ t -> strip_line_comments t = t.
Proof.
  intros Ht. rewrite strip_line_comments_direct.
  rewrite <- (app_nil_r t) at 1 2.
  rewrite (dreplace_without _ line_here_prefix [] _ line_here_start) by exact Ht.
  now rewrite app_nil_r.
Qed.

(** A block comment between two texts without a slash. *)
Lemma strip_comments_block p c s :
  "/"%char ∉ p -> "/"%char ∉ s -> ~ occurs (lit "*/") c ->
  strip_comments (p ++ lit "/*" ++ c ++ lit "*/" ++ s) = p ++ s.
Proof.
  intros Hp Hs Hc. unfold strip_comments.
  assert (Hb : strip_block_comments (p ++ lit "/*" ++ c ++ lit "*/" ++ s) = p ++ s).
  { rewrite strip_block_comments_direct.
    rewrite (dreplace_without _ block_here_prefix [] _ block_here_start) by exact Hp.
    f_equal.
    rewrite (dreplace_here _ block_here_prefix [] _
               (lit "/*" ++ c ++ lit "*/") [] s).
    - rewrite <- strip_block_comments_direct.
      now apply strip_block_comments_without_slash.
    - unfold block_here. rewrite strip_prefix_app.
      now rewrite find_close_first. }
  rewrite Hb. apply strip_line_comments_without_slash.
  intros H. apply elem_of_app in H as [H|H]; contradiction.
Qed.

Lemma take_while_dots c u :
  LF ∉ c -> CR ∉ c ->
  take_while is_dot (c ++ LF :: u) = c /\ drop_while is_dot (c ++ LF :: u) = LF :: u.
Proof.
  induction c as [|d c IH]; intros H1 H2; [now split|].
  apply not_elem_of_cons in H1 as [Hd1 H1]. apply not_elem_of_cons in H2 as [Hd2 H2].
  destruct (IH H1 H2) as [IHt IHd]. cbn [app take_while drop_while].
  assert (Hd : is_dot d = true).
  { unfold is_dot.
    rewrite (proj2 (Ascii.eqb_neq d LF)) by congruence.
    now rewrite (proj2 (Ascii.eqb_neq d CR)) by congruence. }
  rewrite Hd, IHt, IHd. now split.
Qed.

(** A line comment between two texts without a slash, when its second
    slash does not start a block comment. *)
Lemma strip_comments_line p c s :
  "/"%char ∉ p -> "/"%char ∉ s -> LF ∉ c -> CR ∉ c ->
  head c <> Some "*"%char \/ ~ occurs (lit "*/") (tail c) ->
  strip_comments (p ++ lit "//" ++ c ++ [LF] ++ s) = p ++ [LF] ++ s.
Proof.
  intros Hp Hs Hlf Hcr Hstar. unfold strip_comments.
  assert (Hls : "/"%char ∉ LF :: s).
  { apply not_elem_of_cons. split; [discriminate|exact Hs]. }
  assert (Hb : strip_block_comments (p ++ lit "//" ++ c ++ [LF] ++ s)
               = p ++ lit "//" ++ strip_block_comments c ++ [LF] ++ s).
  { rewrite !strip_block_comments_direct.
    rewrite (dreplace_without _ block_here_prefix [] _ block_here_start) by exact Hp.
    f_equal.
    change (lit "//" ++ c ++ [LF] ++ s) with ("/"%char :: "/"%char :: c ++ LF :: s).
    rewrite (dreplace_skip _ block_here_prefix) by reflexivity.
    rewrite (dreplace_skip _ block_here_prefix).
    - change (lit "//" ++ ?x) with ("/"%char :: "/"%char :: x). do 2 f_equal.
      apply (dreplace_app_inert _ block_here_prefix [] (LF :: s))
        with (n := length c); [| | |lia].
      + intros t w g r. apply block_here_app.
      + intros t Ht. now apply block_here_app_none.
      + rewrite <- strip_block_comments_direct.
        now apply strip_block_comments_without_slash.
    - unfold block_here. destruct c as [|d c]; [reflexivity|].
      destruct (Ascii.eqb_spec d "*"%char) as [->|Hd].
      + change (strip_prefix (lit "/*") ("/"%char :: ("*"%char :: c) ++ LF :: s))
          with (Some (c ++ LF :: s)).
        destruct Hstar as [Hstar|Hstar]; [now contradiction Hstar|].
        rewrite find_close_app_none; [reflexivity| |exact Hls].
        now apply find_close_none.
      + simpl. now rewrite (proj2 (Ascii.eqb_neq _ _) Hd). }
  rewrite Hb, strip_line_comments_direct.
  rewrite (dreplace_without _ line_here_prefix [] _ line_here_start) by exact Hp.
  f_equal.
  assert (Hc' : (LF ∉ strip_block_comments c) /\ (CR ∉ strip_block_comments c)).
  { rewrite strip_block_comments_direct.
    split; intros H; apply (dreplace_elem _ block_here_prefix) in H; contradiction. }
  destruct Hc' as [Hlf' Hcr'].
  destruct (take_while_dots (strip_block_comments c) s Hlf' Hcr') as [Ht Hd].
  rewrite (dreplace_here _ line_here_prefix [] _
             (lit "//" ++ strip_block_comments c) [] (LF :: s)).
  - rewrite <- strip_line_comments_direct.
    now apply strip_line_comments_without_slash.
  - unfold line_here. rewrite strip_prefix_app.
    change ([LF] ++ s) with (LF :: s). now rewrite Ht, Hd.
Qed.

(** *** The include directive *)

Lemma include_here_payload s whole g1 rest :
  include_here s = Some (whole, g1, rest) ->
  2 <= length g1
  /\ (head g1 = Some DQUOTE -> 3 <= length g1)
  /\ (head g1 = Some DQUOTE \/ head g1 = Some "<"%char).
Proof.
  unfold include_here.
  destruct (strip_prefix _ s) as [t|]; [|discriminate].
  cbv zeta. destruct (drop_while is_space t) as [|d u]; [discriminate|].
  destruct (Ascii.eqb_spec d DQUOTE) as [->|Hd].
  - destruct (take_while _ u) as [|b body]; [discriminate|].
    destruct (drop_while _ u) as [|e r]; [discriminate|].
    intros [= <- <- <-]. simpl. rewrite length_app. simpl.
    repeat split; try lia. now left.
  - destruct (Ascii.eqb_spec d "<"%char) as [->|Hd']; [|discriminate].
    destruct (drop_while _ u) as [|e r]; [discriminate|].
    intros [= <- <- <-]. simpl. rewrite length_app. simpl.
    repeat split; try lia; try discriminate. now right.
Qed.

Lemma regex_search_include s m :
  regex_search include_directive_re s = Some m ->
  exists t whole rest,
    s = m_prefix m ++ t /\ include_here t = Some (whole, m_str1 m, rest).
Proof.
  rewrite (regex_search_direct _ _ match_here_include).
  destruct (dsearch include_here s) as [[[[pre whole] g1] rest]|] eqn:Hd;
    [|discriminate].
  intros [= <-]. simpl. apply dsearch_here in Hd as (t & -> & Ht).
  now exists t, whole, rest.
Qed.

Lemma runtime_path_defined path :
  2 <= length path -> is_Some (runtime_path_from_include_path path).
Proof.
  intros H. unfold runtime_path_from_include_path.
  rewrite (proj2 (Nat.ltb_ge _ _)) by exact H. eauto.
Qed.

(** *** The once-marker *)

Lemma strip_prefix_space_head w c t :
  is_space c = true -> is_space (hd c w) = false -> w <> [] ->
  strip_prefix w (c :: t) = None.
Proof.
  intros Hc Hw Hne. destruct w as [|d w]; [contradiction|]. simpl in *.
  destruct (Ascii.eqb_spec c d) as [->|]; [congruence|reflexivity].
Qed.

Lemma match_here_pragma bh ah :
  match_here pragma_once_directive_re {| behind := bh; ahead := ah |} =
  match bh with
  | [] =>
      match pragma_here ah with
      | Some (whole, rest) => Some (matched [] whole [] rest)
      | None => None
      end
  | _ :: _ => None
  end.
Proof.
  unfold match_here, pragma_once_directive_re, pragma_here.
  rewrite exec_Seq, exec_AssertBegin.
  destruct bh as [|b bh]; [|reflexivity].
  rewrite exec_Seq, exec_Star_greedy_Chars, munch_reject.
  2:{ intros bh' c t g' Hc. rewrite exec_Seq, exec_Lit.
      now rewrite strip_prefix_space_head. }
  rewrite exec_Seq, exec_Lit. cbv zeta.
  destruct (strip_prefix (lit "#pragma") (drop_while is_space ah)) as [t2|];
    [|reflexivity].
  rewrite exec_Seq, exec_Plus.
  destruct t2 as [|c t3]; [now rewrite exec_Chars_nil|].
  rewrite exec_Chars_cons. destruct (is_space c) eqn:Hc; [|reflexivity].
  rewrite exec_Star_greedy_Chars, munch_reject.
  2:{ intros bh' c' t g' Hc'. rewrite exec_Seq, exec_Lit.
      now rewrite strip_prefix_space_head. }
  rewrite exec_Seq, exec_Lit.
  destruct (strip_prefix (lit "once") (drop_while is_space t3)) as [t4|];
    [|reflexivity].
  rewrite exec_WordBoundary. unfold at_word_boundary. cbn [behind ahead].
  change (is_word_opt (head (rev (lit "once") ++ _))) with true.
  cbn [xorb]. destruct (is_word_opt (head t4)); [reflexivity|]. cbn [negb].
  unfold matched. f_equal. f_equal.
  - apply between_eq. now list_norm.
  - now list_norm.
Qed.

Lemma search_at_pragma_behind : forall ah b bh,
  search_at pragma_once_directive_re (b :: bh) ah = None.
Proof.
  induction ah as [|c t IH]; intros b bh; cbn [search_at];
    rewrite match_here_pragma.
  - reflexivity.
  - now rewrite IH.
Qed.

Lemma pragma_here_Some s whole rest :
  pragma_here s = Some (whole, rest) ->
  s = whole ++ rest /\
  exists ws1 ws2,
    whole = ws1 ++ lit "#pragma" ++ ws2 ++ lit "once"
    /\ forallb is_space ws1 = true
    /\ ws2 <> [] /\ forallb is_space ws2 = true
    /\ is_word_opt (head rest) = false.
Proof.
  unfold pragma_here. cbv zeta.
  destruct (strip_prefix _ (drop_while is_space s)) as [t2|] eqn:H1; [|discriminate].
  destruct t2 as [|c t3]; [discriminate|].
  destruct (is_space c) eqn:Hc; [|discriminate].
  destruct (strip_prefix _ (drop_while is_space t3)) as [t4|] eqn:H2; [|discriminate].
  destruct (is_word_opt (head t4)) eqn:Hw; [discriminate|].
  intros [= <- <-].
  apply strip_prefix_Some in H1, H2.
  pose proof (take_drop_while is_space s) as E1. rewrite H1 in E1.
  pose proof (take_drop_while is_space t3) as E3. rewrite H2 in E3.
  split.
  - transitivity (take_while is_space s ++ lit "#pragma" ++
                  c :: (take_while is_space t3 ++ lit "once" ++ t4)).
    + rewrite E3. now symmetry.
    + rewrite <- app_assoc. f_equal.
      change (lit "#pragma" ++ c :: (take_while is_space t3 ++ lit "once" ++ t4)
              = lit "#pragma" ++ c :: ((take_while is_space t3 ++ lit "once") ++ t4)).
      now rewrite <- app_assoc.
  - exists (take_while is_space s), (c :: take_while is_space t3).
    assert (Htw : forall u, forallb is_space (take_while is_space u) = true).
    { induction u as [|d u IH]; simpl; [reflexivity|].
      destruct (is_space d) eqn:Hd; simpl; [now rewrite Hd|reflexivity]. }
    conjs; try apply Htw; try discriminate; try exact Hw.
    + reflexivity.
    + cbn [forallb]. now rewrite Hc, Htw.
Qed.

Lemma take_while_all p ws rest :
  forallb p ws = true ->
  take_while p (ws ++ rest) = ws ++ take_while p rest.
Proof.
  intros Hws. induction ws as [|c ws IH]; simpl in *; [reflexivity|].
  apply andb_true_iff in Hws as [Hc Hws]. now rewrite Hc, IH.
Qed.

Lemma drop_while_all p ws rest :
  forallb p ws = true -> drop_while p (ws ++ rest) = drop_while p rest.
Proof.
  intros Hws. induction ws as [|c ws IH]; simpl in *; [reflexivity|].
  apply andb_true_iff in Hws as [Hc Hws]. now rewrite Hc, IH.
Qed.

Lemma pragma_here_marker ws1 ws2 rest :
  forallb is_space ws1 = true ->
  ws2 <> [] -> forallb is_space ws2 = true ->
  is_word_opt (head rest) = false ->
  pragma_here (ws1 ++ lit "#pragma" ++ ws2 ++ lit "once" ++ rest)
  = Some (ws1 ++ lit "#pragma" ++ ws2 ++ lit "once", rest).
Proof.
  intros H1 Hne H2 Hw. unfold pragma_here. cbv zeta.
  rewrite drop_while_all by exact H1.
  rewrite take_while_all by exact H1.
  change (drop_while is_space (lit "#pragma" ++ ?t)) with (lit "#pragma" ++ t).
  change (take_while is_space (lit "#pragma" ++ ?t)) with (@nil ascii).
  rewrite strip_prefix_app.
  destruct ws2 as [|c ws2]; [contradiction|]. simpl in H2.
  apply andb_true_iff in H2 as [Hc H2]. cbn [app]. rewrite Hc.
  rewrite drop_while_all by exact H2.
  rewrite take_while_all by exact H2.
  change (drop_while is_space (lit "once" ++ ?t)) with (lit "once" ++ t).
  change (take_while is_space (lit "once" ++ ?t)) with (@nil ascii).
  rewrite strip_prefix_app, Hw. now rewrite !app_nil_r.
Qed.

Lemma search_at_pragma_start source :
  search_at pragma_once_directive_re [] source =
  match pragma_here source with
  | Some (whole, rest) => Some (matched [] whole [] rest)
  | None => None
  end.
Proof.
  destruct source as [|c t]; cbn [search_at]; rewrite match_here_pragma.
  - now destruct (pragma_here []) as [[whole rest]|].
  - destruct (pragma_here (c :: t)) as [[whole rest]|]; [reflexivity|].
    now rewrite search_at_pragma_behind.
Qed.

Lemma strip_pragma_once_direct source :
  strip_pragma_once source =
  match pragma_here source with
  | Some (_, rest) => (rest, true)
  | None => (source, false)
  end.
Proof.
  unfold strip_pragma_once, regex_replace. cbn [replace_at].
  rewrite search_at_pragma_start.
  destruct (pragma_here source) as [[whole rest]|] eqn:Hh.
  - apply pragma_here_Some in Hh as (Hs & ws1 & ws2 & Hwhole & _).
    unfold matched. cbn [m_prefix m_str0 m_end behind ahead].
    destruct whole as [|d whole].
    { exfalso. destruct ws1; discriminate Hwhole. }
    assert (Hrest : replace_at (length source) pragma_once_directive_re []
                      (rev (d :: whole) ++ []) rest = rest).
    { destruct (rev (d :: whole) ++ []) as [|b bh] eqn:Hrev.
      - apply (f_equal (@length ascii)) in Hrev.
        rewrite length_app, length_rev in Hrev. simpl in Hrev. lia.
      - destruct (length source); cbn [replace_at]; [reflexivity|].
        now rewrite search_at_pragma_behind. }
    rewrite Hrest. cbn [app]. f_equal.
    rewrite Hs, length_app. cbn [length].
    apply negb_true_iff, Nat.eqb_neq. lia.
  - now rewrite Nat.eqb_refl.
Qed.

Lemma pragma_here_after_slash ws t :
  forallb is_space ws = true -> pragma_here (ws ++ "/"%char :: t) = None.
Proof.
  intros Hws. unfold pragma_here. cbv zeta.
  now rewrite drop_while_all by exact Hws.
Qed.

Lemma pragma_here_before_slash p t :
  "#"%char ∉ p -> pragma_here (p ++ "/"%char :: t) = None.
Proof.
  intros Hp. unfold pragma_here. cbv zeta.
  assert (H : strip_prefix (lit "#pragma")
                (drop_while is_space (p ++ "/"%char :: t)) = None).
  { induction p as [|c p IH]; [reflexivity|].
    apply not_elem_of_cons in Hp as [Hc Hp]. cbn [app drop_while].
    destruct (is_space c); [now apply IH|].
    simpl. rewrite (proj2 (Ascii.eqb_neq c "#"%char)); [reflexivity|congruence]. }
  now rewrite H.
Qed.

Lemma include_here_start s whole g1 rest :
  include_here s = Some (whole, g1, rest) -> head s = Some "#"%char.
Proof.
  unfold include_here.
  destruct (strip_prefix _ s) as [t|] eqn:Hp; [|discriminate].
  intros _. now apply strip_prefix_head in Hp.
Qed.

Lemma c_str_elem x s : x ∈ c_str s -> x ∈ s.
Proof.
  induction s as [|c t IH]; simpl; [trivial|].
  destruct (Ascii.eqb c NUL); [intros H; inversion H|].
  rewrite !elem_of_cons. intros [H|H]; [now left|right; now apply IH].
Qed.

(** No directive is found in a text without a hash. *)
Lemma regex_search_include_without_hash t :
  "#"%char ∉ t -> regex_search include_directive_re (c_str t) = None.
Proof.
  intros Ht. rewrite (regex_search_direct _ _ match_here_include).
  rewrite (dsearch_without _ _ include_here_start); [reflexivity|].
  intros H. now apply c_str_elem in H.
Qed.

Lemma visiting_erase_emplace f w :
  f ∉ visiting (session w) -> visiting_erase f (visiting_emplace f w) = w.
Proof.
  intros Hf. destruct w as [[V S] t]. unfold visiting_erase, visiting_emplace.
  simpl in *. do 2 f_equal. apply leibniz_equiv. set_solver.
Qed.

(** *** The guard name *)

Lemma collapse_runs_in_run t :
  collapse_runs true t = collapse_runs false (drop_while is_non_identifier t).
Proof.
  induction t as [|c t IH]; simpl; [reflexivity|].
  unfold is_non_identifier. destruct (is_alnum c) eqn:Hc; simpl.
  - now rewrite Hc.
  - exact IH.
Qed.

Lemma drop_while_length p s : length (drop_while p s) <= length s.
Proof.
  induction s as [|c t IH]; simpl; [lia|]. destruct (p c); simpl; lia.
Qed.

Lemma non_identifier_collapse : forall n s,
  length s <= n ->
  dreplace non_identifier_here (S (length s)) (lit "_") s = collapse_runs false s.
Proof.
  induction n as [|n IH]; intros s Hn.
  - destruct s; [reflexivity|simpl in Hn; lia].
  - destruct s as [|c t]; [reflexivity|].
    destruct (non_identifier_here (c :: t)) as [[[w g] r]|] eqn:Hh.
    + rewrite (dreplace_here _ non_identifier_here_prefix _ _ _ _ _ Hh).
      simpl in Hh. unfold is_non_identifier in Hh at 1.
      destruct (is_alnum c) eqn:Hc; [discriminate|]. injection Hh as <- <- <-.
      rewrite IH by (pose proof (drop_while_length is_non_identifier t);
                     simpl in Hn; lia).
      cbn [collapse_runs]. rewrite Hc. now rewrite collapse_runs_in_run.
    + rewrite (dreplace_skip _ non_identifier_here_prefix) by exact Hh.
      simpl in Hh. unfold is_non_identifier in Hh.
      destruct (is_alnum c) eqn:Hc; [|discriminate].
      rewrite IH by (simpl in Hn; lia).
      cbn [collapse_runs]. now rewrite Hc.
Qed.

Lemma match_here_underscore bh ah :
  match_here underscore_at_ends_re {| behind := bh; ahead := ah |} =
  match underscore_here (match bh with [] => true | _ :: _ => false end) ah with
  | Some (whole, rest) => Some (matched bh whole [] rest)
  | None => None
  end.
Proof.
  unfold match_here, underscore_at_ends_re, underscore_here.
  rewrite exec_Alt, !exec_Seq, exec_AssertBegin, !exec_Plus.
  destruct ah as [|c t].
  { rewrite !exec_Chars_nil. now destruct bh. }
  rewrite !exec_Chars_cons.
  destruct (is_char "_"%char c) eqn:Hc; [|now destruct bh].
  destruct bh as [|b bh].
  - rewrite exec_Star_greedy_Chars, munch_final.
    unfold matched. do 2 f_equal.
    + apply between_eq. now list_norm.
    + now list_norm.
  - rewrite exec_Star_greedy_Chars, munch_reject.
    2:{ intros bh' c' t' g' _. now rewrite exec_AssertEnd. }
    rewrite exec_AssertEnd.
    destruct (drop_while (is_char "_"%char) t); [|reflexivity].
    unfold matched. do 2 f_equal.
    + apply between_eq. now list_norm.
    + now list_norm.
Qed.

Lemma replace_at_skip re fmt n bh c t :
  match_here re {| behind := bh; ahead := c :: t |} = None ->
  replace_at (S n) re fmt bh (c :: t) = c :: replace_at (S n) re fmt (c :: bh) t.
Proof.
  intros H. cbn [replace_at search_at]. rewrite H.
  now destruct (search_at re (c :: bh) t) as [m|].
Qed.

Lemma replace_at_nil re fmt n bh :
  match_here re {| behind := bh; ahead := [] |} = None ->
  replace_at n re fmt bh [] = [].
Proof. intros H. destruct n; [reflexivity|]. cbn [replace_at search_at]. now rewrite H. Qed.

Lemma drop_while_all_nil p s :
  drop_while p s = [] <-> forallb p s = true.
Proof.
  induction s as [|c t IH]; simpl; [tauto|].
  destruct (p c); simpl; [exact IH|]. split; discriminate.
Qed.

(** Behind the beginning of the target sequence only the underscores at
    the end are matched. *)
Lemma replace_at_underscore_behind : forall ah n b bh,
  length ah < n ->
  replace_at n underscore_at_ends_re [] (b :: bh) ah = drop_trailing ah.
Proof.
  induction ah as [|c t IH]; intros n b bh Hn.
  - apply replace_at_nil. now rewrite match_here_underscore.
  - destruct n as [|n]; [lia|].
    destruct (forallb (is_char "_"%char) (c :: t)) eqn:Hall.
    + cbn [drop_trailing]. rewrite Hall.
      cbn [replace_at search_at]. rewrite match_here_underscore.
      cbn [underscore_here]. simpl in Hall.
      apply andb_true_iff in Hall as [Hc Ht]. rewrite Hc.
      rewrite (proj2 (drop_while_all_nil _ _) Ht).
      unfold matched. cbn [m_prefix m_str0 m_end ahead behind app].
      apply replace_at_nil. now rewrite match_here_underscore.
    + cbn [drop_trailing]. rewrite Hall.
      rewrite replace_at_skip.
      { rewrite IH by (simpl in Hn; lia). reflexivity. }
      rewrite match_here_underscore. cbn [underscore_here].
      simpl in Hall. destruct (is_char "_"%char c); [|reflexivity].
      simpl in Hall.
      destruct (drop_while (is_char "_"%char) t) eqn:Hd; [|reflexivity].
      apply drop_while_all_nil in Hd. congruence.
Qed.

Lemma underscore_replace s :
  regex_replace s underscore_at_ends_re []
  = drop_trailing (drop_while (is_char "_"%char) s).
Proof.
  unfold regex_replace. destruct s as [|c t].
  - now rewrite replace_at_nil by now rewrite match_here_underscore.
  - destruct (is_char "_"%char c) eqn:Hc.
    + cbn [replace_at search_at]. rewrite match_here_underscore.
      cbn [underscore_here drop_while]. rewrite Hc.
      unfold matched. cbn [m_prefix m_str0 m_end ahead behind app].
      destruct (rev (c :: take_while (is_char "_"%char) t) ++ []) as [|b bh] eqn:Hrev.
      { apply (f_equal (@length ascii)) in Hrev.
        rewrite length_app, length_rev in Hrev. simpl in Hrev. lia. }
      apply replace_at_underscore_behind.
      pose proof (drop_while_length (is_char "_"%char) t). simpl. lia.
    + rewrite replace_at_skip.
      * rewrite replace_at_underscore_behind by (simpl; lia).
        cbn [drop_while]. rewrite Hc. cbn [drop_trailing forallb].
        now rewrite Hc.
      * rewrite match_here_underscore. cbn [underscore_here]. now rewrite Hc.
Qed.

Lemma forallb_rev p (s : str) : forallb p (rev s) = forallb p s.
Proof.
  induction s as [|c t IH]; simpl; [reflexivity|].
  rewrite forallb_app, IH. simpl. rewrite andb_true_r. apply andb_comm.
Qed.

Lemma drop_while_app p (l m : str) :
  drop_while p (l ++ m) =
  if forallb p l then drop_while p m else drop_while p l ++ m.
Proof.
  induction l as [|c l IH]; simpl; [reflexivity|].
  destruct (p c); simpl; [exact IH|reflexivity].
Qed.

Lemma drop_trailing_all s :
  forallb (is_char "_"%char) s = true -> drop_trailing s = [].
Proof.
  destruct s as [|c t]; [reflexivity|].
  intros H. cbn [drop_trailing]. now rewrite H.
Qed.

Lemma drop_trailing_rev s :
  drop_trailing s = rev (drop_while (is_char "_"%char) (rev s)).
Proof.
  induction s as [|c t IH]; [reflexivity|].
  cbn [drop_trailing rev]. rewrite drop_while_app, forallb_rev.
  cbn [forallb]. destruct (forallb (is_char "_"%char) t) eqn:Ht.
  - rewrite andb_true_r. cbn [drop_while].
    destruct (is_char "_"%char c); [reflexivity|].
    cbn [rev app]. now rewrite drop_trailing_all.
  - rewrite andb_false_r, rev_app_distr. cbn [rev app]. now rewrite IH.
Qed.

(** The name the program builds is the name of the specification. *)
Lemma guard_macro_guard_name path_hash filename :
  guard_macro path_hash filename
  = guard_name path_hash (generic_string filename).
Proof.
  unfold guard_macro, guard_name, sanitized_identity, trim_underscores,
    substr. cbv zeta. do 2 f_equal.
  rewrite underscore_replace, drop_trailing_rev. do 3 f_equal.
  rewrite (regex_replace_direct _ _ match_here_non_identifier).
  now rewrite (non_identifier_collapse (length (generic_string filename)))
    by lia.
Qed.

(** The guard is that of the generic form of the name. *)
Lemma guard_macro_generic path_hash filename :
  guard_macro path_hash (generic_string filename)
  = guard_macro path_hash filename.
Proof. unfold guard_macro. now rewrite generic_string_idem. Qed.

Lemma add_include_guard_generic path_hash filename source :
  add_include_guard path_hash (generic_string filename) source
  = add_include_guard path_hash filename source.
Proof. unfold add_include_guard. now rewrite guard_macro_generic. Qed.

(** ** Runs and the relation *)

Lemma register_visiting p w :
  visiting (session (register p w)) = visiting (session w).
Proof. unfold register. now destruct (seen p w). Qed.

Lemma register_trace p w : trace (register p w) = trace w.
Proof. unfold register. now destruct (seen p w). Qed.

Section Runs.

Variable files : str -> option str.
Variable path_hash : str -> N.

Lemma do_preprocess_steps_again loop w f src :
  generic_string f ∈ visiting (session w) ->
  do_preprocess_steps path_hash loop w f src =
  Some (if snd (strip_pragma_once src)
        then Returned {| content := []; has_pragma_once := true |}
        else Thrown (runtime_error
                       (lit "Cyclic inclusion: " ++ generic_string f)), w).
Proof.
  intros Hin. unfold do_preprocess_steps.
  destruct (strip_pragma_once src) as [s1 once]. cbn [snd].
  rewrite bool_decide_eq_true_2 by exact Hin.
  destruct once; reflexivity.
Qed.

Lemma do_preprocess_steps_fresh loop w f src :
  generic_string f ∉ visiting (session w) ->
  do_preprocess_steps path_hash loop w f src =
  match loop (visiting_emplace (generic_string f) w)
             (strip_comments (fst (strip_pragma_once src))) 0 with
  | None => None
  | Some (Thrown e, w1) => Some (Thrown e, w1)
  | Some (Aborted, w1) => Some (Aborted, w1)
  | Some (Returned s, w1) =>
      Some (Returned {| content := if snd (strip_pragma_once src)
                                   then add_include_guard path_hash f s else s;
                        has_pragma_once := snd (strip_pragma_once src) |},
            visiting_erase (generic_string f) w1)
  end.
Proof.
  intros Hin. unfold do_preprocess_steps.
  destruct (strip_pragma_once src) as [s1 once]. cbn [fst snd].
  rewrite bool_decide_eq_false_2 by exact Hin. reflexivity.
Qed.

Lemma do_preprocess_steps_sound loop w f src o w' :
  (forall w0 s pos o0 w1,
      loop w0 s pos = Some (o0, w1) -> Scan files path_hash w0 s pos o0 w1) ->
  do_preprocess_steps path_hash loop w f src = Some (o, w') ->
  Do files path_hash w (generic_string f) src o w'.
Proof.
  intros Hloop.
  destruct (decide (generic_string f ∈ visiting (session w))) as [Hin|Hin].
  - rewrite do_preprocess_steps_again by exact Hin.
    destruct (snd (strip_pragma_once src)) eqn:Honce; intros [= <- <-].
    + now apply Do_again_once.
    + now apply Do_again_cycle.
  - rewrite do_preprocess_steps_fresh by exact Hin.
    destruct (loop _ _ _) as [[o1 w1]|] eqn:Hl; [|discriminate].
    apply Hloop in Hl.
    destruct o1 as [s|e|]; intros [= <- <-].
    + rewrite <- (add_include_guard_generic path_hash f). now apply Do_expand.
    + apply (Do_fail _ _ _ _ _ _ _ Hin Hl). exact I.
    + apply (Do_fail _ _ _ _ _ _ _ Hin Hl). exact I.
Qed.

Lemma do_preprocess_steps_ext loop1 loop2 w f src :
  (forall w0 s pos, loop1 w0 s pos = loop2 w0 s pos) ->
  do_preprocess_steps path_hash loop1 w f src =
  do_preprocess_steps path_hash loop2 w f src.
Proof.
  intros Hext.
  destruct (decide (generic_string f ∈ visiting (session w))) as [Hin|Hin].
  - now rewrite !do_preprocess_steps_again.
  - rewrite !do_preprocess_steps_fresh by exact Hin. now rewrite Hext.
Qed.

(** What the runs do to the [visiting] set and to the log. *)
Lemma visiting_discipline :
  (forall w f src o w',
      Do files path_hash w f src o w' ->
      exists N, trace w' = N ++ trace w
        /\ visiting (session w) ⊆ visiting (session w')
        /\ (~ failed o -> visiting (session w') = visiting (session w))
        /\ (forall p V, Slurped p V ∈ N ->
              visiting (session w) ⊆ V /\ f ∈ V)
        /\ (failed o -> f ∈ visiting (session w')))
  /\
  (forall w s pos o w',
      Scan files path_hash w s pos o w' ->
      exists N, trace w' = N ++ trace w
        /\ visiting (session w) ⊆ visiting (session w')
        /\ (~ failed o -> visiting (session w') = visiting (session w))
        /\ (forall p V, Slurped p V ∈ N -> visiting (session w) ⊆ V)).
Proof.
  apply Do_Scan_ind.
  - (* called again, once-marked *)
    intros w f src Hin _. exists []. simpl. conjs; try done.
    intros p V HV; inversion HV.
  - (* called again, cycle *)
    intros w f src Hin _. exists []. simpl. conjs; try done.
    intros p V HV; inversion HV.
  - (* expanded *)
    intros w f src s w1 Hin _ (N & HN & Hsub & Hret & Hsl). exists N.
    simpl in *. specialize (Hret (fun x => x)). conjs; try done.
    + rewrite Hret. set_solver.
    + intros _. rewrite Hret. apply leibniz_equiv. set_solver.
    + intros p V HV. apply Hsl in HV. set_solver.
  - (* failed inside *)
    intros w f src o w1 Hin _ (N & HN & Hsub & Hret & Hsl) Hfail. exists N.
    simpl in *. conjs; try done.
    + set_solver.
    + intros Hnf. destruct o; simpl in *; contradiction.
    + intros p V HV. apply Hsl in HV. set_solver.
    + intros _. set_solver.
  - (* no directive left *)
    intros w s pos _. exists []. simpl. conjs; try done.
    intros p V HV; inversion HV.
  - (* assertion *)
    intros w s pos m _ _. exists []. simpl. conjs; try done.
    intros p V HV; inversion HV.
  - (* missing file *)
    intros w s pos m p _ _ _. exists [Slurped p (visiting (session w))]. simpl.
    conjs; try done.
    intros q V HV. apply list_elem_of_singleton in HV. now inversion HV.
  - (* the included file failed *)
    intros w s pos m p raw o w3 _ _ _ _ (N & HN & Hsub & Hret & Hsl & Hf) Hfail.
    exists (N ++ [Slurped p (visiting (session w))]).
    rewrite register_visiting in *. rewrite register_trace in HN. simpl in *.
    conjs.
    + rewrite HN. now rewrite <- app_assoc.
    + exact Hsub.
    + intros Hnf. destruct o; simpl in *; contradiction.
    + intros q V HV. apply elem_of_app in HV as [HV|HV].
      * now apply Hsl in HV.
      * apply list_elem_of_singleton in HV. now inversion HV.
  - (* spliced *)
    intros w s pos m p raw child w3 o w4 _ _ _ _
      (N & HN & Hsub & Hret & Hsl & Hf) _ (N' & HN' & Hsub' & Hret' & Hsl').
    exists (N' ++ Spliced p (seen p w) child (replacement_of child (seen p w))
               :: N ++ [Slurped p (visiting (session w))]).
    rewrite register_visiting in *. rewrite register_trace in HN. simpl in *.
    specialize (Hret (fun x => x)). rewrite Hret in *.
    conjs.
    + rewrite HN', HN. rewrite <- !app_assoc. simpl. now rewrite <- app_assoc.
    + exact Hsub'.
    + exact Hret'.
    + intros q V HV. apply elem_of_app in HV as [HV|HV]; [now apply Hsl' in HV|].
      apply elem_of_cons in HV as [HV|HV]; [discriminate|].
      apply elem_of_app in HV as [HV|HV]; [now apply Hsl in HV|].
      apply list_elem_of_singleton in HV. now inversion HV.
Qed.




Lemma register_should_skip p w :
  should_skip (session (register p w)) = {[ p ]} ∪ should_skip (session w).
Proof.
  unfold register, seen. case_bool_decide; simpl; [|reflexivity].
  apply leibniz_equiv. set_solver.
Qed.



(** No run ends in a failed assertion. *)
Lemma never_aborts :
  (forall w f src o w', Do files path_hash w f src o w' -> o <> Aborted)
  /\
  (forall w s pos o w', Scan files path_hash w s pos o w' -> o <> Aborted).
Proof.
  apply Do_Scan_ind; try discriminate.
  - intros w f src o w1 _ _ IH Hfail. destruct o; simpl in *; congruence.
  - intros w s pos m Hm Hp.
    apply regex_search_include in Hm as (t & whole & rest & _ & Hh).
    apply include_here_payload in Hh as (Hlen & _).
    apply runtime_path_defined in Hlen as [q Hq]. congruence.
  - intros w s pos m p raw o w3 _ _ _ _ IH Hfail.
    destruct o; simpl in *; congruence.
  - intros. assumption.
Qed.

Section Guarded.

Variable parent_path : str -> str.

Lemma with_guard_construct {A : Type} (f : str) (body : run A) :
  with_guard (wdfg_construct parent_path f) body = body.
Proof. destruct body as [[o w]|]; reflexivity. Qed.

Lemma scan_sound fuel :
  forall w s pos o w',
    scan files path_hash parent_path fuel w s pos = Some (o, w') ->
    Scan files path_hash w s pos o w'.
Proof.
  induction fuel as [|fuel IH]; intros w s pos o w'; simpl.
  - destruct (regex_search _ _) as [m|] eqn:Hm; [discriminate|].
    intros [= <- <-]. now apply Scan_done.
  - destruct (regex_search _ _) as [m|] eqn:Hm.
    2:{ intros [= <- <-]. now apply Scan_done. }
    destruct (runtime_path_from_include_path (m_str1 m)) as [p0|] eqn:Hp0.
    2:{ intros [= <- <-]. now apply (Scan_assert _ _ _ _ _ m). }
    assert (Hp : option_map generic_string
                   (runtime_path_from_include_path (m_str1 m))
                 = Some (generic_string p0)) by now rewrite Hp0.
    set (p := generic_string p0) in *.
    unfold slurp.
    destruct (files p) as [raw|] eqn:Hf.
    2:{ intros [= <- <-]. now apply (Scan_missing _ _ _ _ _ m). }
    unfold do_preprocess_body. rewrite with_guard_construct.
    match goal with
    | |- context [do_preprocess_steps _ _ ?w0 _ _] =>
        change w0 with (register p (log (Slurped p (visiting (session w))) w))
    end.
    destruct (do_preprocess_steps _ _ _ _ _) as [[oc w3]|] eqn:Hd; [|discriminate].
    apply (do_preprocess_steps_sound _ _ _ _ _ _ IH) in Hd. fold p in Hd.
    destruct oc as [child|e|].
    + intros Hs. apply IH in Hs.
      now apply (Scan_splice _ _ _ _ _ m p raw child w3).
    + intros [= <- <-].
      now apply (Scan_child_failed _ _ _ _ _ m p raw (Thrown e) w3).
    + intros [= <- <-].
      now apply (Scan_child_failed _ _ _ _ _ m p raw Aborted w3).
Qed.

Lemma do_preprocess_sound fuel w f src o w' :
  do_preprocess files path_hash parent_path fuel w f src = Some (o, w') ->
  Do files path_hash w (generic_string f) src o w'.
Proof.
  unfold do_preprocess, do_preprocess_body. rewrite with_guard_construct.
  apply do_preprocess_steps_sound. apply scan_sound.
Qed.

Lemma scan_unguarded_eq fuel :
  forall w s pos,
    scan files path_hash parent_path fuel w s pos =
    scan_unguarded files path_hash fuel w s pos.
Proof.
  induction fuel as [|fuel IH]; intros w s pos; simpl; [reflexivity|].
  destruct (regex_search _ _) as [m|]; [|reflexivity].
  destruct (runtime_path_from_include_path _) as [p|]; [|reflexivity].
  destruct (slurp files _) as [raw|e|]; try reflexivity.
  unfold do_preprocess_body. rewrite with_guard_construct.
  rewrite (do_preprocess_steps_ext _ _ _ _ _ IH).
  destruct (do_preprocess_steps _ _ _ _ _) as [[[child|e|] w3]|]; try reflexivity.
  apply IH.
Qed.

(** What a call that returns has computed. *)
Lemma do_preprocess_returned fuel w filename source r w' :
  do_preprocess files path_hash parent_path fuel w filename source
    = Some (Returned r, w') ->
  has_pragma_once r = snd (strip_pragma_once source)
  /\ (generic_string filename ∉ visiting (session w) ->
      exists s w1,
        scan files path_hash parent_path fuel
          (visiting_emplace (generic_string filename) w)
          (strip_comments (fst (strip_pragma_once source))) 0
          = Some (Returned s, w1)
        /\ content r = if has_pragma_once r
                       then add_include_guard path_hash filename s else s).
Proof.
  unfold do_preprocess, do_preprocess_body. rewrite with_guard_construct.
  intros Hrun.
  destruct (decide (generic_string filename ∈ visiting (session w))) as [Hin|Hin].
  - rewrite do_preprocess_steps_again in Hrun by exact Hin.
    destruct (snd (strip_pragma_once source)); [|discriminate].
    injection Hrun as <- _. split; [reflexivity|]. intros; contradiction.
  - rewrite do_preprocess_steps_fresh in Hrun by exact Hin.
    destruct (scan _ _ _ _ _ _ _) as [[[s|e|] w1]|]; try discriminate.
    injection Hrun as <- _. split; [reflexivity|].
    intros _. now exists s, w1.
Qed.

Lemma do_preprocess_never_aborts fuel w filename source w' :
  do_preprocess files path_hash parent_path fuel w filename source
    <> Some (Aborted, w').
Proof.
  intros H. apply do_preprocess_sound in H.
  now apply (proj1 never_aborts) in H.
Qed.

End Guarded.

End Runs.

(** ** The claims about the path resolver and the scanner *)

(** C4, amended.  The path resolver drops the trailing delimiter, forces
    the first character to a slash, and then starts at offset 1 for the
    quoted form and at offset 0 for the angle form.  So the quoted
    spelling of a path resolves to the pathname as written, and the angle
    spelling to the pathname with a slash in front.  The identities of the
    two, their generic forms, are the same when the path begins with a
    slash, and only then: for any other path the two spellings are two
    different identities. *)
Theorem quoted_relative_angle_rooted (body : str) (closing : ascii) :
  runtime_path_from_include_path (DQUOTE :: body ++ [closing])
    = Some (c_str body)
  /\ runtime_path_from_include_path ("<"%char :: body ++ [closing])
    = Some ("/"%char :: c_str body)
  /\ (head (c_str body) = Some "/"%char ->
      generic_string ("/"%char :: c_str body) = generic_string (c_str body))
  /\ (head (c_str body) <> Some "/"%char ->
      generic_string ("/"%char :: c_str body) <> generic_string (c_str body)).
Proof.
  assert (Hq : runtime_path_from_include_path (DQUOTE :: body ++ [closing])
               = Some (c_str body)).
  { unfold runtime_path_from_include_path, substr.
    cbn [length]. rewrite length_app. cbn [length].
    rewrite (proj2 (Nat.ltb_ge _ _)) by lia.
    replace (S (length body + 1) - 1) with (S (length body)) by lia.
    cbn [skipn firstn]. rewrite firstn_app, firstn_all, Nat.sub_diag. simpl.
    now rewrite app_nil_r. }
  assert (Ha : runtime_path_from_include_path ("<"%char :: body ++ [closing])
               = Some ("/"%char :: c_str body)).
  { unfold runtime_path_from_include_path, substr.
    cbn [length]. rewrite length_app. cbn [length].
    rewrite (proj2 (Nat.ltb_ge _ _)) by lia.
    replace (S (length body + 1) - 1) with (S (length body)) by lia.
    cbn [skipn firstn]. rewrite firstn_app, firstn_all, Nat.sub_diag. simpl.
    now rewrite app_nil_r. }
  rewrite Hq, Ha. conjs; try reflexivity.
  - destruct (c_str body) as [|d x]; [discriminate|].
    intros [= ->]. apply generic_string_slash_slash.
  - intros Hh He. apply Hh.
    rewrite <- generic_string_head, <- He, generic_string_head. reflexivity.
Qed.

(** A path that begins with a slash: the two spellings are one file. *)
Lemma quoted_relative_angle_rooted_witness :
  option_map generic_string (runtime_path_from_include_path (quoted "/b"))
  = Some (lit "/b")
  /\ option_map generic_string (runtime_path_from_include_path (lit "</b>"))
     = Some (lit "/b").
Proof.
  destruct (quoted_relative_angle_rooted (lit "/b") DQUOTE)
    as (Hq & _ & Hsame & _).
  destruct (quoted_relative_angle_rooted (lit "/b") ">"%char)
    as (_ & Ha & _ & _).
  split.
  - change (quoted "/b") with (DQUOTE :: lit "/b" ++ [DQUOTE]).
    rewrite Hq. reflexivity.
  - change (lit "</b>") with ("<"%char :: lit "/b" ++ [">"%char]).
    rewrite Ha. cbn [option_map]. rewrite Hsame; reflexivity.
Defined.

(** C4 as stated fails: the quoted and the angle spelling of [shared.glsl]
    resolve to two identities. *)
Lemma quoted_and_angle_identities_differ :
  option_map generic_string
    (runtime_path_from_include_path (quoted "shared.glsl"))
    = Some (lit "shared.glsl")
  /\ option_map generic_string
       (runtime_path_from_include_path (lit "<shared.glsl>"))
    = Some (lit "/shared.glsl")
  /\ option_map generic_string
       (runtime_path_from_include_path (quoted "shared.glsl"))
    <> option_map generic_string
         (runtime_path_from_include_path (lit "<shared.glsl>")).
Proof. repeat split. discriminate. Qed.

(** C5, amended.  The once-marker is removed only where it is the first
    thing in the buffer after optional whitespace, which may hold line
    terminators: the call then returns what follows that one marker,
    unchanged, and reports [true].  It reports [true] for no other buffer,
    and a buffer for which it reports [false] is returned as it is.  So a
    buffer whose first character that is not whitespace is not the hash of
    a marker is returned as it is, whatever markers come later. *)
Theorem once_marker_removed_at_start (source : str) :
  (forall ws1 ws2 rest,
      source = ws1 ++ lit "#pragma" ++ ws2 ++ lit "once" ++ rest ->
      forallb is_space ws1 = true ->
      ws2 <> [] -> forallb is_space ws2 = true ->
      is_word_opt (head rest) = false ->
      strip_pragma_once source = (rest, true))
  /\ (snd (strip_pragma_once source) = true ->
      exists ws1 ws2 rest,
        source = ws1 ++ lit "#pragma" ++ ws2 ++ lit "once" ++ rest
        /\ forallb is_space ws1 = true
        /\ ws2 <> [] /\ forallb is_space ws2 = true
        /\ is_word_opt (head rest) = false)
  /\ (snd (strip_pragma_once source) = false ->
      fst (strip_pragma_once source) = source)
  /\ (forall ws c t,
        source = ws ++ c :: t -> forallb is_space ws = true ->
        is_space c = false -> c <> "#"%char ->
        strip_pragma_once source = (source, false)).
Proof.
  rewrite strip_pragma_once_direct. conjs.
  - intros ws1 ws2 rest -> H1 Hne H2 Hw.
    now rewrite pragma_here_marker.
  - destruct (pragma_here source) as [[whole rest]|] eqn:Hh; [|discriminate].
    intros _. apply pragma_here_Some in Hh
      as (-> & ws1 & ws2 & -> & H1 & Hne & H2 & Hw).
    exists ws1, ws2, rest. conjs; try assumption.
    now rewrite <- !app_assoc.
  - destruct (pragma_here source) as [[whole rest]|]; [discriminate|reflexivity].
  - intros ws c t -> Hws Hc Hh.
    assert (H : pragma_here (ws ++ c :: t) = None).
    { unfold pragma_here. cbv zeta. rewrite drop_while_all by exact Hws.
      cbn [drop_while]. rewrite Hc. simpl.
      now rewrite (proj2 (Ascii.eqb_neq c "#"%char)). }
    now rewrite H.
Qed.

(** The marker at the start of the buffer, after two spaces; and a marker
    after a declaration, which stays. *)
Lemma once_marker_removed_at_start_witness :
  strip_pragma_once (lit "  #pragma once" ++ [LF] ++ lit "int x;")
  = ([LF] ++ lit "int x;", true)
  /\ strip_pragma_once (lit " int x;" ++ [LF] ++ lit "#pragma once")
     = (lit " int x;" ++ [LF] ++ lit "#pragma once", false).
Proof.
  split.
  - apply (proj1 (once_marker_removed_at_start
                    (lit "  #pragma once" ++ [LF] ++ lit "int x;"))
                 (lit "  ") (lit " ") ([LF] ++ lit "int x;")).
    + reflexivity.
    + reflexivity.
    + discriminate.
    + reflexivity.
    + reflexivity.
  - apply (proj2 (proj2 (proj2 (once_marker_removed_at_start
                    (lit " int x;" ++ [LF] ++ lit "#pragma once"))))
                 (lit " ") "i"%char (lit "nt x;" ++ [LF] ++ lit "#pragma once")).
    + reflexivity.
    + reflexivity.
    + reflexivity.
    + discriminate.
Defined.

(** C5 as stated fails: a marker at the start of a line that comes after
    other text is neither removed nor reported, and of two markers only
    the one that starts the buffer is removed. *)
Lemma once_marker_on_later_line_kept :
  strip_pragma_once (lit "int x;" ++ [LF] ++ lit "#pragma once" ++ [LF])
  = (lit "int x;" ++ [LF] ++ lit "#pragma once" ++ [LF], false)
  /\ strip_pragma_once (lit "#pragma once" ++ [LF] ++ lit "#pragma once" ++ [LF])
  = ([LF] ++ lit "#pragma once" ++ [LF], true).
Proof. split; vm_compute; reflexivity. Qed.

(** C10. Every payload the scanner finds has at least two characters, a
    quoted payload at least three, and the assertion of the path resolver
    holds for it. *)
Theorem scanner_payload_passes_assertion (s : str) (m : match_results) :
  regex_search include_directive_re s = Some m ->
  2 <= length (m_str1 m)
  /\ (head (m_str1 m) = Some DQUOTE -> 3 <= length (m_str1 m))
  /\ is_Some (runtime_path_from_include_path (m_str1 m)).
Proof.
  intros Hm. apply regex_search_include in Hm as (t & whole & rest & _ & Hh).
  apply include_here_payload in Hh as (Hlen & Hq & _).
  repeat split; [exact Hlen | exact Hq |]. now apply runtime_path_defined.
Qed.

(** The empty angle form is found, and its payload has exactly two
    characters. *)
Lemma scanner_payload_passes_assertion_witness :
  exists m,
    regex_search include_directive_re (lit "#include <>") = Some m
    /\ m_str1 m = lit "<>"
    /\ 2 <= length (m_str1 m)
    /\ (head (m_str1 m) = Some DQUOTE -> 3 <= length (m_str1 m))
    /\ is_Some (runtime_path_from_include_path (m_str1 m)).
Proof.
  eexists. split; [vm_compute; reflexivity|]. split; [reflexivity|].
  apply (scanner_payload_passes_assertion (lit "#include <>")).
  vm_compute. reflexivity.
Defined.

(** ** The claims about [do_preprocess] *)

Section Resolver.

Variable files : str -> option str.
Variable path_hash : str -> N.
Variable parent_path : str -> str.


(** C2. When [do_preprocess] is called for a file that is already in
    [session.visiting], it throws the cyclic-inclusion error naming that
    file exactly when the file has no once-marker; when it has one, the
    call returns empty content with [has_pragma_once = true].  Either way
    the session and the log are left as they were: the body is not
    entered. *)
Theorem revisit_returns_or_cycles fuel w filename source :
  generic_string filename ∈ visiting (session w) ->
  (snd (strip_pragma_once source) = false <->
   do_preprocess files path_hash parent_path fuel w filename source =
   Some (Thrown (runtime_error
                   (lit "Cyclic inclusion: " ++ generic_string filename)), w))
  /\
  (snd (strip_pragma_once source) = true ->
   do_preprocess files path_hash parent_path fuel w filename source =
   Some (Returned {| content := []; has_pragma_once := true |}, w)).
Proof.
  intros Hin. unfold do_preprocess, do_preprocess_body.
  rewrite with_guard_construct, do_preprocess_steps_again by exact Hin.
  destruct (snd (strip_pragma_once source)); split.
  - split; [discriminate|]. intros [= ].
  - reflexivity.
  - split; reflexivity.
  - discriminate.
Qed.

(** C3, amended.  While a file is being expanded its identity is in
    [session.visiting]: every file read of the expansion happens with the
    identity in the set.  When the expansion returns, the set is what it
    was on entry, so the identity is gone.  When an error leaves the
    expansion, the identity stays in the set. *)
Theorem visiting_while_expanding fuel w filename source o w' :
  do_preprocess files path_hash parent_path fuel w filename source = Some (o, w') ->
  generic_string filename ∉ visiting (session w) ->
  exists N, trace w' = N ++ trace w
    /\ (forall p V, Slurped p V ∈ N -> generic_string filename ∈ V)
    /\ match o with
       | Returned _ => visiting (session w') = visiting (session w)
       | _ => generic_string filename ∈ visiting (session w')
       end.
Proof.
  intros Hrun Hfresh. apply do_preprocess_sound in Hrun.
  apply (proj1 (visiting_discipline files path_hash)) in Hrun
    as (N & HN & _ & Hret & Hsl & Hfail).
  exists N. conjs.
  - exact HN.
  - intros p V HV. now apply Hsl in HV.
  - destruct o as [r|e|]; simpl in *.
    + apply Hret. tauto.
    + now apply Hfail.
    + now apply Hfail.
Qed.


(** Where comments do hide directives.  Comments are stripped before the
    loop looks for directives, block comments first (from an opener to the
    first closer after it), line comments after.  Take two texts [p] and
    [s] with no slash and no hash.  A block comment between them, whatever it
    contains, is not expanded and makes no file read: the call returns [p]
    and [s] joined and leaves the session and the log as they were.  So
    does a line comment between them whose second slash does not start a
    block comment. *)
Theorem comments_hide_directives fuel w filename p c s :
  generic_string filename ∉ visiting (session w) ->
  plain p -> plain s ->
  (~ occurs (lit "*/") c ->
   do_preprocess files path_hash parent_path fuel w filename
     (p ++ lit "/*" ++ c ++ lit "*/" ++ s)
   = Some (Returned {| content := p ++ s; has_pragma_once := false |}, w))
  /\
  (LF ∉ c -> CR ∉ c ->
   head c <> Some "*"%char \/ ~ occurs (lit "*/") (tail c) ->
   do_preprocess files path_hash parent_path fuel w filename
     (p ++ lit "//" ++ c ++ [LF] ++ s)
   = Some (Returned {| content := p ++ [LF] ++ s; has_pragma_once := false |}, w)).
Proof.
  intros Hf [Hp1 Hp2] [Hs1 Hs2].
  assert (Hrun : forall source body,
             strip_pragma_once source = (source, false) ->
             strip_comments source = body -> "#"%char ∉ body ->
             do_preprocess files path_hash parent_path fuel w filename source
             = Some (Returned {| content := body; has_pragma_once := false |}, w)).
  { intros source body Hpr Hsc Hb.
    unfold do_preprocess, do_preprocess_body.
    rewrite with_guard_construct, do_preprocess_steps_fresh by exact Hf.
    rewrite Hpr. cbn [fst snd]. rewrite Hsc.
    assert (Hscan : scan files path_hash parent_path fuel
                      (visiting_emplace (generic_string filename) w) body 0
                    = Some (Returned body,
                            visiting_emplace (generic_string filename) w)).
    { destruct fuel; cbn [scan skipn];
        now rewrite regex_search_include_without_hash. }
    rewrite Hscan. now rewrite visiting_erase_emplace. }
  split.
  - intros Hc. apply Hrun.
    + rewrite strip_pragma_once_direct.
      change (lit "/*" ++ ?x) with ("/"%char :: "*"%char :: x).
      now rewrite pragma_here_before_slash.
    + now apply strip_comments_block.
    + intros H. apply elem_of_app in H as [H|H]; contradiction.
  - intros Hlf Hcr Hstar. apply Hrun.
    + rewrite strip_pragma_once_direct.
      change (lit "//" ++ ?x) with ("/"%char :: "/"%char :: x).
      now rewrite pragma_here_before_slash.
    + now apply strip_comments_line.
    + intros H. apply elem_of_app in H as [H|H]; [contradiction|].
      apply elem_of_app in H as [H|H]; [|contradiction].
      apply list_elem_of_singleton in H. discriminate.
Qed.

(** C8, amended.  The once-marker is looked for in the raw text, before
    comments are stripped: the flag of the result is the flag
    [strip_pragma_once] computes on the raw text, and the loop runs on the
    comment-stripped remainder.  A marker that comes after the start of a
    comment, and so any marker inside a comment, is not detected: the flag
    is set only for a text that begins with whitespace or none and the
    marker. *)
Theorem once_marker_detected_on_raw_text fuel w filename source r w' :
  do_preprocess files path_hash parent_path fuel w filename source
    = Some (Returned r, w') ->
  has_pragma_once r = snd (strip_pragma_once source)
  /\ (generic_string filename ∉ visiting (session w) ->
      exists s w1,
        scan files path_hash parent_path fuel
          (visiting_emplace (generic_string filename) w)
          (strip_comments (fst (strip_pragma_once source))) 0
          = Some (Returned s, w1)
        /\ content r = if has_pragma_once r
                       then add_include_guard path_hash filename s else s)
  /\ (forall ws t,
        source = ws ++ "/"%char :: t -> forallb is_space ws = true ->
        has_pragma_once r = false)
  /\ (has_pragma_once r = true ->
      exists ws1 ws2 rest,
        source = ws1 ++ lit "#pragma" ++ ws2 ++ lit "once" ++ rest
        /\ forallb is_space ws1 = true
        /\ ws2 <> [] /\ forallb is_space ws2 = true
        /\ is_word_opt (head rest) = false).
Proof.
  intros Hrun. apply do_preprocess_returned in Hrun as [Hflag Hscan].
  conjs; [exact Hflag | exact Hscan | |].
  - intros ws t -> Hws. rewrite Hflag, strip_pragma_once_direct.
    now rewrite pragma_here_after_slash.
  - rewrite Hflag, strip_pragma_once_direct.
    destruct (pragma_here source) as [[whole rest]|] eqn:Hh; [|discriminate].
    intros _. apply pragma_here_Some in Hh
      as (-> & ws1 & ws2 & -> & H1 & Hne & H2 & Hw).
    exists ws1, ws2, rest. conjs; try assumption.
    now rewrite <- !app_assoc.
Qed.

(** C9. The guard object has no effect: [do_preprocess] computes what the
    same function without the object computes, for every input, every
    file system and whatever [parent_path] returns: the result, the
    session and the files read are the same. *)
Theorem working_directory_guard_inert fuel w filename source :
  do_preprocess files path_hash parent_path fuel w filename source =
  expand files path_hash fuel w filename source.
Proof.
  unfold do_preprocess, expand, do_preprocess_body.
  rewrite with_guard_construct.
  apply do_preprocess_steps_ext. apply scan_unguarded_eq.
Qed.

End Resolver.

(** A file that is in [visiting] and has the once-marker. *)
Lemma revisit_returns_or_cycles_witness :
  let w := visiting_emplace (lit "b") new_world in
  do_preprocess files_missing hash_zero parent_same 0 w (lit "b")
    (lit "#pragma once") =
  Some (Returned {| content := []; has_pragma_once := true |}, w).
Proof.
  intros w.
  apply (revisit_returns_or_cycles files_missing hash_zero parent_same 0 w
           (lit "b") (lit "#pragma once")).
  - apply elem_of_union_l. now apply elem_of_singleton.
  - vm_compute. reflexivity.
Defined.


Lemma observe_Some {A : Type} (r : option (outcome A * World)) o vs ss rs sp :
  observe r = Some (o, vs, ss, rs, sp) ->
  exists w, r = Some (o, w)
    /\ elements (visiting (session w)) = vs
    /\ elements (should_skip (session w)) = ss
    /\ slurps (trace w) = rs
    /\ splices (trace w) = sp.
Proof.
  destruct r as [[o' w]|]; simpl; [|discriminate].
  intros [= -> <- <- <- <-]. now exists w.
Qed.

(** C3 as stated fails when an error propagates: [/c] cannot be read, and
    the run ends with [a.glsl] and [/b] still in [visiting]. *)
Lemma visiting_kept_when_error_propagates :
  exists w',
    do_preprocess files_missing hash_zero parent_same 2 new_world
      (lit "a.glsl") (lit "#include <b>")
    = Some (Thrown (runtime_error (lit "Cannot load file: /c")), w')
    /\ lit "a.glsl" ∈ visiting (session w')
    /\ lit "/b" ∈ visiting (session w').
Proof.
  assert (H : observe (do_preprocess files_missing hash_zero parent_same 2
                         new_world (lit "a.glsl") (lit "#include <b>"))
              = Some (Thrown (runtime_error (lit "Cannot load file: /c")),
                      [lit "a.glsl"; lit "/b"], [lit "/b"],
                      [lit "/c"; lit "/b"], []))
    by (vm_compute; reflexivity).
  apply observe_Some in H as (w' & -> & Hv & _).
  exists w'. split; [reflexivity|].
  split; apply elem_of_elements; rewrite Hv.
  - apply list_elem_of_here.
  - apply list_elem_of_further, list_elem_of_here.
Qed.

Lemma visiting_while_expanding_witness :
  exists N w',
    do_preprocess files_missing hash_zero parent_same 0 new_world
      (lit "/b") (lit "x") = Some (Returned {| content := lit "x"; has_pragma_once := false |}, w')
    /\ trace w' = N ++ []
    /\ visiting (session w') = ∅.
Proof.
  destruct (visiting_while_expanding files_missing hash_zero parent_same 0
              new_world (lit "/b") (lit "x")
              (Returned {| content := lit "x"; has_pragma_once := false |})
              (visiting_erase (lit "/b") (visiting_emplace (lit "/b") new_world)))
    as (N & HN & _ & Hv).
  - vm_compute. reflexivity.
  - apply not_elem_of_empty.
  - exists N, (visiting_erase (lit "/b") (visiting_emplace (lit "/b") new_world)).
    split; [vm_compute; reflexivity|]. split; [exact HN | exact Hv].
Defined.



(** A marker on the first line, followed by a comment. *)
Lemma once_marker_detected_on_raw_text_witness :
  exists r w',
    do_preprocess files_missing hash_zero parent_same 0 new_world (lit "b")
      (lit "#pragma once // note" ++ [LF] ++ lit "X") = Some (Returned r, w')
    /\ has_pragma_once r = true.
Proof.
  assert (H : match do_preprocess files_missing hash_zero parent_same 0 new_world
                      (lit "b") (lit "#pragma once // note" ++ [LF] ++ lit "X") with
              | Some (Returned _, _) => true
              | _ => false
              end = true)
    by (vm_compute; reflexivity).
  destruct (do_preprocess _ _ _ _ _ _ _) as [[[r|e|] w']|] eqn:Hrun;
    try discriminate H.
  exists r, w'. split; [reflexivity|].
  rewrite (proj1 (once_marker_detected_on_raw_text files_missing hash_zero
                    parent_same 0 new_world (lit "b") _ r w' Hrun)).
  vm_compute. reflexivity.
Defined.

(** C8 as stated fails: a once-marker that is commented out, by a block
    comment or by a line comment, is not detected. *)
Lemma commented_out_marker_not_detected :
  observe (do_preprocess files_missing hash_zero parent_same 0 new_world
             (lit "b")
             (lit "/*" ++ [LF] ++ lit "#pragma once" ++ [LF] ++ lit "*/X"))
  = Some (Returned {| content := lit "X"; has_pragma_once := false |},
          [], [], [], [])
  /\
  observe (do_preprocess files_missing hash_zero parent_same 0 new_world
             (lit "b") (lit "// #pragma once" ++ [LF] ++ lit "X"))
  = Some (Returned {| content := [LF] ++ lit "X"; has_pragma_once := false |},
          [], [], [], []).
Proof. split; vm_compute; reflexivity. Qed.

(** A block comment and a line comment that hold a directive: no file is
    read. *)
Lemma comments_hide_directives_witness :
  do_preprocess files_missing hash_zero parent_same 0 new_world (lit "a.glsl")
    (lit "int x; " ++ lit "/*" ++ lit " #include <c> /* " ++ lit "*/" ++ lit " int y;")
  = Some (Returned {| content := lit "int x; " ++ lit " int y;";
                      has_pragma_once := false |}, new_world)
  /\
  do_preprocess files_missing hash_zero parent_same 0 new_world (lit "a.glsl")
    (lit "int x; " ++ lit "//" ++ lit " #include <c>" ++ [LF] ++ lit "int y;")
  = Some (Returned {| content := lit "int x; " ++ [LF] ++ lit "int y;";
                      has_pragma_once := false |}, new_world).
Proof.
  assert (Hplain : forall t, forallb (fun c => negb (Ascii.eqb c "/"%char)
                                        && negb (Ascii.eqb c "#"%char)) t = true ->
                             plain t).
  { induction t as [|c t IH]; simpl; intros H.
    - split; apply not_elem_of_nil.
    - apply andb_true_iff in H as [Hc Ht]. apply andb_true_iff in Hc as [H1 H2].
      apply negb_true_iff, Ascii.eqb_neq in H1, H2.
      destruct (IH Ht) as [I1 I2].
      split; apply not_elem_of_cons; split; congruence. }
  split.
  - apply (comments_hide_directives files_missing hash_zero parent_same 0
             new_world (lit "a.glsl") (lit "int x; ") (lit " #include <c> /* ")
             (lit " int y;")).
    + apply not_elem_of_empty.
    + now apply Hplain.
    + now apply Hplain.
    + intros (a & b & Hab).
      assert (Hlen : length a < 17).
      { apply (f_equal (@length ascii)) in Hab. rewrite !length_app in Hab.
        simpl in Hab. lia. }
      do 17 (destruct a as [|? a]; [discriminate Hab|injection Hab as _ Hab]);
        simpl in Hlen; lia.
  - apply (comments_hide_directives files_missing hash_zero parent_same 0
             new_world (lit "a.glsl") (lit "int x; ") (lit " #include <c>")
             (lit "int y;")).
    + apply not_elem_of_empty.
    + now apply Hplain.
    + now apply Hplain.
    + intros H. repeat (apply elem_of_cons in H as [H|H]; [discriminate|]).
      inversion H.
    + intros H. repeat (apply elem_of_cons in H as [H|H]; [discriminate|]).
      inversion H.
    + left. discriminate.
Defined.

(** C7.  A directive inside a line comment is expanded when the second
    slash of the comment starts a block comment.  [a.glsl] is one line
    that starts with two slashes, so its directive is inside a line
    comment; the block comment that starts at the second slash is removed
    first, one slash is left, and the directive is expanded: [/b] is read
    and spliced in. *)
Lemma directive_in_line_comment_expanded :
  observe (main files_toggle hash_zero parent_same 1)
  = Some (Returned (lit "/ B" ++ [LF] ++ lit "Hello World!" ++ [LF]),
          [], [lit "/b"], [lit "/b"; lit "a.glsl"],
          [(lit "/b", false,
            {| content := lit "B"; has_pragma_once := false |}, lit "B")]).
Proof. vm_compute. reflexivity. Qed.



(** The sanitized identity of a path with separators, dots and
    underscores. *)
Example sanitized_identity_example :
  sanitized_identity (lit "/shaders//common_/light.glsl")
  = lit "shaders_common_light_glsl".
Proof. vm_compute. reflexivity. Qed.

(** * Further properties of the code *)

(** ** More fuel changes nothing *)

Section Fuel.

Variable files : str -> option str.
Variable path_hash : str -> N.
Variable parent_path : str -> str.

Lemma do_preprocess_steps_mono loop1 loop2 w f src r :
  (forall w0 s pos r0, loop1 w0 s pos = Some r0 -> loop2 w0 s pos = Some r0) ->
  do_preprocess_steps path_hash loop1 w f src = Some r ->
  do_preprocess_steps path_hash loop2 w f src = Some r.
Proof.
  intros Hloop.
  destruct (decide (generic_string f ∈ visiting (session w))) as [Hin|Hin].
  - now rewrite !do_preprocess_steps_again by exact Hin.
  - rewrite !do_preprocess_steps_fresh by exact Hin.
    destruct (loop1 _ _ _) as [r1|] eqn:H1; [|discriminate].
    now rewrite (Hloop _ _ _ _ H1).
Qed.

Lemma scan_mono fuel : forall fuel' w s pos r,
  fuel <= fuel' ->
  scan files path_hash parent_path fuel w s pos = Some r ->
  scan files path_hash parent_path fuel' w s pos = Some r.
Proof.
  induction fuel as [|fuel IH]; intros fuel' w s pos r Hle.
  - simpl. destruct (regex_search _ _) as [m|] eqn:Hm; [discriminate|].
    intros <-. destruct fuel'; simpl; now rewrite Hm.
  - destruct fuel' as [|fuel']; [lia|]. simpl.
    destruct (regex_search _ _) as [m|]; [|trivial].
    destruct (runtime_path_from_include_path _) as [p|]; [|trivial].
    destruct (slurp files _) as [raw|e|]; trivial.
    unfold do_preprocess_body. rewrite !with_guard_construct.
    destruct (do_preprocess_steps path_hash (scan _ _ _ fuel) _ _ _)
      as [[oc w3]|] eqn:Hd; [|discriminate].
    apply (do_preprocess_steps_mono _
             (scan files path_hash parent_path fuel')) in Hd.
    2:{ intros w0 s0 pos0 r0. apply IH. lia. }
    rewrite Hd. destruct oc as [child|e|]; trivial.
    apply IH. lia.
Qed.

Lemma do_preprocess_mono fuel fuel' w f src r :
  fuel <= fuel' ->
  do_preprocess files path_hash parent_path fuel w f src = Some r ->
  do_preprocess files path_hash parent_path fuel' w f src = Some r.
Proof.
  intros Hle. unfold do_preprocess, do_preprocess_body.
  rewrite !with_guard_construct.
  apply do_preprocess_steps_mono. intros w0 s pos r0. now apply scan_mono.
Qed.


End Fuel.

(** ** What every run does *)

Lemma slurps_app a b : slurps (a ++ b) = slurps a ++ slurps b.
Proof. unfold slurps. apply flat_map_app. Qed.

Lemma splices_app a b : splices (a ++ b) = splices a ++ splices b.
Proof. unfold splices. apply flat_map_app. Qed.

Section Invariants.

Variable files : str -> option str.
Variable path_hash : str -> N.

(** What an error that leaves a run says. *)
Lemma error_discipline :
  (forall w f src o w',
      Do files path_hash w f src o w' ->
      forall e, o = Thrown e ->
        (exists p V,
            e = runtime_error (lit "Cannot load file: " ++ p)
            /\ files p = None
            /\ head (trace w') = Some (Slurped p V))
        \/ (exists g,
               e = runtime_error (lit "Cyclic inclusion: " ++ g)
               /\ g ∈ visiting (session w')
               /\ ((g = f /\ f ∈ visiting (session w)
                    /\ snd (strip_pragma_once src) = false)
                   \/ exists raw, files g = Some raw
                                  /\ snd (strip_pragma_once raw) = false)))
  /\
  (forall w s pos o w',
      Scan files path_hash w s pos o w' ->
      forall e, o = Thrown e ->
        (exists p V,
            e = runtime_error (lit "Cannot load file: " ++ p)
            /\ files p = None
            /\ head (trace w') = Some (Slurped p V))
        \/ (exists g raw,
               e = runtime_error (lit "Cyclic inclusion: " ++ g)
               /\ g ∈ visiting (session w')
               /\ files g = Some raw
               /\ snd (strip_pragma_once raw) = false)).
Proof.
  apply Do_Scan_ind.
  - intros w f src _ _ e [=].
  - intros w f src Hin Honce e [= <-]. right. exists f. eauto 10.
  - intros w f src s w1 _ _ _ e [=].
  - intros w f src o w1 _ _ IH _ e He.
    destruct o as [r|e'|]; try discriminate He. injection He as <-.
    destruct (IH _ eq_refl) as [(p & V & H)|(g & raw & H1 & H2 & H3)].
    + left. now exists p, V.
    + right. exists g. eauto 10.
  - intros w s pos _ e [=].
  - intros w s pos m _ _ e [=].
  - intros w s pos m p _ _ Hf e [= <-]. left.
    exists p, (visiting (session w)). auto.
  - intros w s pos m p raw o w3 _ _ Hf _ IH _ e He.
    destruct o as [r|e'|]; try discriminate He. injection He as <-.
    destruct (IH _ eq_refl) as [(q & V & H)|(g & H1 & H2 & [(-> & _ & H3)|H3])].
    + left. now exists q, V.
    + right. exists p, raw. auto.
    + right. destruct H3 as (raw' & H3 & H4). exists g, raw'. auto.
  - intros w s pos m p raw child w3 o w4 _ _ _ _ _ _ IH e He. now apply IH.
Qed.

(** [should_skip] holds the files that were read. *)
Lemma skip_discipline :
  (forall w f src o w',
      Do files path_hash w f src o w' ->
      exists N, trace w' = N ++ trace w
        /\ forall c, c ∈ should_skip (session w') <->
                     c ∈ should_skip (session w)
                     \/ (c ∈ slurps N /\ is_Some (files c)))
  /\
  (forall w s pos o w',
      Scan files path_hash w s pos o w' ->
      exists N, trace w' = N ++ trace w
        /\ forall c, c ∈ should_skip (session w') <->
                     c ∈ should_skip (session w)
                     \/ (c ∈ slurps N /\ is_Some (files c))).
Proof.
  assert (Hnil : forall w : World,
             exists N, trace w = N ++ trace w
               /\ forall c, c ∈ should_skip (session w) <->
                            c ∈ should_skip (session w)
                            \/ (c ∈ slurps N /\ is_Some (files c))).
  { intros w. exists []. split; [reflexivity|]. intros c. simpl.
    rewrite elem_of_nil. tauto. }
  apply Do_Scan_ind.
  - intros. apply Hnil.
  - intros. apply Hnil.
  - intros w f src s w1 _ _ (N & HN & Hs). now exists N.
  - intros w f src o w1 _ _ (N & HN & Hs) _. now exists N.
  - intros. apply Hnil.
  - intros. apply Hnil.
  - intros w s pos m p _ _ Hf. exists [Slurped p (visiting (session w))].
    split; [reflexivity|]. intros c. simpl.
    rewrite list_elem_of_singleton. split; [tauto|].
    intros [H|[-> [x Hx]]]; [exact H|congruence].
  - intros w s pos m p raw o w3 _ _ Hf _ (N & HN & Hs) _.
    exists (N ++ [Slurped p (visiting (session w))]).
    rewrite register_trace in HN. simpl in HN.
    split; [rewrite HN; now rewrite <- app_assoc|].
    intros c. rewrite Hs, (register_should_skip files path_hash), slurps_app. simpl.
    rewrite elem_of_union, elem_of_singleton, elem_of_app,
      list_elem_of_singleton.
    split; [|tauto]. intros [[->|H]|H]; [|tauto|tauto].
    right. split; [now right|]. now rewrite Hf.
  - intros w s pos m p raw child w3 o w4 _ _ Hf _ (N & HN & Hs) _
      (N' & HN' & Hs').
    exists (N' ++ Spliced p (seen p w) child (replacement_of child (seen p w))
               :: N ++ [Slurped p (visiting (session w))]).
    rewrite register_trace in HN. simpl in HN, HN'.
    split.
    { rewrite HN', HN. rewrite <- !app_assoc. simpl. now rewrite <- app_assoc. }
    intros c. rewrite Hs'. simpl. rewrite Hs, (register_should_skip files path_hash). simpl.
    change (?e :: ?l ++ ?l') with ([e] ++ l ++ l').
    rewrite !slurps_app. simpl.
    rewrite elem_of_union, elem_of_singleton, !elem_of_app,
      list_elem_of_singleton.
    split; [|tauto]. intros [[[->|H]|H]|H]; try tauto.
    right. split; [tauto|]. now rewrite Hf.
Qed.

(** A run that returns has read one file for every directive it
    replaced. *)
Lemma read_discipline :
  (forall w f src o w',
      Do files path_hash w f src o w' -> ~ failed o ->
      exists N, trace w' = N ++ trace w
        /\ slurps N ≡ₚ map (fun x => x.1.1.1) (splices N))
  /\
  (forall w s pos o w',
      Scan files path_hash w s pos o w' -> ~ failed o ->
      exists N, trace w' = N ++ trace w
        /\ slurps N ≡ₚ map (fun x => x.1.1.1) (splices N)).
Proof.
  apply Do_Scan_ind.
  - intros w f src _ _ _. now exists [].
  - intros w f src _ _ Hnf. exfalso. apply Hnf. exact I.
  - intros w f src s w1 _ _ IH _. destruct IH as (N & HN & HP); [tauto|].
    now exists N.
  - intros w f src o w1 _ _ _ Hfail Hnf. exfalso. apply Hnf.
    destruct o; simpl in *; tauto.
  - intros w s pos _ _. now exists [].
  - intros w s pos m _ _ Hnf. exfalso. apply Hnf. exact I.
  - intros w s pos m p _ _ _ Hnf. exfalso. apply Hnf. exact I.
  - intros w s pos m p raw o w3 _ _ _ _ _ Hfail Hnf. exfalso. apply Hnf.
    destruct o; simpl in *; tauto.
  - intros w s pos m p raw child w3 o w4 _ _ _ _ IHd _ IHs Hnf.
    destruct IHd as (N & HN & HP); [tauto|].
    destruct (IHs Hnf) as (N' & HN' & HP').
    exists (N' ++ Spliced p (seen p w) child (replacement_of child (seen p w))
               :: N ++ [Slurped p (visiting (session w))]).
    rewrite register_trace in HN. simpl in HN, HN'.
    split.
    { rewrite HN', HN. rewrite <- !app_assoc. simpl. now rewrite <- app_assoc. }
    change (?e :: ?l ++ ?l') with ([e] ++ l ++ l').
    rewrite !slurps_app, !splices_app, !map_app. simpl.
    rewrite HP, HP', !app_nil_r.
    apply Permutation_app_head. symmetry. apply Permutation_cons_append.
Qed.


End Invariants.

(** ** The loop always moves on *)

Lemma include_here_prefix s whole g1 rest :
  include_here s = Some (whole, g1, rest) -> s = whole ++ rest /\ whole <> [].
Proof.
  unfold include_here.
  destruct (strip_prefix (lit "#include") s) as [t|] eqn:Hp; [|discriminate].
  apply strip_prefix_Some in Hp. subst s.
  pose proof (take_drop_while is_space t) as Ht.
  destruct (drop_while is_space t) as [|d u] eqn:Hd; [discriminate|].
  destruct (Ascii.eqb d DQUOTE).
  - pose proof (take_drop_while (is_not_char DQUOTE) u) as Hu.
    destruct (take_while (is_not_char DQUOTE) u) as [|b body]; [discriminate|].
    destruct (drop_while (is_not_char DQUOTE) u) as [|e rest']; [discriminate|].
    intros [= <- <- <-]. split; [|discriminate].
    rewrite <- Hu in Ht. symmetry in Ht.
    etransitivity; [exact (f_equal (app (lit "#include")) Ht)|]. str_eq.
  - destruct (Ascii.eqb d "<"%char); [|discriminate].
    pose proof (take_drop_while (is_not_char ">"%char) u) as Hu.
    destruct (drop_while (is_not_char ">"%char) u) as [|e rest']; [discriminate|].
    intros [= <- <- <-]. split; [|discriminate].
    rewrite <- Hu in Ht. symmetry in Ht.
    etransitivity; [exact (f_equal (app (lit "#include")) Ht)|]. str_eq.
Qed.

(** What a successful search for a directive says about the text. *)
Lemma regex_search_include_shape s m :
  regex_search include_directive_re s = Some m ->
  s = m_prefix m ++ m_str0 m ++ ahead (m_end m)
  /\ include_here (m_str0 m ++ ahead (m_end m))
     = Some (m_str0 m, m_str1 m, ahead (m_end m)).
Proof.
  rewrite (regex_search_direct _ _ match_here_include).
  destruct (dsearch include_here s) as [[[[pre whole] g1] rest]|] eqn:Hd;
    [|discriminate].
  intros [= <-]. simpl.
  apply dsearch_here in Hd as (t & -> & Hh).
  destruct (include_here_prefix _ _ _ _ Hh) as [-> _]. now split.
Qed.

Lemma c_str_prefix s : exists tail, s = c_str s ++ tail.
Proof.
  induction s as [|c t [tail IH]]; [now exists []|]. simpl.
  destruct (Ascii.eqb c NUL).
  - now exists (c :: t).
  - exists tail. simpl. now rewrite <- IH.
Qed.

(** After a directive is replaced the loop looks at what followed the
    directive. *)
Lemma skipn_replace s pos pre whole rest rep :
  skipn pos s = pre ++ whole ++ rest -> whole <> [] ->
  skipn (pos + length pre + length rep)
        (replace s (pos + length pre) (length whole) rep) = rest.
Proof.
  intros Hs Hw. unfold replace.
  assert (Hlen : pos + length pre + length whole + length rest = length s).
  { apply (f_equal (@length ascii)) in Hs.
    rewrite length_skipn, !length_app in Hs.
    destruct whole; [contradiction|]. simpl in Hs. simpl. lia. }
  rewrite app_assoc, skipn_app.
  rewrite length_app, length_firstn.
  replace (Init.Nat.min (pos + length pre) (length s)) with (pos + length pre) by lia.
  rewrite Nat.sub_diag. cbn [skipn].
  rewrite skipn_all2 by (rewrite length_app, length_firstn; lia).
  cbn [app].
  replace (pos + length pre + length whole)
    with ((length pre + length whole) + pos) by lia.
  rewrite <- skipn_skipn, Hs, app_assoc.
  rewrite skipn_app, <- length_app, skipn_all, Nat.sub_diag. reflexivity.
Qed.

Section Termination.

Variable files : str -> option str.
Variable path_hash : str -> N.
Variable parent_path : str -> str.

(** The files that exist. *)
Variable F : gset str.
Hypothesis F_all : forall p, is_Some (files p) -> p ∈ F.

Lemma scan_terminates : forall n k w s pos,
  size (F ∖ visiting (session w)) <= n ->
  length (skipn pos s) <= k ->
  exists fuel o w',
    scan files path_hash parent_path fuel w s pos = Some (o, w').
Proof.
  induction n as [n IHn] using lt_wf_ind.
  induction k as [k IHk] using lt_wf_ind.
  intros w s pos Hn Hk.
  destruct (regex_search include_directive_re (c_str (skipn pos s)))
    as [m|] eqn:Hm.
  2:{ exists 0, (Returned s), w. simpl. now rewrite Hm. }
  destruct (runtime_path_from_include_path (m_str1 m)) as [p0|] eqn:Hp.
  2:{ exists 1, Aborted, w. simpl. now rewrite Hm, Hp. }
  set (p := generic_string p0).
  destruct (files p) as [raw|] eqn:Hf.
  2:{ eexists 1, _, _. simpl. rewrite Hm, Hp.
      unfold slurp. fold p. now rewrite Hf. }
  (* where the loop goes on after the directive *)
  assert (Hnext : forall rep w3,
             visiting (session w3) = visiting (session w) ->
             exists fuel o w',
               scan files path_hash parent_path fuel w3
                 (replace s (pos + m_position m) (m_length m) rep)
                 (pos + m_position m + length rep) = Some (o, w')).
  { intros rep w3 Hv.
    destruct (regex_search_include_shape _ _ Hm) as [Hshape Hh].
    apply include_here_prefix in Hh as [_ Hne].
    destruct (c_str_prefix (skipn pos s)) as [tail Htail].
    rewrite Hshape, <- !app_assoc in Htail.
    pose proof (skipn_replace s pos _ _ _ rep Htail Hne) as Hskip.
    apply (IHk (length (ahead (m_end m) ++ tail))).
    - apply (f_equal (@length ascii)) in Htail. rewrite !length_app in Htail.
      rewrite length_app. destruct (m_str0 m); [contradiction|].
      simpl in Htail. lia.
    - now rewrite Hv.
    - unfold m_position, m_length. now rewrite Hskip. }
  set (w1 := register p (log (Slurped p (visiting (session w))) w)).
  assert (Hstep : forall fuel,
             scan files path_hash parent_path (S fuel) w s pos =
             match do_preprocess files path_hash parent_path fuel w1 p0 raw with
             | None => None
             | Some (Aborted, w3) => Some (Aborted, w3)
             | Some (Thrown e, w3) => Some (Thrown e, w3)
             | Some (Returned child, w3) =>
                 scan files path_hash parent_path fuel
                   (log (Spliced p (seen p w) child
                           (replacement_of child (seen p w))) w3)
                   (replace s (pos + m_position m) (m_length m)
                            (replacement_of child (seen p w)))
                   (pos + m_position m + length (replacement_of child (seen p w)))
             end).
  { intros fuel. simpl. rewrite Hm, Hp. unfold slurp. fold p.
    rewrite Hf. reflexivity. }
  assert (Hchild : exists fuel o w3,
             do_preprocess files path_hash parent_path fuel w1 p0 raw
             = Some (o, w3)).
  { unfold do_preprocess, do_preprocess_body. fold p.
    destruct (decide (p ∈ visiting (session w1))) as [Hin|Hin].
    - eexists 0, _, _.
      rewrite with_guard_construct, do_preprocess_steps_again by exact Hin.
      reflexivity.
    - assert (HpF : p ∈ F) by (apply F_all; now rewrite Hf).
      unfold w1 in Hin. rewrite register_visiting in Hin. simpl in Hin.
      assert (Hlt : size (F ∖ ({[ p ]} ∪ visiting (session w)))
                    < size (F ∖ visiting (session w))).
      { apply subset_size. set_solver. }
      destruct (IHn (size (F ∖ ({[ p ]} ∪ visiting (session w)))) ltac:(lia)
                  (length (skipn 0 (strip_comments (fst (strip_pragma_once raw)))))
                  (visiting_emplace p w1)
                  (strip_comments (fst (strip_pragma_once raw))) 0)
        as (fuel & o & w3 & Hs).
      { unfold w1. simpl. rewrite register_visiting. simpl. lia. }
      { lia. }
      exists fuel.
      rewrite with_guard_construct, do_preprocess_steps_fresh.
      2:{ unfold w1. now rewrite register_visiting. }
      fold p. rewrite Hs. destruct o; eauto. }
  destruct Hchild as (fuel1 & oc & w3 & Hc).
  destruct oc as [child|e|].
  - pose proof (do_preprocess_sound _ _ _ _ _ _ _ _ _ Hc) as Hdo.
    apply (proj1 (visiting_discipline files path_hash)) in Hdo
      as (_ & _ & _ & Hvis & _).
    specialize (Hvis (fun x => x)). unfold w1 in Hvis.
    rewrite register_visiting in Hvis. simpl in Hvis.
    destruct (Hnext (replacement_of child (seen p w))
                (log (Spliced p (seen p w) child
                        (replacement_of child (seen p w))) w3) Hvis)
      as (fuel2 & o & w4 & Hs).
    exists (S (Nat.max fuel1 fuel2)), o, w4. rewrite Hstep.
    rewrite (do_preprocess_mono _ _ _ _ _ _ _ _ _ (Nat.le_max_l _ _) Hc).
    apply (scan_mono _ _ _ _ _ _ _ _ _ (Nat.le_max_r _ _) Hs).
  - exists (S fuel1), (Thrown e), w3. now rewrite Hstep, Hc.
  - exists (S fuel1), Aborted, w3. now rewrite Hstep, Hc.
Qed.

Lemma do_preprocess_ends w filename source :
  exists fuel o w',
    o <> Aborted
    /\ forall fuel', fuel <= fuel' ->
         do_preprocess files path_hash parent_path fuel' w filename source
         = Some (o, w').
Proof.
  assert (H : exists fuel o w',
             do_preprocess files path_hash parent_path fuel w filename source
             = Some (o, w')).
  { unfold do_preprocess, do_preprocess_body.
    destruct (decide (generic_string filename ∈ visiting (session w)))
      as [Hin|Hin].
    - eexists 0, _, _.
      rewrite with_guard_construct, do_preprocess_steps_again by exact Hin.
      reflexivity.
    - destruct (scan_terminates _ _
                  (visiting_emplace (generic_string filename) w)
                  (strip_comments (fst (strip_pragma_once source))) 0
                  (Nat.le_refl _) (Nat.le_refl _))
        as (fuel & o & w3 & Hs).
      exists fuel.
      rewrite with_guard_construct, do_preprocess_steps_fresh by exact Hin.
      rewrite Hs. destruct o; eauto. }
  destruct H as (fuel & o & w' & H). exists fuel, o, w'. split.
  - intros ->. now apply do_preprocess_never_aborts in H.
  - intros fuel' Hle. now apply (do_preprocess_mono _ _ _ fuel).
Qed.

(** X1.  On a file system with finitely many files every call of
    [do_preprocess] ends: from some amount of fuel on it returns or throws,
    whatever the texts are and however the files include each other.  It
    does not end in a failed assertion. *)
Theorem do_preprocess_terminates w filename source :
  exists fuel o w',
    o <> Aborted
    /\ forall fuel', fuel <= fuel' ->
         do_preprocess files path_hash parent_path fuel' w filename source
         = Some (o, w').
Proof. apply do_preprocess_ends. Qed.

(** X16.  On a file system with finitely many files [main] ends.  It
    prints the result for [a.glsl], a newline and the greeting, and leaves
    [visiting] empty; or it ends with an uncaught error: a file that
    cannot be loaded, [a.glsl] itself when that is missing, or a cyclic
    inclusion of a file that has no once-marker. *)
Theorem main_prints_or_throws :
  exists fuel o w',
    (forall fuel', fuel <= fuel' ->
       main files path_hash parent_path fuel' = Some (o, w'))
    /\ (files (lit "a.glsl") = None ->
        o = Thrown (runtime_error (lit "Cannot load file: a.glsl")))
    /\ match o with
       | Returned out =>
           exists r source,
             files (lit "a.glsl") = Some source
             /\ (forall fuel', fuel <= fuel' ->
                   do_preprocess files path_hash parent_path fuel'
                     (log (Slurped (lit "a.glsl") ∅) new_world)
                     (lit "a.glsl") source = Some (Returned r, w'))
             /\ out = content r ++ [LF] ++ lit "Hello World!" ++ [LF]
             /\ visiting (session w') = ∅
       | Thrown e =>
           (exists p, e = runtime_error (lit "Cannot load file: " ++ p)
                      /\ files p = None)
           \/ (exists g raw,
                  e = runtime_error (lit "Cyclic inclusion: " ++ g)
                  /\ g ∈ visiting (session w')
                  /\ files g = Some raw
                  /\ snd (strip_pragma_once raw) = false)
       | Aborted => False
       end.
Proof.
  unfold main, slurp.
  destruct (files (lit "a.glsl")) as [source|] eqn:Hf.
  - destruct (do_preprocess_ends (log (Slurped (lit "a.glsl") ∅) new_world)
                (lit "a.glsl") source) as (fuel & o & w' & Hna & Hrun).
    pose proof (do_preprocess_sound _ _ _ _ _ _ _ _ _ (Hrun fuel (Nat.le_refl _)))
      as Hdo.
    destruct o as [r|e|].
    + exists fuel, (Returned (content r ++ [LF] ++ lit "Hello World!" ++ [LF])), w'.
      conjs.
      * intros fuel' Hle. now rewrite (Hrun fuel' Hle).
      * discriminate.
      * exists r, source. conjs; [reflexivity | exact Hrun | reflexivity |].
        apply (proj1 (visiting_discipline files path_hash)) in Hdo
          as (_ & _ & _ & Hv & _).
        now rewrite Hv by (simpl; tauto).
    + exists fuel, (Thrown e), w'. conjs.
      * intros fuel' Hle. now rewrite (Hrun fuel' Hle).
      * discriminate.
      * destruct (proj1 (error_discipline files path_hash) _ _ _ _ _ Hdo e eq_refl)
          as [(p & V & -> & Hp & _)|(g & -> & Hg & [(_ & Hin & _)|(raw & H1 & H2)])].
        -- left. now exists p.
        -- simpl in Hin. now apply not_elem_of_empty in Hin.
        -- right. now exists g, raw.
    + contradiction.
  - exists 0, (Thrown (runtime_error (lit "Cannot load file: " ++ lit "a.glsl"))),
      (log (Slurped (lit "a.glsl") ∅) new_world).
    conjs.
    + reflexivity.
    + reflexivity.
    + left. now exists (lit "a.glsl").
Qed.

End Termination.

(** The files of a file system given by a list. *)
Lemma files_of_finite l p :
  is_Some (files_of l p) -> p ∈ list_to_set (C := gset str) (map fst l).
Proof.
  unfold files_of. intros [raw H].
  destruct (find _ l) as [e|] eqn:He; [|discriminate].
  apply find_some in He as [Hin Hp].
  apply bool_decide_eq_true in Hp. subst p.
  apply elem_of_list_to_set, list_elem_of_In, in_map, Hin.
Qed.

Lemma do_preprocess_terminates_witness :
  exists fuel o w',
    o <> Aborted
    /\ forall fuel', fuel <= fuel' ->
         do_preprocess files_twice hash_zero parent_same fuel' new_world
           (lit "a.glsl")
           (lit "#include " ++ quoted "b" ++ [LF] ++
            lit "#include " ++ quoted "b" ++ [LF])
         = Some (o, w').
Proof.
  apply (do_preprocess_terminates files_twice hash_zero parent_same
           (list_to_set [lit "a.glsl"; lit "b"])).
  intros p. apply files_of_finite.
Defined.

Lemma main_prints_or_throws_witness :
  exists fuel o w',
    (forall fuel', fuel <= fuel' ->
       main files_twice hash_zero parent_same fuel' = Some (o, w'))
    /\ (files_twice (lit "a.glsl") = None ->
        o = Thrown (runtime_error (lit "Cannot load file: a.glsl")))
    /\ match o with
       | Returned out =>
           exists r source,
             files_twice (lit "a.glsl") = Some source
             /\ (forall fuel', fuel <= fuel' ->
                   do_preprocess files_twice hash_zero parent_same fuel'
                     (log (Slurped (lit "a.glsl") ∅) new_world)
                     (lit "a.glsl") source = Some (Returned r, w'))
             /\ out = content r ++ [LF] ++ lit "Hello World!" ++ [LF]
             /\ visiting (session w') = ∅
       | Thrown e =>
           (exists p, e = runtime_error (lit "Cannot load file: " ++ p)
                      /\ files_twice p = None)
           \/ (exists g raw,
                  e = runtime_error (lit "Cyclic inclusion: " ++ g)
                  /\ g ∈ visiting (session w')
                  /\ files_twice g = Some raw
                  /\ snd (strip_pragma_once raw) = false)
       | Aborted => False
       end.
Proof.
  apply (main_prints_or_throws files_twice hash_zero parent_same
           (list_to_set [lit "a.glsl"; lit "b"])).
  intros p. apply files_of_finite.
Defined.


Section Facts.

Variable files : str -> option str.
Variable path_hash : str -> N.
Variable parent_path : str -> str.

(** X2.  A call of [do_preprocess] that does not return has thrown one of
    two errors.  [Cannot load file] names a file that does not exist, and
    reading it was the last thing the run did.  [Cyclic inclusion] names a
    file that is being expanded and whose text has no once-marker: the
    file of the call itself when it was already being expanded on entry,
    or a file that exists.  The run does not end in a failed assertion. *)
Theorem failure_is_missing_file_or_cycle fuel w filename source o w' :
  do_preprocess files path_hash parent_path fuel w filename source
    = Some (o, w') ->
  failed o ->
  exists e, o = Thrown e
    /\ ((exists p V,
           e = runtime_error (lit "Cannot load file: " ++ p)
           /\ files p = None
           /\ head (trace w') = Some (Slurped p V))
        \/ (exists g,
              e = runtime_error (lit "Cyclic inclusion: " ++ g)
              /\ g ∈ visiting (session w')
              /\ ((g = generic_string filename
                   /\ generic_string filename ∈ visiting (session w)
                   /\ snd (strip_pragma_once source) = false)
                  \/ exists raw, files g = Some raw
                                 /\ snd (strip_pragma_once raw) = false))).
Proof.
  intros Hrun Hfail. destruct o as [r|e|].
  - contradiction.
  - exists e. split; [reflexivity|].
    apply do_preprocess_sound in Hrun.
    now apply (proj1 (error_discipline files path_hash) _ _ _ _ _ Hrun).
  - now apply do_preprocess_never_aborts in Hrun.
Qed.

(** X3.  After a call of [do_preprocess], however it ends, [should_skip]
    holds what it held before and the files the call has read: every file
    named by a directive that exists, whether or not it has the
    once-marker.  Nothing is removed from it. *)
Theorem should_skip_holds_the_files_read fuel w filename source o w' :
  do_preprocess files path_hash parent_path fuel w filename source
    = Some (o, w') ->
  exists N, trace w' = N ++ trace w
    /\ forall c, c ∈ should_skip (session w') <->
                 c ∈ should_skip (session w)
                 \/ (c ∈ slurps N /\ is_Some (files c)).
Proof.
  intros Hrun. apply do_preprocess_sound in Hrun.
  now apply (proj1 (skip_discipline files path_hash)) in Hrun.
Qed.

(** X4.  A call that returns has read one file for each directive it
    replaced, also for the directives it replaced by the empty string: the
    files read and the files of the replaced directives are the same, with
    the same multiplicities. *)
Theorem one_read_per_directive fuel w filename source r w' :
  do_preprocess files path_hash parent_path fuel w filename source
    = Some (Returned r, w') ->
  exists N, trace w' = N ++ trace w
    /\ slurps N ≡ₚ map (fun x => x.1.1.1) (splices N).
Proof.
  intros Hrun. apply do_preprocess_sound in Hrun.
  apply (proj1 (read_discipline files path_hash)) in Hrun; [exact Hrun|].
  simpl. tauto.
Qed.


End Facts.

Lemma failure_is_missing_file_or_cycle_witness :
  exists o w',
    do_preprocess files_missing hash_zero parent_same 2 new_world
      (lit "a.glsl") (lit "#include <b>") = Some (o, w')
    /\ exists e, o = Thrown e
    /\ ((exists p V,
           e = runtime_error (lit "Cannot load file: " ++ p)
           /\ files_missing p = None
           /\ head (trace w') = Some (Slurped p V))
        \/ (exists g,
              e = runtime_error (lit "Cyclic inclusion: " ++ g)
              /\ g ∈ visiting (session w')
              /\ ((g = generic_string (lit "a.glsl")
                   /\ generic_string (lit "a.glsl")
                        ∈ visiting (session new_world)
                   /\ snd (strip_pragma_once (lit "#include <b>")) = false)
                  \/ exists raw, files_missing g = Some raw
                                 /\ snd (strip_pragma_once raw) = false))).
Proof.
  assert (H : match do_preprocess files_missing hash_zero parent_same 2
                      new_world (lit "a.glsl") (lit "#include <b>") with
              | Some (Thrown _, _) => true
              | _ => false
              end = true)
    by (vm_compute; reflexivity).
  destruct (do_preprocess _ _ _ _ _ _ _) as [[[r|e|] w']|] eqn:Hrun;
    try discriminate H.
  exists (Thrown e), w'. split; [reflexivity|].
  apply (failure_is_missing_file_or_cycle files_missing hash_zero parent_same
           2 new_world (lit "a.glsl") (lit "#include <b>") _ _ Hrun).
  exact I.
Defined.

Lemma should_skip_holds_the_files_read_witness :
  exists o w',
    do_preprocess files_missing hash_zero parent_same 2 new_world
      (lit "a.glsl") (lit "#include <b>") = Some (o, w')
    /\ exists N, trace w' = N ++ []
    /\ forall c, c ∈ should_skip (session w') <->
                 c ∈ (∅ : gset str)
                 \/ (c ∈ slurps N /\ is_Some (files_missing c)).
Proof.
  assert (H : match do_preprocess files_missing hash_zero parent_same 2
                      new_world (lit "a.glsl") (lit "#include <b>") with
              | Some _ => true
              | _ => false
              end = true)
    by (vm_compute; reflexivity).
  destruct (do_preprocess _ _ _ _ _ _ _) as [[o w']|] eqn:Hrun;
    try discriminate H.
  exists o, w'. split; [reflexivity|].
  apply (should_skip_holds_the_files_read files_missing hash_zero parent_same
           2 new_world (lit "a.glsl") (lit "#include <b>") _ _ Hrun).
Defined.

Lemma one_read_per_directive_witness :
  exists r w',
    do_preprocess files_twice hash_zero parent_same 2 new_world (lit "a.glsl")
      (lit "#include " ++ quoted "b" ++ [LF] ++
       lit "#include " ++ quoted "b" ++ [LF]) = Some (Returned r, w')
    /\ exists N, trace w' = N ++ []
    /\ slurps N ≡ₚ map (fun x => x.1.1.1) (splices N).
Proof.
  assert (H : match do_preprocess files_twice hash_zero parent_same 2 new_world
                      (lit "a.glsl")
                      (lit "#include " ++ quoted "b" ++ [LF] ++
                       lit "#include " ++ quoted "b" ++ [LF]) with
              | Some (Returned _, _) => true
              | _ => false
              end = true)
    by (vm_compute; reflexivity).
  destruct (do_preprocess _ _ _ _ _ _ _) as [[[r|e|] w']|] eqn:Hrun;
    try discriminate H.
  exists r, w'. split; [reflexivity|].
  apply (one_read_per_directive files_twice hash_zero parent_same 2
           new_world (lit "a.glsl") _ r w' Hrun).
Defined.


(** ** Texts without directives, and texts with one *)

Lemma occurs_app_l w a t : occurs w t -> occurs w (a ++ t).
Proof. intros (x & y & ->). exists (a ++ x), y. now rewrite <- app_assoc. Qed.

Lemma occurs_app_r w t b : occurs w t -> occurs w (t ++ b).
Proof.
  intros (x & y & ->). exists x, (y ++ b). now rewrite <- !app_assoc.
Qed.

Lemma occurs_elem w c u t : occurs (c :: u) t -> w = c -> w ∈ t.
Proof.
  intros (x & y & ->) ->. apply elem_of_app. right. apply list_elem_of_here.
Qed.

Lemma pragma_here_without_hash s : "#"%char ∉ s -> pragma_here s = None.
Proof.
  intros Hs. destruct (pragma_here s) as [[whole rest]|] eqn:Hh; [|reflexivity].
  apply pragma_here_Some in Hh as (-> & ws1 & ws2 & -> & _).
  exfalso. apply Hs. rewrite <- !app_assoc.
  apply elem_of_app. right. apply list_elem_of_here.
Qed.

Lemma pragma_here_before p c t :
  "#"%char ∉ p -> is_space c = false -> c <> "#"%char ->
  pragma_here (p ++ c :: t) = None.
Proof.
  intros Hp Hc Hh. unfold pragma_here. cbv zeta.
  assert (H : strip_prefix (lit "#pragma")
                (drop_while is_space (p ++ c :: t)) = None).
  { induction p as [|d p IH].
    - cbn [app drop_while]. rewrite Hc. simpl.
      now rewrite (proj2 (Ascii.eqb_neq c "#"%char)).
    - apply not_elem_of_cons in Hp as [Hd Hp]. cbn [app drop_while].
      destruct (is_space d); [now apply IH|].
      simpl. rewrite (proj2 (Ascii.eqb_neq d "#"%char)); [reflexivity|congruence]. }
  now rewrite H.
Qed.

Lemma pragma_here_before_include p t :
  "#"%char ∉ p -> pragma_here (p ++ lit "#include" ++ t) = None.
Proof.
  intros Hp. unfold pragma_here. cbv zeta.
  assert (H : strip_prefix (lit "#pragma")
                (drop_while is_space (p ++ lit "#include" ++ t)) = None).
  { induction p as [|d p IH].
    - reflexivity.
    - apply not_elem_of_cons in Hp as [Hd Hp]. cbn [app drop_while].
      destruct (is_space d); [now apply IH|].
      simpl. rewrite (proj2 (Ascii.eqb_neq d "#"%char)); [reflexivity|congruence]. }
  now rewrite H.
Qed.

Lemma strip_comments_elem x s : x ∈ strip_comments s -> x ∈ s.
Proof.
  unfold strip_comments.
  rewrite strip_line_comments_direct, strip_block_comments_direct.
  intros H. apply (dreplace_elem _ line_here_prefix) in H.
  now apply (dreplace_elem _ block_here_prefix) in H.
Qed.

Lemma dsearch_none here s :
  (forall a t, s = a ++ t -> here t = None) -> dsearch here s = None.
Proof.
  induction s as [|c s IH]; intros H; simpl.
  - now rewrite (H [] [] eq_refl).
  - rewrite (H [] (c :: s) eq_refl), IH; [reflexivity|].
    intros a t ->. now apply (H (c :: a) t).
Qed.

Lemma dreplace_none here n fmt s :
  dsearch here s = None -> dreplace here n fmt s = s.
Proof. intros H. destruct n; simpl; [reflexivity|]. now rewrite H. Qed.

Lemma block_here_occurs t whole g1 rest :
  block_here t = Some (whole, g1, rest) ->
  occurs (lit "/*") t /\ occurs (lit "*/") t.
Proof.
  unfold block_here.
  destruct (strip_prefix (lit "/*") t) as [u|] eqn:Hp; [|discriminate].
  apply strip_prefix_Some in Hp as ->.
  destruct (find_close u) as [[body r]|] eqn:Hc; [|discriminate].
  intros _. apply find_close_Some in Hc as ->. split.
  - now exists [], (body ++ lit "*/" ++ r).
  - exists (lit "/*" ++ body), r. now rewrite <- app_assoc.
Qed.

Lemma line_here_occurs t whole g1 rest :
  line_here t = Some (whole, g1, rest) -> occurs (lit "//") t.
Proof.
  unfold line_here.
  destruct (strip_prefix (lit "//") t) as [u|] eqn:Hp; [|discriminate].
  apply strip_prefix_Some in Hp as ->. intros _. now exists [], u.
Qed.

Lemma strip_block_comments_none s :
  ~ occurs (lit "/*") s \/ ~ occurs (lit "*/") s -> strip_block_comments s = s.
Proof.
  intros H. rewrite strip_block_comments_direct. apply dreplace_none.
  apply dsearch_none. intros a t ->.
  destruct (block_here t) as [[[whole g1] rest]|] eqn:Hh; [|reflexivity].
  apply block_here_occurs in Hh as [H1 H2].
  destruct H as [H|H]; exfalso; apply H; now apply occurs_app_l.
Qed.

Lemma strip_line_comments_none s :
  ~ occurs (lit "//") s -> strip_line_comments s = s.
Proof.
  intros H. rewrite strip_line_comments_direct. apply dreplace_none.
  apply dsearch_none. intros a t ->.
  destruct (line_here t) as [[[whole g1] rest]|] eqn:Hh; [|reflexivity].
  apply line_here_occurs in Hh. exfalso. apply H. now apply occurs_app_l.
Qed.

Lemma c_str_app a t : NUL ∉ a -> c_str (a ++ t) = a ++ c_str t.
Proof.
  induction a as [|c a IH]; intros Ha; [reflexivity|].
  apply not_elem_of_cons in Ha as [Hc Ha]. cbn [app c_str].
  rewrite (proj2 (Ascii.eqb_neq c NUL)) by congruence.
  now rewrite IH.
Qed.

Lemma c_str_before_nul x a t : x ∈ c_str (a ++ NUL :: t) -> x ∈ a.
Proof.
  induction a as [|c a IH]; cbn [app c_str].
  - rewrite Ascii.eqb_refl. intros H. inversion H.
  - destruct (Ascii.eqb c NUL); [intros H; inversion H|].
    rewrite !elem_of_cons. intros [H|H]; [now left|right; eauto].
Qed.

Lemma c_str_nul t : c_str (NUL :: t) = [].
Proof. reflexivity. Qed.

Lemma dsearch_skip here (ch : ascii) :
  (forall s whole g1 rest, here s = Some (whole, g1, rest) -> head s = Some ch) ->
  forall p t whole g1 rest,
    ch ∉ p -> here t = Some (whole, g1, rest) ->
    dsearch here (p ++ t) = Some (p, whole, g1, rest).
Proof.
  intros Hhead p t whole g1 rest Hp Ht.
  induction p as [|c p IH]; cbn [app].
  - destruct t; simpl; now rewrite Ht.
  - apply not_elem_of_cons in Hp as [Hc Hp]. simpl.
    destruct (here (c :: p ++ t)) as [[[wh g] r]|] eqn:Hh.
    + apply Hhead in Hh. simpl in Hh. congruence.
    + now rewrite IH.
Qed.

Lemma replace_app a b c r :
  replace (a ++ b ++ c) (length a) (length b) r = a ++ r ++ c.
Proof.
  unfold replace. rewrite firstn_app, firstn_all, Nat.sub_diag, firstn_O.
  rewrite app_nil_r, (app_assoc a b c), <- length_app, skipn_app, skipn_all.
  now rewrite Nat.sub_diag.
Qed.

Section Texts.

Variable files : str -> option str.
Variable path_hash : str -> N.
Variable parent_path : str -> str.

Lemma scan_without_hash fuel w s pos :
  "#"%char ∉ c_str (skipn pos s) ->
  scan files path_hash parent_path fuel w s pos = Some (Returned s, w).
Proof.
  intros Hs.
  assert (H : regex_search include_directive_re (c_str (skipn pos s)) = None).
  { rewrite (regex_search_direct _ _ match_here_include).
    now rewrite (dsearch_without _ _ include_here_start). }
  destruct fuel; simpl; now rewrite H.
Qed.

Lemma do_preprocess_no_directive fuel w filename source :
  generic_string filename ∉ visiting (session w) ->
  strip_pragma_once source = (source, false) ->
  "#"%char ∉ c_str (strip_comments source) ->
  do_preprocess files path_hash parent_path fuel w filename source
  = Some (Returned {| content := strip_comments source;
                      has_pragma_once := false |}, w).
Proof.
  intros Hf Hp Hs. unfold do_preprocess, do_preprocess_body.
  rewrite with_guard_construct, do_preprocess_steps_fresh by exact Hf.
  rewrite Hp. cbn [fst snd].
  rewrite scan_without_hash by exact Hs.
  now rewrite visiting_erase_emplace.
Qed.

Lemma do_preprocess_without_hash fuel w filename source :
  generic_string filename ∉ visiting (session w) -> "#"%char ∉ source ->
  do_preprocess files path_hash parent_path fuel w filename source
  = Some (Returned {| content := strip_comments source;
                      has_pragma_once := false |}, w).
Proof.
  intros Hf Hs. apply do_preprocess_no_directive; [exact Hf| |].
  - rewrite strip_pragma_once_direct. now rewrite pragma_here_without_hash.
  - intros H. apply c_str_elem, strip_comments_elem in H. contradiction.
Qed.

(** X6.  A text without a hash character comes back with its comments
    stripped and nothing else changed: no file is read, the session is
    left as it was, and no fuel is needed. *)
Theorem text_without_hash_passes_through fuel w filename source :
  generic_string filename ∉ visiting (session w) -> "#"%char ∉ source ->
  do_preprocess files path_hash parent_path fuel w filename source
  = Some (Returned {| content := strip_comments source;
                      has_pragma_once := false |}, w).
Proof. apply do_preprocess_without_hash. Qed.

(** X7.  A NUL character ends the search for directives: the loop reads
    the text as a C string.  When the text before the first NUL has no
    slash and no hash, whatever follows the NUL has its comments stripped
    and its directives left in place, and no file is read. *)
Theorem nul_ends_the_scan fuel w filename p s :
  generic_string filename ∉ visiting (session w) -> plain p ->
  do_preprocess files path_hash parent_path fuel w filename (p ++ NUL :: s)
  = Some (Returned {| content := p ++ NUL :: strip_comments s;
                      has_pragma_once := false |}, w).
Proof.
  intros Hf [Hp1 Hp2].
  assert (Hsc : strip_comments (p ++ NUL :: s) = p ++ NUL :: strip_comments s).
  { assert (Hp' : "/"%char ∉ p ++ [NUL]).
    { intros H. apply elem_of_app in H as [H|H]; [contradiction|].
      apply list_elem_of_singleton in H. discriminate. }
    unfold strip_comments.
    rewrite !strip_line_comments_direct, !strip_block_comments_direct.
    change (p ++ NUL :: s) with (p ++ [NUL] ++ s). rewrite app_assoc.
    rewrite (dreplace_without _ block_here_prefix [] _ block_here_start)
      by exact Hp'.
    rewrite (dreplace_without _ line_here_prefix [] _ line_here_start)
      by exact Hp'.
    now rewrite <- app_assoc. }
  rewrite <- Hsc. apply do_preprocess_no_directive; [exact Hf| |].
  - rewrite strip_pragma_once_direct.
    rewrite pragma_here_before; [reflexivity|exact Hp2|reflexivity|discriminate].
  - rewrite Hsc. intros H. apply c_str_before_nul in H. contradiction.
Qed.

End Texts.

(** ** One directive *)

Lemma take_while_stop p a c t :
  forallb p a = true -> p c = false ->
  take_while p (a ++ c :: t) = a /\ drop_while p (a ++ c :: t) = c :: t.
Proof.
  intros Ha Hc. rewrite take_while_all, drop_while_all by exact Ha.
  simpl. rewrite Hc. now rewrite app_nil_r.
Qed.

Lemma forallb_not_char d (a : str) : d ∉ a -> forallb (is_not_char d) a = true.
Proof.
  induction a as [|c a IH]; intros Ha; [reflexivity|].
  apply not_elem_of_cons in Ha as [Hc Ha]. simpl. rewrite IH by exact Ha.
  unfold is_not_char. rewrite (proj2 (Ascii.eqb_neq c d)); [reflexivity|congruence].
Qed.

Lemma space_not_nul ws : forallb is_space ws = true -> NUL ∉ ws.
Proof.
  induction ws as [|c ws IH]; simpl; intros H; [apply not_elem_of_nil|].
  apply andb_true_iff in H as [Hc H]. apply not_elem_of_cons. split; [|auto].
  intros <-. discriminate Hc.
Qed.

(** The two forms of a payload and the file each one names. *)
Lemma include_here_angle ws name rest :
  forallb is_space ws = true -> ">"%char ∉ name ->
  include_here (lit "#include" ++ ws ++ "<"%char :: name ++ ">"%char :: rest)
  = Some (lit "#include" ++ ws ++ "<"%char :: name ++ [">"%char],
          "<"%char :: name ++ [">"%char], rest).
Proof.
  intros Hws Hn. unfold include_here. rewrite strip_prefix_app.
  destruct (take_while_stop is_space ws "<"%char (name ++ ">"%char :: rest) Hws
              eq_refl) as [-> ->].
  cbn [Ascii.eqb]. change (Ascii.eqb "<" DQUOTE) with false.
  change (Ascii.eqb "<" "<") with true. cbv iota.
  destruct (take_while_stop (is_not_char ">"%char) name ">"%char rest
              (forallb_not_char _ _ Hn)) as [-> ->].
  { unfold is_not_char. now rewrite Ascii.eqb_refl. }
  reflexivity.
Qed.

Lemma include_here_quoted ws name rest :
  forallb is_space ws = true -> name <> [] -> DQUOTE ∉ name ->
  include_here (lit "#include" ++ ws ++ DQUOTE :: name ++ DQUOTE :: rest)
  = Some (lit "#include" ++ ws ++ DQUOTE :: name ++ [DQUOTE],
          DQUOTE :: name ++ [DQUOTE], rest).
Proof.
  intros Hws Hne Hn. unfold include_here. rewrite strip_prefix_app.
  destruct (take_while_stop is_space ws DQUOTE (name ++ DQUOTE :: rest) Hws
              eq_refl) as [-> ->].
  change (Ascii.eqb DQUOTE DQUOTE) with true. cbv iota.
  destruct (take_while_stop (is_not_char DQUOTE) name DQUOTE rest
              (forallb_not_char _ _ Hn)) as [-> ->].
  { reflexivity. }
  destruct name; [contradiction|reflexivity].
Qed.

Lemma c_str_id s : NUL ∉ s -> c_str s = s.
Proof.
  intros H. rewrite <- (app_nil_r s) at 1. rewrite c_str_app by exact H.
  now rewrite app_nil_r.
Qed.

Lemma runtime_path_payload (d : ascii) name (e : ascii) :
  runtime_path_from_include_path (d :: name ++ [e])
  = Some (if bool_decide (d = "<"%char)
          then "/"%char :: c_str name else c_str name).
Proof.
  unfold runtime_path_from_include_path, substr.
  cbn [length]. rewrite length_app. cbn [length].
  rewrite (proj2 (Nat.ltb_ge _ _)) by lia.
  replace (S (length name + 1) - 1) with (S (length name)) by lia.
  cbn [skipn firstn head]. rewrite firstn_app, firstn_all, Nat.sub_diag, firstn_O.
  rewrite app_nil_r.
  destruct (bool_decide (d = "<"%char)) eqn:Hd.
  - apply bool_decide_eq_true in Hd as ->.
    rewrite bool_decide_eq_true_2 by reflexivity. reflexivity.
  - apply bool_decide_eq_false in Hd.
    rewrite bool_decide_eq_false_2 by congruence. reflexivity.
Qed.

Section OneDirective.

Variable files : str -> option str.
Variable path_hash : str -> N.
Variable parent_path : str -> str.

(** X8.  A text with one directive.  The text before the directive has no
    hash and no NUL, the text after it has no hash, and the whole has no
    comment opener.  The directive is [#include], whitespace or none, and
    a payload: [<name>] names the file whose identity is the generic form
    of [/name], and [name] between double quotes, not empty, names the
    file whose identity is the generic form of [name].  When that file
    exists, is not being expanded and has no hash in its text, the call
    returns the text with the directive replaced by the comment-stripped
    text of the file.  It has read that one file, has put it in
    [should_skip] and has left [visiting] as it was. *)
Theorem one_directive_is_replaced_by_the_file
    fuel w filename p ws payload name identity s raw :
  generic_string filename ∉ visiting (session w) ->
  "#"%char ∉ p -> NUL ∉ p -> "#"%char ∉ s ->
  forallb is_space ws = true -> NUL ∉ name ->
  (payload = "<"%char :: name ++ [">"%char] /\ (">"%char ∉ name)
   /\ identity = generic_string ("/"%char :: name))
  \/ (payload = DQUOTE :: name ++ [DQUOTE] /\ name <> [] /\ (DQUOTE ∉ name)
      /\ identity = generic_string name) ->
  ~ occurs (lit "/*") (p ++ lit "#include" ++ ws ++ payload ++ s) ->
  ~ occurs (lit "//") (p ++ lit "#include" ++ ws ++ payload ++ s) ->
  identity <> generic_string filename -> identity ∉ visiting (session w) ->
  files identity = Some raw -> "#"%char ∉ raw ->
  exists w',
    do_preprocess files path_hash parent_path (S fuel) w filename
      (p ++ lit "#include" ++ ws ++ payload ++ s)
    = Some (Returned {| content := p ++ strip_comments raw ++ s;
                        has_pragma_once := false |}, w')
    /\ visiting (session w') = visiting (session w)
    /\ should_skip (session w') = {[ identity ]} ∪ should_skip (session w)
    /\ slurps (trace w') = identity :: slurps (trace w).
Proof.
  intros Hf Hp Hnul Hs Hws Hname Hform Hblock Hline Hid Hvis Hraw Hrawh.
  set (src := p ++ lit "#include" ++ ws ++ payload ++ s) in *.
  set (whole := lit "#include" ++ ws ++ payload).
  assert (Hhere : forall rest,
             include_here (whole ++ rest) = Some (whole, payload, rest)).
  { intros rest. unfold whole.
    destruct Hform as [(-> & Hgt & _)|(-> & Hne & Hq & _)].
    - rewrite <- !app_assoc. cbn [app]. rewrite <- app_assoc. cbn [app].
      now apply include_here_angle.
    - rewrite <- !app_assoc. cbn [app]. rewrite <- app_assoc. cbn [app].
      now apply include_here_quoted. }
  assert (Hpath : exists p0,
             runtime_path_from_include_path payload = Some p0
             /\ generic_string p0 = identity).
  { destruct Hform as [(-> & _ & ->)|(-> & _ & _ & ->)];
      rewrite runtime_path_payload, c_str_id by exact Hname;
      eexists; split; reflexivity. }
  destruct Hpath as (p0 & Hpath & Hp0).
  assert (Hpn : NUL ∉ payload).
  { destruct Hform as [(-> & _)|(-> & _)]; intros H;
      apply elem_of_cons in H as [H|H]; try discriminate H;
      apply elem_of_app in H as [H|H]; try contradiction;
      apply list_elem_of_singleton in H; discriminate H. }
  assert (Hsrc : src = p ++ whole ++ s).
  { unfold src, whole. now rewrite <- !app_assoc. }
  assert (Hsearch : regex_search include_directive_re (c_str (skipn 0 src))
                    = Some {| m_prefix := p; m_str0 := whole; m_str1 := payload;
                              m_end := {| behind := rev (p ++ whole) ++ [];
                                          ahead := c_str s |} |}).
  { change (skipn 0 src) with src. rewrite Hsrc.
    rewrite c_str_app by exact Hnul. rewrite c_str_app.
    2:{ unfold whole. intros H. apply elem_of_app in H as [H|H].
        - vm_compute in H. repeat (apply elem_of_cons in H as [H|H];
            [discriminate H|]). inversion H.
        - apply elem_of_app in H as [H|H]; [|contradiction].
          now apply space_not_nul in H. }
    rewrite (regex_search_direct _ _ match_here_include).
    now rewrite (dsearch_skip _ _ include_here_start _ _ _ _ _ Hp (Hhere _)). }
  set (f := generic_string filename) in *.
  set (w1 := visiting_emplace f w).
  set (w2 := register identity (log (Slurped identity (visiting (session w1))) w1)).
  assert (Hchild : do_preprocess files path_hash parent_path fuel w2 p0 raw
                   = Some (Returned {| content := strip_comments raw;
                                       has_pragma_once := false |}, w2)).
  { apply do_preprocess_without_hash; [|exact Hrawh]. rewrite Hp0.
    unfold w2. rewrite register_visiting. unfold w1. simpl.
    intros H. apply elem_of_union in H as [H|H]; [|contradiction].
    apply elem_of_singleton in H. contradiction. }
  set (w3 := log (Spliced identity (seen identity w1)
                    {| content := strip_comments raw; has_pragma_once := false |}
                    (strip_comments raw)) w2).
  assert (Hscan : scan files path_hash parent_path (S fuel) w1 src 0
                  = Some (Returned (p ++ strip_comments raw ++ s), w3)).
  { cbn [scan]. rewrite Hsearch. cbn [m_str1]. rewrite Hpath, Hp0.
    unfold slurp. rewrite Hraw.
    change (do_preprocess_body path_hash parent_path
              (scan files path_hash parent_path fuel) ?a ?b ?c)
      with (do_preprocess files path_hash parent_path fuel a b c).
    match goal with
    | |- context [do_preprocess _ _ _ _ ?w0 _ _] => change w0 with w2
    end.
    rewrite Hchild. cbn [has_pragma_once content andb].
    unfold m_position, m_length. cbn [m_prefix m_str0 Nat.add].
    rewrite Hsrc, replace_app.
    apply scan_without_hash.
    rewrite app_assoc, <- length_app, skipn_app, skipn_all, Nat.sub_diag.
    cbn [skipn app]. intros H. now apply c_str_elem in H. }
  exists (visiting_erase f w3). conjs.
  - unfold do_preprocess, do_preprocess_body.
    rewrite with_guard_construct, do_preprocess_steps_fresh by exact Hf.
    assert (Hpr : strip_pragma_once src = (src, false)).
    { rewrite strip_pragma_once_direct. unfold src.
      now rewrite pragma_here_before_include. }
    rewrite Hpr. cbn [fst snd].
    unfold strip_comments.
    rewrite strip_block_comments_none by (left; exact Hblock).
    rewrite strip_line_comments_none by exact Hline.
    fold f. fold w1. now rewrite Hscan.
  - unfold w3, w2, w1. simpl. rewrite register_visiting. simpl.
    apply leibniz_equiv. set_solver.
  - unfold w3, w2, w1. simpl. now rewrite (register_should_skip files path_hash).
  - unfold w3, w2, w1. simpl. now rewrite register_trace.
Qed.

End OneDirective.

(** ** The positions of the loop *)



(** ** What the stripping functions keep *)

Section Keep.

Variable here : str -> option (str * str * str).
Hypothesis here_prefix : forall s whole g1 rest,
  here s = Some (whole, g1, rest) -> s = whole ++ rest /\ whole <> [].

Lemma dreplace_sublist : forall n s, dreplace here n [] s `sublist_of` s.
Proof.
  induction n as [|n IH]; intros s; [reflexivity|].
  cbn [dreplace].
  destruct (dsearch here s) as [[[[pre whole] g1] rest]|] eqn:Hd; [|reflexivity].
  destruct (dsearch_length _ here_prefix _ _ _ _ _ Hd) as [-> Hne].
  destruct whole as [|c whole]; [contradiction|]. cbn [app].
  apply sublist_app; [reflexivity|].
  change (c :: whole ++ rest) with ((c :: whole) ++ rest).
  apply sublist_inserts_l, IH.
Qed.

End Keep.

Lemma occurs_cons_inv w c x :
  occurs w (c :: x) -> (exists y, c :: x = w ++ y) \/ occurs w x.
Proof.
  intros (a & b & H). destruct a as [|d a].
  - left. now exists b.
  - right. injection H as _ ->. now exists a, b.
Qed.

(** The head of the text left by [strip_line_comments]. *)
Lemma strip_line_comments_cons c t :
  line_here (c :: t) = None ->
  strip_line_comments (c :: t) = c :: strip_line_comments t.
Proof.
  intros H. rewrite !strip_line_comments_direct.
  now apply (dreplace_skip _ line_here_prefix).
Qed.

Lemma strip_line_comments_match s whole g1 rest :
  line_here s = Some (whole, g1, rest) ->
  strip_line_comments s = strip_line_comments rest.
Proof.
  intros H. rewrite !strip_line_comments_direct.
  now rewrite (dreplace_here _ line_here_prefix [] _ _ _ _ H).
Qed.

Lemma strip_line_comments_nil : strip_line_comments [] = [].
Proof. reflexivity. Qed.

Lemma line_here_Some s whole g1 rest :
  line_here s = Some (whole, g1, rest) ->
  exists t, s = lit "//" ++ t
    /\ whole = lit "//" ++ take_while is_dot t
    /\ rest = drop_while is_dot t.
Proof.
  unfold line_here.
  destruct (strip_prefix (lit "//") s) as [t|] eqn:Hp; [|discriminate].
  apply strip_prefix_Some in Hp as ->. intros [= <- _ <-]. now exists t.
Qed.

Lemma line_here_None c t :
  line_here (c :: t) = None -> c <> "/"%char \/ head t <> Some "/"%char.
Proof.
  unfold line_here. simpl.
  destruct (Ascii.eqb_spec c "/"%char) as [->|Hc]; [|now left].
  destruct t as [|d t]; [right; discriminate|].
  destruct (Ascii.eqb_spec d "/"%char) as [->|Hd]; [discriminate|].
  intros _. right. simpl. congruence.
Qed.

Lemma strip_line_comments_head : forall n s,
  length s <= n ->
  head (strip_line_comments s) = Some "/"%char -> head s = Some "/"%char.
Proof.
  induction n as [|n IH]; intros s Hn.
  - destruct s; [discriminate|simpl in Hn; lia].
  - destruct s as [|c t]; [discriminate|].
    destruct (line_here (c :: t)) as [[[whole g1] rest]|] eqn:Hh.
    + intros _. apply line_here_start in Hh. exact Hh.
    + rewrite strip_line_comments_cons by exact Hh. trivial.
Qed.

Lemma strip_line_comments_rest_head t :
  head (strip_line_comments (drop_while is_dot t)) <> Some "/"%char.
Proof.
  intros H. apply (strip_line_comments_head _ _ (Nat.le_refl _)) in H.
  destruct (drop_while is_dot t) as [|e r] eqn:Hd; [discriminate|].
  apply drop_while_head in Hd. injection H as ->. discriminate Hd.
Qed.

Lemma no_line_comment_left : forall n s,
  length s <= n -> ~ occurs (lit "//") (strip_line_comments s).
Proof.
  induction n as [|n IH]; intros s Hn.
  - destruct s; [|simpl in Hn; lia]. rewrite strip_line_comments_nil.
    intros (a & b & H). destruct a; discriminate.
  - destruct s as [|c t].
    { rewrite strip_line_comments_nil. intros (a & b & H). destruct a; discriminate. }
    destruct (line_here (c :: t)) as [[[whole g1] rest]|] eqn:Hh.
    + rewrite (strip_line_comments_match _ _ _ _ Hh).
      apply line_here_prefix in Hh as [Hs Hne]. apply IH.
      apply (f_equal (@length ascii)) in Hs. rewrite length_app in Hs.
      destruct whole; [contradiction|]. simpl in *. lia.
    + rewrite strip_line_comments_cons by exact Hh.
      intros Ho. apply occurs_cons_inv in Ho as [[y Hy]|Ho].
      * injection Hy as -> Hy.
        assert (Hd : head (strip_line_comments t) = Some "/"%char)
          by now rewrite Hy.
        apply line_here_None in Hh as [Hh|Hh]; [congruence|].
        apply Hh.
        destruct (line_here t) as [[[whole g1] rest]|] eqn:Ht.
        -- now apply line_here_start in Ht.
        -- now apply (strip_line_comments_head _ _ (Nat.le_refl _)).
      * revert Ho. apply IH. simpl in Hn. lia.
Qed.

Lemma filter_take_while_dots t :
  List.filter (fun c => negb (is_dot c)) (take_while is_dot t) = [].
Proof.
  induction t as [|c t IH]; [reflexivity|]. simpl.
  destruct (is_dot c) eqn:Hc; [|reflexivity]. simpl. now rewrite Hc.
Qed.

Lemma line_terminators_kept : forall n s,
  length s <= n ->
  List.filter (fun c => negb (is_dot c)) (strip_line_comments s)
  = List.filter (fun c => negb (is_dot c)) s.
Proof.
  induction n as [|n IH]; intros s Hn.
  - destruct s; [reflexivity|simpl in Hn; lia].
  - destruct s as [|c t]; [reflexivity|].
    destruct (line_here (c :: t)) as [[[whole g1] rest]|] eqn:Hh.
    + rewrite (strip_line_comments_match _ _ _ _ Hh).
      pose proof (line_here_prefix _ _ _ _ Hh) as [Hs Hne].
      apply line_here_Some in Hh as (u & _ & Hw & _).
      rewrite Hs, List.filter_app, Hw, List.filter_app, filter_take_while_dots.
      cbn [app List.filter]. change (is_dot "/") with true. cbn [negb app].
      apply IH. apply (f_equal (@length ascii)) in Hs.
      rewrite length_app in Hs. destruct whole; [contradiction|].
      simpl in *. lia.
    + rewrite strip_line_comments_cons by exact Hh. cbn [List.filter].
      rewrite IH by (simpl in Hn; lia). reflexivity.
Qed.

(** X10.  What [strip_line_comments] returns has no two slashes in a row,
    and it has the line terminators of the text, all of them and in their
    order: a line comment ends before the terminator of its line.
    Stripping it again changes nothing. *)
Theorem line_comments_all_removed_terminators_kept s :
  ~ occurs (lit "//") (strip_line_comments s)
  /\ List.filter (fun c => negb (is_dot c)) (strip_line_comments s)
     = List.filter (fun c => negb (is_dot c)) s
  /\ strip_line_comments (strip_line_comments s) = strip_line_comments s.
Proof.
  conjs.
  - now apply (no_line_comment_left (length s)).
  - now apply (line_terminators_kept (length s)).
  - apply strip_line_comments_none.
    now apply (no_line_comment_left (length s)).
Qed.

(** X11.  A text in which no block comment opens, or in which none
    closes, is left as it is by [strip_block_comments]: a comment that is
    not closed is not removed.  A text without two slashes in a row is
    left as it is by [strip_line_comments]. *)
Theorem text_without_comment_unchanged s :
  (~ occurs (lit "/*") s \/ ~ occurs (lit "*/") s ->
   strip_block_comments s = s)
  /\ (~ occurs (lit "//") s -> strip_line_comments s = s).
Proof.
  split; [apply strip_block_comments_none | apply strip_line_comments_none].
Qed.

Lemma text_without_comment_unchanged_witness :
  strip_block_comments (lit "a /* not closed") = lit "a /* not closed"
  /\ strip_line_comments (lit "a / b") = lit "a / b".
Proof.
  destruct (text_without_comment_unchanged (lit "a /* not closed")) as [H1 _].
  destruct (text_without_comment_unchanged (lit "a / b")) as [_ H2].
  split.
  - apply H1. right. intros (a & b & Hab).
    assert (Hlen : length a < 15).
    { apply (f_equal (@length ascii)) in Hab. rewrite !length_app in Hab.
      simpl in Hab. lia. }
    do 15 (destruct a as [|? a]; [discriminate Hab|injection Hab as _ Hab]);
      simpl in Hlen; lia.
  - apply H2. intros (a & b & Hab).
    assert (Hlen : length a < 5).
    { apply (f_equal (@length ascii)) in Hab. rewrite !length_app in Hab.
      simpl in Hab. lia. }
    do 5 (destruct a as [|? a]; [discriminate Hab|injection Hab as _ Hab]);
      simpl in Hlen; lia.
Defined.

(** X12.  The stripping functions only delete.  What [strip_comments]
    returns is the text with some characters left out, the others in
    their order; what [strip_pragma_once] returns is an end piece of the
    text. *)
Theorem stripping_only_deletes s :
  strip_comments s `sublist_of` s
  /\ fst (strip_pragma_once s) `suffix_of` s.
Proof.
  split.
  - unfold strip_comments.
    rewrite strip_line_comments_direct, strip_block_comments_direct.
    etransitivity; [apply (dreplace_sublist _ line_here_prefix)|].
    apply (dreplace_sublist _ block_here_prefix).
  - rewrite strip_pragma_once_direct.
    destruct (pragma_here s) as [[whole rest]|] eqn:Hh; [|reflexivity].
    apply pragma_here_Some in Hh as [-> _]. now exists whole.
Qed.

(** ** The guard *)

Lemma alnum_is_word c : is_alnum c = true -> is_word c = true.
Proof. unfold is_word, is_alnum. intros ->. reflexivity. Qed.

Lemma alnum_not_underscore c : is_alnum c = true -> c <> "_"%char.
Proof. intros H ->. discriminate H. Qed.

Lemma collapse_runs_word : forall s b,
  forallb is_word (collapse_runs b s) = true.
Proof.
  induction s as [|c s IH]; intros b; [reflexivity|]. simpl.
  destruct (is_alnum c) eqn:Hc.
  - simpl. now rewrite (alnum_is_word _ Hc), IH.
  - destruct b; [apply IH|]. simpl. now rewrite IH.
Qed.

Lemma collapse_runs_single : forall s b,
  (b = true -> head (collapse_runs b s) <> Some "_"%char)
  /\ ~ occurs (lit "__") (collapse_runs b s).
Proof.
  induction s as [|c s IH]; intros b.
  - split; [discriminate|]. intros (a & y & H). destruct a; discriminate.
  - simpl. destruct (is_alnum c) eqn:Hc.
    + split.
      * intros _ [= ->]. discriminate Hc.
      * intros Ho. apply occurs_cons_inv in Ho as [[y Hy]|Ho].
        -- injection Hy as -> _. discriminate Hc.
        -- now apply (proj2 (IH false)).
    + destruct b; [apply IH|]. split; [discriminate|].
      intros Ho. apply occurs_cons_inv in Ho as [[y Hy]|Ho].
      * injection Hy as Hy. apply (proj1 (IH true) eq_refl). now rewrite Hy.
      * now apply (proj2 (IH true)).
Qed.

Lemma occurs_sub w x t y : occurs w t -> occurs w (x ++ t ++ y).
Proof. intros H. now apply occurs_app_l, occurs_app_r. Qed.

Lemma forallb_sub {A} (p : A -> bool) x t y :
  forallb p (x ++ t ++ y) = true -> forallb p t = true.
Proof.
  rewrite !forallb_app. intros H.
  apply andb_true_iff in H as [_ H]. now apply andb_true_iff in H as [H _].
Qed.

(** The sanitized identity is a piece of the collapsed identity. *)
Lemma sanitized_identity_piece identity :
  exists x y,
    firstn 128 (collapse_runs false identity)
    = x ++ sanitized_identity identity ++ y
    /\ forallb (is_char "_"%char) x = true
    /\ forallb (is_char "_"%char) y = true.
Proof.
  unfold sanitized_identity, trim_underscores.
  set (t := firstn 128 (collapse_runs false identity)).
  exists (take_while (is_char "_"%char) t),
         (rev (take_while (is_char "_"%char)
                 (rev (drop_while (is_char "_"%char) t)))).
  assert (Htw : forall p (u : str), forallb p (take_while p u) = true).
  { intros p u. induction u as [|d u IH]; simpl; [reflexivity|].
    destruct (p d) eqn:Hd; simpl; [now rewrite Hd|reflexivity]. }
  conjs.
  - rewrite <- rev_app_distr, take_drop_while, rev_involutive.
    now rewrite take_drop_while.
  - apply Htw.
  - rewrite forallb_rev. apply Htw.
Qed.

Lemma head_rev_last (s : str) : head (rev s) = last s.
Proof.
  induction s as [|c s IH] using rev_ind; [reflexivity|].
  now rewrite rev_app_distr, last_snoc.
Qed.

Lemma last_drop_while p (s : str) c :
  last (drop_while p s) = Some c -> last s = Some c.
Proof.
  intros H. rewrite <- (take_drop_while p s).
  destruct (drop_while p s) as [|d u]; [discriminate|].
  now rewrite last_app, H.
Qed.

Lemma drop_while_head_not p (s : str) c :
  head (drop_while p s) = Some c -> p c = false.
Proof.
  destruct (drop_while p s) as [|d u] eqn:Hd; [discriminate|].
  intros [= <-]. now apply drop_while_head in Hd.
Qed.

Lemma to_string_digits n : forallb (in_range "0" "9") (to_string n) = true.
Proof.
  unfold to_string. generalize (N.to_uint n). intros u.
  induction u; simpl; try reflexivity; exact IHu.
Qed.

Lemma digit_is_word c : in_range "0" "9" c = true -> is_word c = true.
Proof.
  unfold is_word. intros ->. now rewrite !orb_true_r.
Qed.

(** X13.  The name of the guard is an identifier of the preprocessor: the
    fixed prefix, a middle part, an underscore and the decimal digits of
    the hash, all letters, digits and underscores.  The middle part has at
    most 128 characters, does not begin or end with an underscore and has
    no two underscores in a row. *)
Theorem guard_macro_is_identifier (path_hash : str -> N) filename :
  exists middle,
    guard_macro path_hash filename
    = lit "NAMA_INCLUDE_GUARD_" ++ middle ++ lit "_"
      ++ to_string (path_hash (generic_string filename))
    /\ length middle <= 128
    /\ head middle <> Some "_"%char
    /\ last middle <> Some "_"%char
    /\ ~ occurs (lit "__") middle
    /\ forallb (in_range "0" "9")
         (to_string (path_hash (generic_string filename))) = true
    /\ forallb is_word (guard_macro path_hash filename) = true.
Proof.
  rewrite guard_macro_guard_name. generalize (generic_string filename).
  clear filename. intros filename.
  exists (sanitized_identity filename).
  destruct (sanitized_identity_piece filename) as (x & y & Hxy & Hx & Hy).
  assert (Hword : forallb is_word (sanitized_identity filename) = true).
  { apply (forallb_sub _ x _ y). rewrite <- Hxy.
    pose proof (collapse_runs_word filename false) as H.
    rewrite <- (firstn_skipn 128 (collapse_runs false filename)) in H.
    rewrite forallb_app in H. now apply andb_true_iff in H as [H _]. }
  unfold guard_name. conjs.
  - reflexivity.
  - pose proof (f_equal (@length ascii) Hxy) as HL.
    rewrite !length_app in HL.
    pose proof (firstn_le_length 128 (collapse_runs false filename)). lia.
  - unfold sanitized_identity, trim_underscores. rewrite head_rev_last.
    intros H. apply last_drop_while in H. rewrite <- head_rev_last in H.
    rewrite rev_involutive in H. now apply drop_while_head_not in H.
  - unfold sanitized_identity, trim_underscores.
    rewrite <- head_rev_last, rev_involutive.
    intros H. now apply drop_while_head_not in H.
  - intros Ho. apply (proj2 (collapse_runs_single filename false)).
    rewrite <- (firstn_skipn 128 (collapse_runs false filename)).
    apply occurs_app_r. rewrite Hxy. now apply occurs_sub.
  - apply to_string_digits.
  - rewrite !forallb_app, Hword. cbn [andb].
    assert (Hd : forallb is_word (to_string (path_hash filename)) = true).
    { apply forallb_forall. intros c Hc. apply digit_is_word.
      pose proof (to_string_digits (path_hash filename)) as H.
      rewrite forallb_forall in H. now apply H. }
    rewrite Hd. reflexivity.
Qed.

Lemma last_default_cons (s : str) : forall x d,
  List.last (x :: s) d = List.last s x.
Proof.
  induction s as [|e s IH]; intros x d; [reflexivity|].
  transitivity (List.last (e :: s) d); [reflexivity|].
  now rewrite !IH.
Qed.

Lemma last_default_app (a : str) (x : ascii) s : forall d,
  List.last (a ++ x :: s) d = List.last s x.
Proof.
  induction a as [|c a IH]; intros d; cbn [app].
  - apply last_default_cons.
  - rewrite last_default_cons. apply IH.
Qed.

(** X14.  The guarded text is the two opening lines, the text, a newline
    when the text is not empty and does not end with one, and the closing
    line.  So an empty text gets no empty line, and the closing line
    always starts a line. *)
Theorem guarded_text_ends_its_last_line (path_hash : str -> N) filename s :
  add_include_guard path_hash filename s
  = lit "#ifndef " ++ guard_macro path_hash filename ++ [LF] ++
    lit "#define " ++ guard_macro path_hash filename ++ [LF] ++
    s ++ (if Ascii.eqb (List.last s LF) LF then [] else [LF]) ++
    lit "#endif // " ++ guard_macro path_hash filename ++ [LF].
Proof.
  unfold add_include_guard. cbv zeta.
  assert (H : List.last
                (lit "#ifndef " ++ guard_macro path_hash filename ++ [LF] ++
                 lit "#define " ++ guard_macro path_hash filename ++ [LF] ++ s)
                NUL = List.last s LF).
  { rewrite !app_assoc. rewrite <- (app_assoc _ [LF] s). cbn [app].
    apply last_default_app. }
  rewrite H. destruct (Ascii.eqb (List.last s LF) LF).
  - now rewrite <- !app_assoc.
  - now rewrite <- !app_assoc.
Qed.

(** ** The path resolver *)

(** X15.  The path resolver fails on a payload of fewer than two
    characters and on no other.  The path it returns has no NUL and is
    shorter than the payload; it starts with a slash when the payload
    starts with [<]; and it does not depend on the last character of the
    payload. *)
Theorem resolver_bounds path :
  (runtime_path_from_include_path path = None <-> length path < 2)
  /\ (forall q, runtime_path_from_include_path path = Some q ->
        (NUL ∉ q) /\ length q < length path
        /\ (head path = Some "<"%char -> head q = Some "/"%char))
  /\ (forall body c c',
        path = body ++ [c] ->
        runtime_path_from_include_path path
        = runtime_path_from_include_path (body ++ [c'])).
Proof.
  assert (Hc : forall s, (NUL ∉ c_str s) /\ length (c_str s) <= length s).
  { induction s as [|c s [IH1 IH2]]; simpl.
    - split; [apply not_elem_of_nil|lia].
    - destruct (Ascii.eqb_spec c NUL) as [->|Hn]; simpl.
      + split; [apply not_elem_of_nil|lia].
      + split; [|lia]. apply not_elem_of_cons. split; [congruence|exact IH1]. }
  conjs.
  - unfold runtime_path_from_include_path.
    destruct (Nat.ltb_spec (length path) 2); split; try discriminate; try lia.
    reflexivity.
  - intros q. destruct path as [|d path]; [discriminate|].
    destruct (exists_last (l := d :: path)) as (body & e & Hb); [discriminate|].
    destruct body as [|d' body].
    { rewrite Hb. discriminate. }
    cbn [app] in Hb. injection Hb as -> ->. rewrite runtime_path_payload.
    intros [= <-]. cbn [length head]. rewrite length_app. cbn [length].
    destruct (Hc body) as [H1 H2].
    case_bool_decide as Hd.
    + conjs; [|simpl; lia|reflexivity].
      apply not_elem_of_cons. split; [discriminate|exact H1].
    + conjs; [exact H1|simpl; lia|]. simpl. congruence.
  - intros body c c' ->. destruct body as [|d body]; [reflexivity|].
    cbn [app]. now rewrite !runtime_path_payload.
Qed.

(** ** Cycles *)

Section Cycles.

Variable files : str -> option str.
Variable path_hash : str -> N.
Variable parent_path : str -> str.

Lemma Do_revisit_returned w f src r w' :
  Do files path_hash w f src (Returned r) w' ->
  f ∈ visiting (session w) -> snd (strip_pragma_once src) = true.
Proof.
  intros H Hin. inversion H as [? ? ? _ Honce|?|? ? ? ? ? Hnin|? ? ? o ? _ _ _ Ho];
    subst.
  - exact Honce.
  - contradiction.
  - destruct o; discriminate.
Qed.

Lemma cycle_discipline :
  (forall w f src o w',
      Do files path_hash w f src o w' -> ~ failed o ->
      exists N, trace w' = N ++ trace w
        /\ forall p V, Slurped p V ∈ N -> p ∈ V ->
             exists raw, files p = Some raw
                         /\ snd (strip_pragma_once raw) = true)
  /\
  (forall w s pos o w',
      Scan files path_hash w s pos o w' -> ~ failed o ->
      exists N, trace w' = N ++ trace w
        /\ forall p V, Slurped p V ∈ N -> p ∈ V ->
             exists raw, files p = Some raw
                         /\ snd (strip_pragma_once raw) = true).
Proof.
  apply Do_Scan_ind.
  - intros w f src _ _ _. exists []. split; [reflexivity|].
    intros p V H. inversion H.
  - intros w f src _ _ Hnf. exfalso. apply Hnf. exact I.
  - intros w f src s w1 _ _ IH _. destruct IH as (N & HN & HP); [tauto|].
    now exists N.
  - intros w f src o w1 _ _ _ Hfail Hnf. exfalso. apply Hnf.
    destruct o; simpl in *; tauto.
  - intros w s pos _ _. exists []. split; [reflexivity|].
    intros p V H. inversion H.
  - intros w s pos m _ _ Hnf. exfalso. apply Hnf. exact I.
  - intros w s pos m p _ _ _ Hnf. exfalso. apply Hnf. exact I.
  - intros w s pos m p raw o w3 _ _ _ _ _ Hfail Hnf. exfalso. apply Hnf.
    destruct o; simpl in *; tauto.
  - intros w s pos m p raw child w3 o w4 _ _ Hf Hdo IHd _ IHs Hnf.
    destruct IHd as (N & HN & HP); [tauto|].
    destruct (IHs Hnf) as (N' & HN' & HP').
    exists (N' ++ Spliced p (seen p w) child (replacement_of child (seen p w))
               :: N ++ [Slurped p (visiting (session w))]).
    rewrite register_trace in HN. simpl in HN, HN'.
    split.
    { rewrite HN', HN. rewrite <- !app_assoc. simpl. now rewrite <- app_assoc. }
    intros q V He Hq.
    apply elem_of_app in He as [He|He]; [now apply (HP' q V)|].
    apply elem_of_cons in He as [He|He]; [discriminate|].
    apply elem_of_app in He as [He|He]; [now apply (HP q V)|].
    apply list_elem_of_singleton in He. injection He as -> ->.
    exists raw. split; [exact Hf|].
    apply (Do_revisit_returned _ _ _ _ _ Hdo).
    now rewrite register_visiting.
Qed.

(** X17.  In a call that returns, every file that was read while it was
    being expanded has the once-marker.  So a directive that names a file
    that is being expanded and has no once-marker makes the call fail. *)
Theorem returning_run_revisits_only_marked_files
    fuel w filename source r w' :
  do_preprocess files path_hash parent_path fuel w filename source
    = Some (Returned r, w') ->
  exists N, trace w' = N ++ trace w
    /\ forall p V, Slurped p V ∈ N -> p ∈ V ->
         exists raw, files p = Some raw
                     /\ snd (strip_pragma_once raw) = true.
Proof.
  intros Hrun. apply do_preprocess_sound in Hrun.
  apply (proj1 cycle_discipline) in Hrun; [exact Hrun|]. simpl. tauto.
Qed.

End Cycles.

Lemma returning_run_revisits_only_marked_files_witness :
  exists r w',
    do_preprocess files_self hash_zero parent_same 1 new_world (lit "a.glsl")
      (lit "#pragma once" ++ [LF] ++ lit "#include " ++ quoted "a.glsl" ++ [LF])
    = Some (Returned r, w')
    /\ exists N, trace w' = N ++ []
    /\ forall p V, Slurped p V ∈ N -> p ∈ V ->
         exists raw, files_self p = Some raw
                     /\ snd (strip_pragma_once raw) = true.
Proof.
  assert (H : match do_preprocess files_self hash_zero parent_same 1 new_world
                      (lit "a.glsl")
                      (lit "#pragma once" ++ [LF] ++
                       lit "#include " ++ quoted "a.glsl" ++ [LF]) with
              | Some (Returned _, _) => true
              | _ => false
              end = true)
    by (vm_compute; reflexivity).
  destruct (do_preprocess _ _ _ _ _ _ _) as [[[r|e|] w']|] eqn:Hrun;
    try discriminate H.
  exists r, w'. split; [reflexivity|].
  apply (returning_run_revisits_only_marked_files files_self hash_zero
           parent_same 1 new_world (lit "a.glsl") _ r w' Hrun).
Defined.

(** ** Examples *)

Lemma text_without_hash_passes_through_witness :
  do_preprocess files_missing hash_zero parent_same 0 new_world (lit "a.glsl")
    (lit "int x; // one" ++ [LF] ++ lit "int y;")
  = Some (Returned {| content := strip_comments
                                   (lit "int x; // one" ++ [LF] ++ lit "int y;");
                      has_pragma_once := false |}, new_world).
Proof.
  apply (text_without_hash_passes_through files_missing hash_zero parent_same
           0 new_world (lit "a.glsl")).
  - apply not_elem_of_empty.
  - intros H. repeat (apply elem_of_cons in H as [H|H]; [discriminate|]).
    inversion H.
Defined.

Lemma nul_ends_the_scan_witness :
  do_preprocess files_missing hash_zero parent_same 0 new_world (lit "a.glsl")
    (lit "int x;" ++ NUL :: lit "#include <c>")
  = Some (Returned {| content := lit "int x;" ++ NUL
                                   :: strip_comments (lit "#include <c>");
                      has_pragma_once := false |}, new_world).
Proof.
  apply (nul_ends_the_scan files_missing hash_zero parent_same 0 new_world
           (lit "a.glsl") (lit "int x;") (lit "#include <c>")).
  - apply not_elem_of_empty.
  - split; intros H; repeat (apply elem_of_cons in H as [H|H]; [discriminate|]);
      inversion H.
Defined.

Lemma one_directive_is_replaced_by_the_file_witness :
  exists w',
    do_preprocess files_toggle hash_zero parent_same 1 new_world (lit "a.glsl")
      (lit "x " ++ lit "#include" ++ lit " " ++ lit "<b>" ++ lit " y")
    = Some (Returned {| content := lit "x " ++ strip_comments (lit "B") ++ lit " y";
                        has_pragma_once := false |}, w')
    /\ visiting (session w') = visiting (session new_world)
    /\ should_skip (session w') = {[ lit "/b" ]} ∪ should_skip (session new_world)
    /\ slurps (trace w') = lit "/b" :: slurps (trace new_world).
Proof.
  assert (Hno : "/"%char ∉ lit "x " ++ lit "#include" ++ lit " " ++ lit "<b>"
                             ++ lit " y").
  { intros H. repeat (apply elem_of_cons in H as [H|H]; [discriminate|]).
    inversion H. }
  apply (one_directive_is_replaced_by_the_file files_toggle hash_zero
           parent_same 0 new_world (lit "a.glsl") (lit "x ") (lit " ")
           (lit "<b>") (lit "b") (lit "/b") (lit " y") (lit "B")).
  - apply not_elem_of_empty.
  - intros H. repeat (apply elem_of_cons in H as [H|H]; [discriminate|]).
    inversion H.
  - intros H. repeat (apply elem_of_cons in H as [H|H]; [discriminate|]).
    inversion H.
  - intros H. repeat (apply elem_of_cons in H as [H|H]; [discriminate|]).
    inversion H.
  - reflexivity.
  - intros H. repeat (apply elem_of_cons in H as [H|H]; [discriminate|]).
    inversion H.
  - left. conjs; [reflexivity| |reflexivity].
    intros H. repeat (apply elem_of_cons in H as [H|H]; [discriminate|]).
    inversion H.
  - intros Ho. apply Hno. now apply (occurs_elem _ _ _ _ Ho).
  - intros Ho. apply Hno. now apply (occurs_elem _ _ _ _ Ho).
  - discriminate.
  - apply not_elem_of_empty.
  - reflexivity.
  - intros H. repeat (apply elem_of_cons in H as [H|H]; [discriminate|]).
    inversion H.
Defined.

Lemma resolver_bounds_witness :
  runtime_path_from_include_path (lit "<") = None
  /\ runtime_path_from_include_path (lit "<a>")
     = runtime_path_from_include_path (lit "<a" ++ [DQUOTE]).
Proof.
  split.
  - apply (proj1 (resolver_bounds (lit "<"))). simpl. lia.
  - apply (proj2 (proj2 (resolver_bounds (lit "<a>"))) (lit "<a") ">"%char DQUOTE).
    reflexivity.
Defined.

(** ** The shape of a directive *)

Lemma forallb_take_while p (u : str) : forallb p (take_while p u) = true.
Proof.
  induction u as [|d u IH]; simpl; [reflexivity|].
  destruct (p d) eqn:Hd; simpl; [now rewrite Hd|reflexivity].
Qed.

Lemma not_char_not_elem d (a : str) :
  forallb (is_not_char d) a = true -> d ∉ a.
Proof.
  induction a as [|c a IH]; simpl; intros H; [apply not_elem_of_nil|].
  apply andb_true_iff in H as [Hc H]. apply not_elem_of_cons. split; [|auto].
  intros <-. unfold is_not_char in Hc. now rewrite Ascii.eqb_refl in Hc.
Qed.

Lemma drop_while_not_char d u e rest :
  drop_while (is_not_char d) u = e :: rest -> e = d.
Proof.
  intros H. apply drop_while_head in H. unfold is_not_char in H.
  apply negb_false_iff in H. now apply Ascii.eqb_eq in H.
Qed.

Lemma include_here_shape t whole g1 rest :
  include_here t = Some (whole, g1, rest) ->
  exists ws name,
    whole = lit "#include" ++ ws ++ g1
    /\ forallb is_space ws = true
    /\ ((g1 = "<"%char :: name ++ [">"%char] /\ (">"%char ∉ name))
        \/ (g1 = DQUOTE :: name ++ [DQUOTE] /\ name <> [] /\ (DQUOTE ∉ name))).
Proof.
  unfold include_here.
  destruct (strip_prefix (lit "#include") t) as [u|]; [|discriminate].
  destruct (drop_while is_space u) as [|d v]; [discriminate|].
  destruct (Ascii.eqb_spec d DQUOTE) as [->|Hd].
  - destruct (take_while (is_not_char DQUOTE) v) as [|b body] eqn:Hb;
      [discriminate|].
    destruct (drop_while (is_not_char DQUOTE) v) as [|e r] eqn:He;
      [discriminate|].
    intros [= <- <- <-]. apply drop_while_not_char in He as ->.
    exists (take_while is_space u), (b :: body). conjs.
    + reflexivity.
    + apply forallb_take_while.
    + right. conjs; [reflexivity|discriminate|].
      apply not_char_not_elem. rewrite <- Hb. apply forallb_take_while.
  - destruct (Ascii.eqb_spec d "<"%char) as [->|Hd']; [|discriminate].
    destruct (drop_while (is_not_char ">"%char) v) as [|e r] eqn:He;
      [discriminate|].
    intros [= <- <- <-]. apply drop_while_not_char in He as ->.
    exists (take_while is_space u), (take_while (is_not_char ">"%char) v). conjs.
    + reflexivity.
    + apply forallb_take_while.
    + left. split; [reflexivity|].
      apply not_char_not_elem, forallb_take_while.
Qed.

(** X18.  What the loop takes for a directive: [#include], whitespace or
    none, and a payload that is either [<], any characters but [>], and
    [>], or a double quote, one character or more but no double quote, and
    a double quote.  The match is a piece of the text searched. *)
Theorem directive_shape s m :
  regex_search include_directive_re s = Some m ->
  s = m_prefix m ++ m_str0 m ++ ahead (m_end m)
  /\ exists ws name,
       m_str0 m = lit "#include" ++ ws ++ m_str1 m
       /\ forallb is_space ws = true
       /\ ((m_str1 m = "<"%char :: name ++ [">"%char] /\ (">"%char ∉ name))
           \/ (m_str1 m = DQUOTE :: name ++ [DQUOTE]
               /\ name <> [] /\ (DQUOTE ∉ name))).
Proof.
  intros Hm. destruct (regex_search_include_shape _ _ Hm) as [Hs Hh].
  split; [exact Hs|]. now apply include_here_shape in Hh.
Qed.

Lemma directive_shape_witness :
  exists m,
    regex_search include_directive_re (lit "a #include  <b/c.glsl> d") = Some m
    /\ m_str1 m = lit "<b/c.glsl>"
    /\ lit "a #include  <b/c.glsl> d" = m_prefix m ++ m_str0 m ++ ahead (m_end m)
    /\ exists ws name,
         m_str0 m = lit "#include" ++ ws ++ m_str1 m
         /\ forallb is_space ws = true
         /\ ((m_str1 m = "<"%char :: name ++ [">"%char] /\ (">"%char ∉ name))
             \/ (m_str1 m = DQUOTE :: name ++ [DQUOTE]
                 /\ name <> [] /\ (DQUOTE ∉ name))).
Proof.
  eexists. split; [vm_compute; reflexivity|]. split; [reflexivity|].
  apply (directive_shape (lit "a #include  <b/c.glsl> d")).
  vm_compute. reflexivity.
Defined.
